(** * RAD synthesizer field analysis scripts: a shallow embedding

    The development follows the Python scripts under [audit-rad/]:
    - [analyze_rad_fields.py]         (class [RADFieldAnalyzer]),
    - [analyze_unique_data_fields.py] (class [UniqueDataAnalyzer]),
    - [create_data_summary.py]        ([create_visual_summary]),
    - [generate_data_dictionary.py]   ([_categorize_field]),
    - [graphql-to-mermaid-python.py]  ([extract_pure_graphql]),
    and the JavaScript twin [extract_fields_rad_use.py].

    A Python [str] is a list of characters; a character is a code point
    below 256 ([ascii]), with Python's own classification of these code
    points for [str.isspace], [str.lower] and the [\w] class of [re]. *)

From Stdlib Require Import Ascii String.
From Stdlib Require Import Bool Arith Lia ZArith List DecimalString.
From Stdlib Require Import Floats.PrimFloat Floats.SpecFloat Floats.FloatOps.
From Stdlib Require Import Numbers.Cyclic.Int63.Uint63.
Import ListNotations.

Set Implicit Arguments.

Definition str := list ascii.

Coercion list_ascii_of_string : string >-> list.

Local Open Scope string_scope.
Local Open Scope list_scope.
Local Open Scope nat_scope.

(** The double quote character (written [\x22] in the comments of this
    file), and the quote sets of [strip('\x22\'')] and [strip('\x22\'`')]. *)
Definition dquote : ascii := "034"%char.
Definition quotes2 : str := [dquote; "'"%char].
Definition quotes3 : str := [dquote; "'"%char; "`"%char].

(** ** Python string primitives *)

Module PyStr.

Definition code (c : ascii) : nat := nat_of_ascii c.

Definition between (lo hi : nat) (c : ascii) : bool :=
  (lo <=? code c) && (code c <=? hi).

(** [c.isspace()]: TAB..CR, FS..US, SPACE, NEL and NBSP. *)
Definition is_space (c : ascii) : bool :=
  between 9 13 c || between 28 32 c || (code c =? 133) || (code c =? 160).

Definition is_upper (c : ascii) : bool :=
  between 65 90 c || between 192 214 c || between 216 222 c.

(** [c.lower()] *)
Definition lower_char (c : ascii) : ascii :=
  if is_upper c then ascii_of_nat (code c + 32) else c.

(** [s.lower()] *)
Definition lower (s : str) : str := map lower_char s.

Fixpoint eqb_str (a b : str) : bool :=
  match a, b with
  | [], [] => true
  | x :: a', y :: b' => Ascii.eqb x y && eqb_str a' b'
  | _, _ => false
  end.

(** [x in [a, b, ...]] for a list of strings *)
Definition mem_str (x : str) (l : list str) : bool := existsb (eqb_str x) l.

(** [c in chars] *)
Definition mem_char (chars : str) (c : ascii) : bool :=
  existsb (Ascii.eqb c) chars.

(** [s.startswith(p)] *)
Fixpoint startswith (p s : str) : bool :=
  match p, s with
  | [], _ => true
  | x :: p', y :: s' => Ascii.eqb x y && startswith p' s'
  | _ :: _, [] => false
  end.

Fixpoint dropwhile (p : ascii -> bool) (s : str) : str :=
  match s with
  | c :: s' => if p c then dropwhile p s' else s
  | [] => []
  end.

Definition lstrip_by (p : ascii -> bool) (s : str) : str := dropwhile p s.
Definition rstrip_by (p : ascii -> bool) (s : str) : str :=
  rev (dropwhile p (rev s)).
Definition strip_by (p : ascii -> bool) (s : str) : str :=
  rstrip_by p (lstrip_by p s).

(** [s.strip()] *)
Definition strip (s : str) : str := strip_by is_space s.
(** [s.strip(chars)] *)
Definition strip_chars (chars s : str) : str := strip_by (mem_char chars) s.

(** Offset of the leftmost occurrence of [sub] in [s]. *)
Fixpoint index_of (sub s : str) : option nat :=
  if startswith sub s then Some 0
  else match s with
       | [] => None
       | _ :: s' => option_map S (index_of sub s')
       end.

(** [sub in s] *)
Definition contains (sub s : str) : bool :=
  match index_of sub s with Some _ => true | None => false end.

(** [any(x in s for x in subs)] *)
Definition contains_any (subs : list str) (s : str) : bool :=
  existsb (fun x => contains x s) subs.

(** [s.find(sub, start)] with Python's treatment of a negative [start]. *)
Definition find (sub s : str) (start : Z) : Z :=
  let len := Z.of_nat (length s) in
  let start' := if (start <? 0)%Z then Z.max 0 (start + len) else start in
  if (len <? start')%Z then (-1)%Z
  else match index_of sub (skipn (Z.to_nat start') s) with
       | Some i => (start' + Z.of_nat i)%Z
       | None => (-1)%Z
       end.

(** An index of a slice, brought into [0 .. len(s)]. *)
Definition clip (len : nat) (i : Z) : nat :=
  if (i <? 0)%Z then Z.to_nat (i + Z.of_nat len)
  else Nat.min (Z.to_nat i) len.

(** [s[a:b]] *)
Definition slice (s : str) (a b : Z) : str :=
  let a' := clip (length s) a in
  let b' := clip (length s) b in
  firstn (b' - a') (skipn a' s).

(** [s.replace(old, new, 1)] *)
Definition replace1 (old new s : str) : str :=
  match index_of old s with
  | Some i => firstn i s ++ new ++ skipn (i + length old) s
  | None => s
  end.

(** [s.replace(old, new)] for a non-empty [old]; [skip] counts the
    characters of an occurrence that is being stepped over. *)
Fixpoint replace_go (old new s : str) (skip : nat) : str :=
  match s with
  | [] => []
  | c :: s' =>
      match skip with
      | S n => replace_go old new s' n
      | O => if startswith old s
             then new ++ replace_go old new s' (length old - 1)
             else c :: replace_go old new s' 0
      end
  end.

Definition replace (old new s : str) : str := replace_go old new s 0.

(** [s.split(sep)] for a non-empty [sep]: [skip] counts the characters of
    a separator that is being stepped over, [cur] is the piece collected
    so far, in reverse. *)
Fixpoint split_go (sep s : str) (skip : nat) (cur : str) : list str :=
  match s with
  | [] => [rev cur]
  | c :: s' =>
      match skip with
      | S n => split_go sep s' n cur
      | O => if startswith sep s
             then rev cur :: split_go sep s' (length sep - 1) []
             else split_go sep s' 0 (c :: cur)
      end
  end.

Definition split (sep s : str) : list str := split_go sep s 0 [].

(** [s.count(sep)]: occurrences found left to right, not overlapping. *)
Fixpoint count_go (sep s : str) (skip : nat) : nat :=
  match s with
  | [] => 0
  | _ :: s' =>
      match skip with
      | S n => count_go sep s' n
      | O => if startswith sep s
             then S (count_go sep s' (length sep - 1))
             else count_go sep s' 0
      end
  end.

Definition count (sep s : str) : nat := count_go sep s 0.

(** [sep.join(l)] *)
Fixpoint join (sep : str) (l : list str) : str :=
  match l with
  | [] => []
  | [x] => x
  | x :: l' => x ++ sep ++ join sep l'
  end.

(** [str(n)] for a natural number *)
Definition str_of_nat (n : nat) : str :=
  list_ascii_of_string (DecimalString.NilEmpty.string_of_uint (Nat.to_uint n)).

(** [a < b] on strings: by code points, a proper prefix first. *)
Fixpoint ltb_str (a b : str) : bool :=
  match a, b with
  | [], [] => false
  | [], _ :: _ => true
  | _ :: _, [] => false
  | x :: a', y :: b' =>
      if code x <? code y then true
      else if code y <? code x then false
      else ltb_str a' b'
  end.

Fixpoint insert_str (x : str) (l : list str) : list str :=
  match l with
  | [] => [x]
  | y :: l' => if ltb_str x y then x :: l else y :: insert_str x l'
  end.

(** [sorted(l)] for a list of strings *)
Definition sorted_str (l : list str) : list str :=
  fold_left (fun acc x => insert_str x acc) l [].

(** [s.title()] on ASCII text (the scripts apply it to the literal keys
    of a dictionary only): a letter that follows a letter is lowered,
    any other letter is raised. *)
Definition is_alpha (c : ascii) : bool := between 65 90 c || between 97 122 c.
Definition upper_char (c : ascii) : ascii :=
  if between 97 122 c then ascii_of_nat (code c - 32) else c.
Fixpoint title_go (s : str) (prev_cased : bool) : str :=
  match s with
  | [] => []
  | c :: s' =>
      (if prev_cased then lower_char c else upper_char c)
        :: title_go s' (is_alpha c)
  end.
Definition title (s : str) : str := title_go s false.

Definition nl : str := ["010"%char].

(** Lookup in a [dict] with string keys, kept as an association list in
    insertion order. *)
Fixpoint lookup {A} (k : str) (d : list (str * A)) : option A :=
  match d with
  | [] => None
  | (k', v) :: d' => if eqb_str k k' then Some v else lookup k d'
  end.

End PyStr.
Import PyStr.

(** ** [graphql-to-mermaid-python.py] *)

Module Mermaid.

(** [extract_pure_graphql(query_string)]; the argument is [None] or a
    string, and so is the result. *)
Definition extract_pure_graphql (query_string : option str) : option str :=
  match query_string with
  | None => None
  | Some [] => None
  | Some s => Some (strip (strip_chars quotes2 (strip s)))
  end.

End Mermaid.

(** ** Regular expressions of Python's [re], as far as the scripts use them

    Every repetition in the scripts' patterns is over a single character
    class, so repetition is kept to classes.  Matching is by backtracking
    in priority order, as in [re]: a greedy repetition tries the longest
    run first, a lazy one the shortest, an alternation its left branch. *)

Module Re.

Inductive regex : Type :=
| Eps
| Chr (c : ascii)                   (* a literal character *)
| Cls (p : ascii -> bool)           (* a character class *)
| Star (p : ascii -> bool)          (* [p*] *)
| StarLazy (p : ascii -> bool)      (* [p*?] *)
| Seq (a b : regex)
| Alt (a b : regex)
| Group (n : nat) (a : regex)       (* the n-th capturing group *)
| Look (p : str -> bool).           (* a test of the text that is left *)

(** [p+] *)
Definition Plus (p : ascii -> bool) : regex := Seq (Cls p) (Star p).

(** A literal text. *)
Fixpoint Lit (s : str) : regex :=
  match s with
  | [] => Eps
  | c :: s' => Seq (Chr c) (Lit s')
  end.

Fixpoint seq (l : list regex) : regex :=
  match l with
  | [] => Eps
  | r :: l' => Seq r (seq l')
  end.

Fixpoint alt (r : regex) (l : list regex) : regex :=
  match l with
  | [] => r
  | r' :: l' => Alt r (alt r' l')
  end.

(** Character classes. *)
Definition is_digit (c : ascii) : bool := between 48 57 c.
Definition is_ascii_alpha (c : ascii) : bool :=
  between 65 90 c || between 97 122 c.
(** [\w]: [_] and the characters with [c.isalnum()]. *)
Definition word (c : ascii) : bool :=
  is_digit c || is_ascii_alpha c || (code c =? 95)
  || (code c =? 170) || (code c =? 178) || (code c =? 179)
  || (code c =? 181) || (code c =? 185) || (code c =? 186)
  || between 188 190 c
  || between 192 214 c || between 216 246 c || between 248 255 c.
(** [\s] *)
Definition space : ascii -> bool := is_space.
(** [[\s\S]], and [.] under [re.DOTALL] *)
Definition any (_ : ascii) : bool := true.
(** [.] *)
Definition dot (c : ascii) : bool := negb (code c =? 10).
(** [[abc]] and [[^abc]] *)
Definition one_of (chars : str) : ascii -> bool := mem_char chars.
Definition none_of (chars : str) (c : ascii) : bool := negb (mem_char chars c).

Definition captures := list (nat * str).

Section Run.
Variable R : Type.

Fixpoint star_greedy (p : ascii -> bool) (k : str -> option R) (s : str)
  : option R :=
  match s with
  | c :: s' =>
      if p c
      then match star_greedy p k s' with
           | Some r => Some r
           | None => k s
           end
      else k s
  | [] => k []
  end.

Fixpoint star_lazy (p : ascii -> bool) (k : str -> option R) (s : str)
  : option R :=
  match k s with
  | Some r => Some r
  | None =>
      match s with
      | c :: s' => if p c then star_lazy p k s' else None
      | [] => None
      end
  end.

(** The text of [s] consumed when [s'] is what is left of it. *)
Definition consumed (s s' : str) : str := firstn (length s - length s') s.

(** [run r s g k]: match [r] at the head of [s] with the groups [g]
    captured so far; [k] is tried on every way to match, in priority
    order, until it accepts. *)
Fixpoint run (r : regex) (s : str) (g : captures)
  (k : str -> captures -> option R) : option R :=
  match r with
  | Eps => k s g
  | Chr c =>
      match s with
      | x :: s' => if Ascii.eqb x c then k s' g else None
      | [] => None
      end
  | Cls p =>
      match s with
      | x :: s' => if p x then k s' g else None
      | [] => None
      end
  | Star p => star_greedy p (fun s' => k s' g) s
  | StarLazy p => star_lazy p (fun s' => k s' g) s
  | Seq a b => run a s g (fun s' g' => run b s' g' k)
  | Alt a b =>
      match run a s g k with
      | Some r => Some r
      | None => run b s g k
      end
  | Group n a => run a s g (fun s' g' => k s' ((n, consumed s s') :: g'))
  | Look p => if p s then k s g else None
  end.
End Run.

(** A match object: [m.group(0)] and the numbered groups. *)
Record mtch := { m_text : str; m_groups : captures }.

(** [m.group(n)], [None] when the group took no part in the match. *)
Fixpoint group (n : nat) (g : captures) : option str :=
  match g with
  | [] => None
  | (n', t) :: g' => if n =? n' then Some t else group n g'
  end.

(** [re.match(r, s)] *)
Definition match_at (r : regex) (s : str) : option mtch :=
  run r s [] (fun s' g => Some {| m_text := consumed s s'; m_groups := g |}).

(** [re.search(r, s)] *)
Fixpoint search (r : regex) (s : str) : option mtch :=
  match match_at r s with
  | Some m => Some m
  | None =>
      match s with
      | [] => None
      | _ :: s' => search r s'
      end
  end.

(** [re.finditer(r, s)]: the matches from left to right, not
    overlapping; [skip] counts the characters of the last match still
    to be stepped over.  No pattern of the scripts matches the empty
    text. *)
Fixpoint finditer_go (r : regex) (s : str) (skip : nat) : list mtch :=
  match s with
  | [] =>
      match skip with
      | O => match match_at r [] with Some m => [m] | None => [] end
      | S _ => []
      end
  | _ :: s' =>
      match skip with
      | S n => finditer_go r s' n
      | O =>
          match match_at r s with
          | Some m => m :: finditer_go r s' (length (m_text m) - 1)
          | None => finditer_go r s' 0
          end
      end
  end.

Definition finditer (r : regex) (s : str) : list mtch := finditer_go r s 0.

(** Declarative reading of [run]: [matches r w g g'] when [r] can match
    the text [w], taking the captures from [g] to [g']. *)
Inductive matches : regex -> str -> captures -> captures -> Prop :=
| M_Eps g : matches Eps [] g g
| M_Chr c g : matches (Chr c) [c] g g
| M_Cls (p : ascii -> bool) c g : p c = true -> matches (Cls p) [c] g g
| M_Star (p : ascii -> bool) w g :
    forallb p w = true -> matches (Star p) w g g
| M_StarLazy (p : ascii -> bool) w g :
    forallb p w = true -> matches (StarLazy p) w g g
| M_Seq a b w1 w2 g g1 g2 :
    matches a w1 g g1 -> matches b w2 g1 g2 -> matches (Seq a b) (w1 ++ w2) g g2
| M_AltL a b w g g' : matches a w g g' -> matches (Alt a b) w g g'
| M_AltR a b w g g' : matches b w g g' -> matches (Alt a b) w g g'
| M_Group n a w g g' :
    matches a w g g' -> matches (Group n a) w g ((n, w) :: g')
| M_Look p g : matches (Look p) [] g g.

End Re.

(** ** Exceptions and a state monad for the analyzer object *)

Inductive exn : Type :=
| ValueError      (* [max()] of an empty sequence *)
| NoneGroup       (* a group that took no part in a match is used as text *)
| ZeroDivisionError
| OverflowError   (* [int()] of an infinity or a NaN *)
| ReError         (* [re.error]: a pattern that cannot be compiled *)
| OpaquePattern.  (* a name spliced into a pattern uses pattern syntax
                     that is not read here, see [RePattern] *)

Inductive result (A : Type) : Type :=
| Ok (a : A)
| Raise (e : exn).
Arguments Ok {A} a.
Arguments Raise {A} e.

Module St.
Section Monad.
Variable S : Type.

Definition M (A : Type) : Type := S -> result (A * S).

Definition ret {A} (a : A) : M A := fun st => Ok (a, st).
Definition raise {A} (e : exn) : M A := fun _ => Raise e.
Definition bind {A B} (m : M A) (f : A -> M B) : M B :=
  fun st => match m st with
            | Ok (a, st') => f a st'
            | Raise e => Raise e
            end.
Definition modify (f : S -> S) : M unit := fun st => Ok (tt, f st).
Definition lift {A} (r : result A) : M A :=
  fun st => match r with Ok a => Ok (a, st) | Raise e => Raise e end.

(** [for x in l: acc = body(x, acc)] *)
Fixpoint foldM {A B} (body : A -> B -> M B) (l : list A) (acc : B) : M B :=
  match l with
  | [] => ret acc
  | x :: l' => bind (body x acc) (foldM body l')
  end.
End Monad.
Arguments ret {S A} a.
Arguments raise {S A} e.
Arguments bind {S A B} m f.
Arguments modify {S} f.
Arguments lift {S A} r.
Arguments foldM {S A B} body l acc.
End St.

Declare Scope monad_scope.
Notation "x <- m ;; k" := (St.bind m (fun x => k))
  (at level 61, m at next level, right associativity) : monad_scope.
Notation "m ;;; k" := (St.bind m (fun _ => k))
  (at level 61, right associativity) : monad_scope.

(** Python sets of strings and [defaultdict(set)], in insertion order. *)
Definition set_add (x : str) (s : list str) : list str :=
  if mem_str x s then s else s ++ [x].

Fixpoint dd_add (k v : str) (d : list (str * list str)) : list (str * list str) :=
  match d with
  | [] => [(k, [v])]
  | (k', s) :: d' =>
      if eqb_str k k' then (k', set_add v s) :: d' else (k', s) :: dd_add k v d'
  end.

(** A [collections.Counter] over strings, in insertion order. *)
Fixpoint counter_incr (k : str) (c : list (str * nat)) : list (str * nat) :=
  match c with
  | [] => [(k, 1)]
  | (k', n) :: c' =>
      if eqb_str k k' then (k', S n) :: c' else (k', n) :: counter_incr k c'
  end.

(** [sorted(l, key=..., reverse=True)]: stable, largest key first. *)
Fixpoint insert_desc {A} (key : A -> nat) (x : A) (l : list A) : list A :=
  match l with
  | [] => [x]
  | y :: l' => if key y <? key x then x :: l else y :: insert_desc key x l'
  end.

Definition sorted_desc {A} (key : A -> nat) (l : list A) : list A :=
  fold_left (fun acc x => insert_desc key x acc) l [].

(** ** Pattern text

    [_infer_entity_type] builds its two patterns with an [rf] string, so
    the variable name is read by [re] as pattern text.  [parse] reads a
    name the way the parser of [re] does (Python 3.6 and later), for the
    part of the syntax made of literal characters, [.], [$], escapes,
    character sets, capturing groups and [*], [+], [?] on a single
    character.  What it does not read is reported as [OpaquePattern]: [^]
    and [|], groups opening with [(?], repetition of a group, counted and
    possessive repetition, and the escapes for positions, code points and
    back-references. *)

Module RePattern.
Import Re.

(** The characters with a meaning of their own: [SPECIAL_CHARS]. *)
Definition special : str := ".\[{()*+?^$|".

(** The items of a sequence, as far as a repetition sign that follows
    must tell them apart. *)
Inductive item : Type :=
| I_chr (c : ascii)              (* a literal character *)
| I_cls (p : ascii -> bool)      (* one character of a class *)
| I_at (r : regex)               (* a position *)
| I_rep (r : regex)              (* a repetition *)
| I_grp (r : regex).             (* a group *)

Definition item_regex (i : item) : regex :=
  match i with
  | I_chr c => Chr c
  | I_cls p => Cls p
  | I_at r | I_rep r | I_grp r => r
  end.

(** A sequence is collected last item first. *)
Definition items_regex (l : list item) : regex :=
  seq (map item_regex (rev l)).

(** [$]: the end of the text, or the line break that ends it. *)
Definition at_end (s : str) : bool :=
  match s with
  | [] => true
  | [c] => code c =? 10
  | _ => false
  end.

Definition negate (p : ascii -> bool) (c : ascii) : bool := negb (p c).

(** [\d \D \s \S \w \W] *)
Definition class_escapes : list (ascii * (ascii -> bool)) :=
  [("d"%char, is_digit); ("D"%char, negate is_digit);
   ("s"%char, space); ("S"%char, negate space);
   ("w"%char, word); ("W"%char, negate word)].

(** [\a \f \n \r \t \v] *)
Definition char_escapes : list (ascii * nat) :=
  [("a"%char, 7); ("f"%char, 12); ("n"%char, 10); ("r"%char, 13);
   ("t"%char, 9); ("v"%char, 11)].

(** [\A \b \B \Z], and the escapes that take digits or a name. *)
Definition unread_escapes : str := "AbBZxuUN".

Fixpoint assoc {A} (c : ascii) (l : list (ascii * A)) : option A :=
  match l with
  | [] => None
  | (x, a) :: l' => if Ascii.eqb c x then Some a else assoc c l'
  end.

(** [_escape]: the item for a backslash followed by [e]. *)
Definition escape (e : ascii) : result item :=
  match assoc e class_escapes, assoc e char_escapes with
  | Some p, _ => Ok (I_cls p)
  | None, Some n => Ok (I_chr (ascii_of_nat n))
  | None, None =>
      if mem_char unread_escapes e || is_digit e then Raise OpaquePattern
      else if is_ascii_alpha e then Raise ReError        (* bad escape *)
      else Ok (I_chr e)
  end.

Inductive quant : Type := Q_star | Q_plus | Q_opt.

Definition quant_of (c : ascii) : option quant :=
  if Ascii.eqb c "*" then Some Q_star
  else if Ascii.eqb c "+" then Some Q_plus
  else if Ascii.eqb c "?" then Some Q_opt
  else None.

Definition repeat (q : quant) (lazy : bool) (p : ascii -> bool) : regex :=
  match q, lazy with
  | Q_star, false => Star p
  | Q_star, true => StarLazy p
  | Q_plus, false => Seq (Cls p) (Star p)
  | Q_plus, true => Seq (Cls p) (StarLazy p)
  | Q_opt, false => Alt (Cls p) Eps
  | Q_opt, true => Alt Eps (Cls p)
  end.

(** The class of the single character that an item takes, for the
    repetition sign behind it. *)
Definition unit_of (i : item) : result (ascii -> bool) :=
  match i with
  | I_chr x => Ok (fun c => Ascii.eqb c x)
  | I_cls p => Ok p
  | I_at _ => Raise ReError              (* nothing to repeat *)
  | I_rep _ => Raise ReError             (* multiple repeat *)
  | I_grp _ => Raise OpaquePattern
  end.

(** What follows a brace is a repetition count: digits, a comma and
    digits, or both, up to the closing brace. *)
Definition counted (s : str) : bool :=
  match s with
  | [] => false
  | c :: _ =>
      if Ascii.eqb c "}" then false
      else
        let s1 := dropwhile is_digit s in
        let s2 := match s1 with
                  | d :: t => if Ascii.eqb d "," then dropwhile is_digit t else s1
                  | [] => s1
                  end in
        match s2 with
        | d :: _ => Ascii.eqb d "}"
        | [] => false
        end
  end.

Definition add_char (p : ascii -> bool) (x : ascii) (c : ascii) : bool :=
  p c || Ascii.eqb c x.
Definition add_range (p : ascii -> bool) (lo hi : ascii) (c : ascii) : bool :=
  p c || between (code lo) (code hi) c.
Definition no_char (_ : ascii) : bool := false.

(** The set that is being read: negated or not, whether it has an item
    yet, and its items. *)
Definition set_state : Type := bool * bool * (ascii -> bool).

Definition set_item (neg : bool) (p : ascii -> bool) : item :=
  I_cls (if neg then negate p else p).

(** [parse dot s set cur open next]: [s] is the pattern text still to be
    read, [set] the character set that is open, if one is, [cur] the
    items of the sequence being read, [open] the groups that are open
    (number and items read before it, innermost first) and [next] the
    number of the next group; [dot] is the class of [.].  The result is
    the pattern and the number of the next group. *)
Fixpoint parse (dot : ascii -> bool) (s : str) (set : option set_state)
         (cur : list item) (open : list (nat * list item)) (next : nat)
         {struct s} : result (regex * nat) :=
  match s with
  | [] =>
      match set, open with
      | None, [] => Ok (items_regex cur, next)
      | _, _ => Raise ReError     (* unterminated set or subpattern *)
      end
  | c :: s' =>
      match set with
      | Some (neg, full, p) =>
          if Ascii.eqb c "]" && full
          then parse dot s' None (set_item neg p :: cur) open next
          else if Ascii.eqb c "\" then Raise OpaquePattern
          else
            match s' with
            | d :: s'' =>
                if Ascii.eqb d "-" then
                  match s'' with
                  | [] => Raise ReError          (* unterminated set *)
                  | e :: s3 =>
                      if Ascii.eqb e "]"
                      then parse dot s3 None
                             (set_item neg (add_char (add_char p c) "-") :: cur)
                             open next
                      else if Ascii.eqb e "\" then Raise OpaquePattern
                      else if code e <? code c
                      then Raise ReError         (* bad character range *)
                      else parse dot s3 (Some (neg, true, add_range p c e))
                             cur open next
                  end
                else parse dot s' (Some (neg, true, add_char p c)) cur open next
            | [] => Raise ReError                (* unterminated set *)
            end
      | None =>
          if negb (mem_char special c)
          then parse dot s' None (I_chr c :: cur) open next
          else if Ascii.eqb c "."
          then parse dot s' None (I_cls dot :: cur) open next
          else if Ascii.eqb c "$"
          then parse dot s' None (I_at (Look at_end) :: cur) open next
          else if Ascii.eqb c "\" then
            match s' with
            | [] => Raise ReError                (* bad escape *)
            | e :: s'' =>
                match escape e with
                | Ok i => parse dot s'' None (i :: cur) open next
                | Raise x => Raise x
                end
            end
          else if Ascii.eqb c "[" then
            match s' with
            | d :: s'' =>
                if Ascii.eqb d "^"
                then parse dot s'' (Some (true, false, no_char)) cur open next
                else parse dot s' (Some (false, false, no_char)) cur open next
            | [] => Raise ReError                (* unterminated set *)
            end
          else if Ascii.eqb c "(" then
            match s' with
            | d :: _ =>
                if Ascii.eqb d "?" then Raise OpaquePattern
                else parse dot s' None [] ((next, cur) :: open) (S next)
            | [] => Raise ReError                (* missing ) *)
            end
          else if Ascii.eqb c ")" then
            match open with
            | [] => Raise ReError                (* unbalanced parenthesis *)
            | (n, outer) :: open' =>
                parse dot s' None (I_grp (Group n (items_regex cur)) :: outer)
                  open' next
            end
          else if Ascii.eqb c "{" then
            if counted s' then Raise OpaquePattern
            else parse dot s' None (I_chr c :: cur) open next
          else
            match quant_of c with
            | None => Raise OpaquePattern        (* [^] and [|] *)
            | Some q =>
                match cur with
                | [] => Raise ReError            (* nothing to repeat *)
                | i :: cur' =>
                    match unit_of i with
                    | Raise x => Raise x
                    | Ok p =>
                        match s' with
                        | d :: s'' =>
                            if Ascii.eqb d "?"
                            then parse dot s'' None
                                   (I_rep (repeat q true p) :: cur') open next
                            else if Ascii.eqb d "+" then Raise OpaquePattern
                            else parse dot s' None
                                   (I_rep (repeat q false p) :: cur') open next
                        | [] => parse dot s' None
                                  (I_rep (repeat q false p) :: cur') open next
                        end
                    end
                end
            end
      end
  end.

(** Pattern text without a special character: it reads as itself. *)
Definition plain (s : str) : bool :=
  forallb (fun c => negb (mem_char special c)) s.

(** The name read as pattern text, with [first] the number of its first
    group. *)
Definition read_name (dot : ascii -> bool) (first : nat) (name : str)
  : result (regex * nat) :=
  parse dot name None [] [] first.

End RePattern.

(** ** [analyze_rad_fields.py]: class [RADFieldAnalyzer] *)

Module RADFieldAnalyzer.
Import Re.
Local Open Scope monad_scope.

(** One entry of [fields_with_context] / [access_patterns] / [patterns]. *)
Record field_access := {
  field : str;
  normalized : str;
  entity_type : str;
  access_method : str
}.

Record join_info_t := {
  uses_join : bool;
  join_conditions : list (str * str);     (* ['left'], ['right'] *)
  joined_entities : list str
}.

Record return_pattern_t := { rp_type : str; rp_dynamic : bool }.

Record complexity_t := { score : nat; level : str; factors : list str }.

(** The [analysis] dictionary of [analyze_synthesizer]. *)
Record analysis := {
  name : str;
  entity_types : list str;
  all_fields : list str;
  field_accesses : list field_access;
  join_info : join_info_t;
  return_pattern : return_pattern_t;
  code_length : nat;
  conditional_logic : bool;
  uses_spread : bool;
  uses_optional_chaining : bool;
  complexity : complexity_t
}.

(** The attributes of the analyzer object. *)
Record analyzer := {
  self_results : list analysis;
  self_all_fields : list str;
  self_entity_types : list str;
  self_field_variations : list (str * list str);
  self_field_by_entity : list (str * list str)
}.

(** [__init__] *)
Definition init : analyzer := {|
  self_results := [];
  self_all_fields := [];
  self_entity_types := [];
  self_field_variations := [];
  self_field_by_entity := []
|}.

Definition M := St.M analyzer.

Definition add_all_fields (x : str) : M unit :=
  St.modify (fun st => {|
    self_results := self_results st;
    self_all_fields := set_add x (self_all_fields st);
    self_entity_types := self_entity_types st;
    self_field_variations := self_field_variations st;
    self_field_by_entity := self_field_by_entity st |}).

Definition add_entity_types (x : str) : M unit :=
  St.modify (fun st => {|
    self_results := self_results st;
    self_all_fields := self_all_fields st;
    self_entity_types := set_add x (self_entity_types st);
    self_field_variations := self_field_variations st;
    self_field_by_entity := self_field_by_entity st |}).

Definition add_field_variations (k v : str) : M unit :=
  St.modify (fun st => {|
    self_results := self_results st;
    self_all_fields := self_all_fields st;
    self_entity_types := self_entity_types st;
    self_field_variations := dd_add k v (self_field_variations st);
    self_field_by_entity := self_field_by_entity st |}).

Definition add_field_by_entity (k v : str) : M unit :=
  St.modify (fun st => {|
    self_results := self_results st;
    self_all_fields := self_all_fields st;
    self_entity_types := self_entity_types st;
    self_field_variations := self_field_variations st;
    self_field_by_entity := dd_add k v (self_field_by_entity st) |}).

Definition append_results (a : analysis) : M unit :=
  St.modify (fun st => {|
    self_results := self_results st ++ [a];
    self_all_fields := self_all_fields st;
    self_entity_types := self_entity_types st;
    self_field_variations := self_field_variations st;
    self_field_by_entity := self_field_by_entity st |}).

(** The [normalizations] table of [normalize_field_path]. *)
Definition normalizations : list (str * str) := [
  ("entitlementData.current" : str, "entitlements.current" : str);
  ("entitlementData.used" : str, "entitlements.used" : str);
  ("entitlementData.transitionable" : str, "entitlements.transitionable" : str);
  ("vnextAccount.billing" : str, "billing" : str);
  ("vnextAccount.account" : str, "account" : str);
  ("features.websiteType" : str, "websiteType" : str);
  ("gem.subscriberCount" : str, "email.subscriberCount" : str);
  ("gem.hasSent" : str, "email.hasSent" : str);
  ("gem.lastFbPostDate" : str, "social.lastFacebookPost" : str);
  ("gem.lastIgPostDate" : str, "social.lastInstagramPost" : str);
  ("ols.products.count" : str, "commerce.productCount" : str);
  ("ola.service.total" : str, "appointments.serviceCount" : str);
  ("ola.account.status" : str, "appointments.status" : str)
].

(** The loop over [normalizations.items()]: the first [old] that the
    field starts with. *)
Fixpoint first_prefix (items : list (str * str)) (field : str)
  : option (str * str) :=
  match items with
  | [] => None
  | (old, new) :: items' =>
      if startswith old field then Some (old, new)
      else first_prefix items' field
  end.

Definition normalize_field_path (field : str) : M str :=
  let field := strip_chars quotes3 (strip field) in
  match first_prefix normalizations field with
  | Some (old, new) =>
      let normalized := replace1 old new field in
      add_field_variations new field ;;;
      St.ret normalized
  | None => St.ret field
  end.

(** A run of word characters, as a [(\w+)] group captures it. *)
Definition is_word (s : str) : bool := forallb word s.

Definition quote : ascii -> bool := one_of quotes3.

(** [rf'entity\.type\s*===\s*[\'\x22`](\w+)[\'\x22`].*?{entity_var}'], used
    with [re.DOTALL]: [name] is what the spliced name reads as.  A group
    of the name comes after [(\w+)], so its number is 2 or more. *)
Definition filter_regex (name : regex) : regex :=
  seq [Lit "entity.type"; Star space; Lit "==="; Star space; Cls quote;
       Group 1 (Plus word); Cls quote; StarLazy any; name].

Definition filter_pattern (entity_var : str) : result regex :=
  match RePattern.read_name any 2 entity_var with
  | Ok (name, _) => Ok (filter_regex name)
  | Raise e => Raise e
  end.

(** [rf'{entity_var}\.type\s*===\s*[\'\x22`](\w+)[\'\x22`]']: the groups
    of the name come first, and [(\w+)] is group [n], the next one. *)
Definition type_regex (name : regex) (n : nat) : regex :=
  seq [name; Lit ".type"; Star space; Lit "==="; Star space;
       Cls quote; Group n (Plus word); Cls quote].

Definition type_pattern (entity_var : str) : result regex :=
  match RePattern.read_name dot 1 entity_var with
  | Ok (name, n) => Ok (type_regex name n)
  | Raise e => Raise e
  end.

Definition group_of (n : nat) (m : mtch) : result str :=
  match group n (m_groups m) with
  | Some t => Ok t
  | None => Raise NoneGroup
  end.

(** [re.search] compiles the pattern before it searches, so a name that
    is not valid pattern text raises [re.error] there. *)
Definition _infer_entity_type (code entity_var : str) : result str :=
  match filter_pattern entity_var with
  | Raise e => Raise e
  | Ok filter_pattern =>
      match search filter_pattern code with
      | Some m => group_of 1 m
      | None =>
          match type_pattern entity_var with
          | Raise e => Raise e
          | Ok type_pattern =>
              match search type_pattern code with
              | Some m => group_of 1 m
              | None =>
                  if contains "wsbv" (lower entity_var)
                  then Ok ("wsbvnext" : str)
                  else if contains "mktg" (lower entity_var)
                  then Ok ("mktgasst" : str)
                  else if contains "uce" (lower entity_var)
                  then Ok ("uce" : str)
                  else Ok ("unknown" : str)
              end
          end
      end
  end.

(** [r'entityPick\s*\(\s*(\w+)\s*,\s*\[([\s\S]*?)\]\s*\)'] *)
Definition entity_pick_pattern : regex :=
  seq [Lit "entityPick"; Star space; Chr "("; Star space;
       Group 1 (Plus word); Star space; Chr ","; Star space; Chr "[";
       Group 2 (StarLazy any); Chr "]"; Star space; Chr ")"].

(** [r'[\'\x22`]([^\'\x22`]+)[\'\x22`]'] *)
Definition field_pattern : regex :=
  seq [Cls quote; Group 1 (Plus (none_of quotes3)); Cls quote].

(** [re.findall] for a pattern with one group. *)
Fixpoint groups1 (ms : list mtch) : result (list str) :=
  match ms with
  | [] => Ok []
  | m :: ms' =>
      match group_of 1 m, groups1 ms' with
      | Ok t, Ok ts => Ok (t :: ts)
      | Raise e, _ => Raise e
      | _, Raise e => Raise e
      end
  end.

Definition findall1 (r : regex) (s : str) : result (list str) :=
  groups1 (finditer r s).

Definition extract_entity_pick_fields (code : str) : M (list field_access) :=
  St.foldM (fun m fields_with_context =>
    entity_var <- St.lift (group_of 1 m) ;;
    fields_str <- St.lift (group_of 2 m) ;;
    fields <- St.lift (findall1 field_pattern fields_str) ;;
    entity_type <- St.lift (_infer_entity_type code entity_var) ;;
    St.foldM (fun field acc =>
      normalized <- normalize_field_path field ;;
      add_all_fields normalized ;;;
      (match entity_type with
       | [] => St.ret tt
       | _ => add_field_by_entity entity_type normalized
       end) ;;;
      St.ret (acc ++ [{| field := field; normalized := normalized;
                         entity_type := entity_type;
                         access_method := "entityPick" |}]))
      fields fields_with_context)
    (finditer entity_pick_pattern code) [].

(** [r'profile\.request\.query\.(\w+)'] *)
Definition query_pattern : regex :=
  seq [Lit "profile.request.query."; Group 1 (Plus word)].

(** [[a-zA-Z0-9_.?]] *)
Definition prop_char (c : ascii) : bool :=
  is_ascii_alpha c || is_digit c || one_of "_.?" c.

(** [r'(\w+)\.([a-zA-Z0-9_.?]+)(?:\s*[=!<>]|\s*\?\?|\s*&&|\s*\|\||\s*\))'] *)
Definition prop_pattern : regex :=
  seq [Group 1 (Plus word); Chr "."; Group 2 (Plus prop_char);
       alt (Seq (Star space) (Cls (one_of "=!<>")))
           [Seq (Star space) (Lit "??");
            Seq (Star space) (Lit "&&");
            Seq (Star space) (Lit "||");
            Seq (Star space) (Chr ")")]].

Definition not_entity_vars : list str :=
  ["profile" : str; "entity" : str; "console" : str; "Object" : str;
   "Array" : str; "Math" : str].

Definition extract_direct_property_access (code : str) : M (list field_access) :=
  access_patterns <-
    St.foldM (fun m acc =>
      g1 <- St.lift (group_of 1 m) ;;
      let field := "request.query." ++ g1 in
      St.ret (acc ++ [{| field := field; normalized := field;
                         entity_type := "profile";
                         access_method := "direct" |}]))
      (finditer query_pattern code) [] ;;
  St.foldM (fun m acc =>
    var_name <- St.lift (group_of 1 m) ;;
    g2 <- St.lift (group_of 2 m) ;;
    let prop_path := replace "?." "." g2 in
    if mem_str var_name not_entity_vars then St.ret acc
    else
      entity_type <- St.lift (_infer_entity_type code var_name) ;;
      normalized <- normalize_field_path prop_path ;;
      (if negb (eqb_str entity_type "unknown")
       then add_field_by_entity entity_type normalized
       else St.ret tt) ;;;
      St.ret (acc ++ [{| field := prop_path; normalized := normalized;
                         entity_type := entity_type;
                         access_method := "direct" |}]))
    (finditer prop_pattern code) access_patterns.

Definition _parse_destructuring (destruct_str : str) : list str :=
  fold_left (fun fields part =>
    let part := strip part in
    let field_name :=
      if contains ":" part then strip (hd [] (split ":" part))
      else strip part in
    match field_name with
    | [] => fields
    | _ => if startswith "{" field_name then fields
           else fields ++ [field_name]
    end)
    (split "," destruct_str) [].

(** [r'const\s*\{([^}]+)\}\s*=\s*(\w+)'] *)
Definition destruct_pattern : regex :=
  seq [Lit "const"; Star space; Chr "{"; Group 1 (Plus (none_of "}"));
       Chr "}"; Star space; Chr "="; Star space; Group 2 (Plus word)].

Definition extract_destructuring_patterns (code : str) : M (list field_access) :=
  St.foldM (fun m patterns =>
    fields_str <- St.lift (group_of 1 m) ;;
    source_var <- St.lift (group_of 2 m) ;;
    let fields := _parse_destructuring fields_str in
    entity_type <- St.lift (_infer_entity_type code source_var) ;;
    St.foldM (fun field_path acc =>
      normalized <- normalize_field_path field_path ;;
      (if negb (eqb_str entity_type "unknown")
       then add_field_by_entity entity_type normalized
       else St.ret tt) ;;;
      St.ret (acc ++ [{| field := field_path; normalized := normalized;
                         entity_type := entity_type;
                         access_method := "destructuring" |}]))
      fields patterns)
    (finditer destruct_pattern code) [].

(** The three [type_patterns] of [extract_entity_types]. *)
Definition type_patterns : list regex :=
  let tail := [Star space; Lit "==="; Star space; Cls quote;
               Group 1 (Plus word); Cls quote] in
  [seq (Lit "entity.type" :: tail);
   seq (Lit "type" :: tail);
   seq (Lit ".type" :: tail)].

Definition extract_entity_types (code : str) : M (list str) :=
  St.foldM (fun pattern types =>
    St.foldM (fun m types =>
      entity_type <- St.lift (group_of 1 m) ;;
      add_entity_types entity_type ;;;
      St.ret (set_add entity_type types))
      (finditer pattern code) types)
    type_patterns [].

(** [r'joinEntities.*?\((.*?)\)\s*=>\s*\(([\s\S]*?)\)'] *)
Definition join_pattern : regex :=
  seq [Lit "joinEntities"; StarLazy dot; Chr "("; Group 1 (StarLazy dot);
       Chr ")"; Star space; Lit "=>"; Star space; Chr "(";
       Group 2 (StarLazy any); Chr ")"].

(** [r'(\w+)\.type\s*===\s*[\'\x22`](\w+)[\'\x22`]'] *)
Definition rel_pattern : regex :=
  seq [Group 1 (Plus word); Lit ".type"; Star space; Lit "==="; Star space;
       Cls quote; Group 2 (Plus word); Cls quote].

(** [r'(\w+)\.(\w+)\s*===\s*(\w+)\.(\w+)'] *)
Definition key_pattern : regex :=
  seq [Group 1 (Plus word); Chr "."; Group 2 (Plus word); Star space;
       Lit "==="; Star space; Group 3 (Plus word); Chr ".";
       Group 4 (Plus word)].

Fixpoint mapR {A B} (f : A -> result B) (l : list A) : result (list B) :=
  match l with
  | [] => Ok []
  | x :: l' =>
      match f x, mapR f l' with
      | Ok y, Ok ys => Ok (y :: ys)
      | Raise e, _ => Raise e
      | _, Raise e => Raise e
      end
  end.

Definition detect_join_patterns (code : str) : result join_info_t :=
  if contains "joinEntities" code then
    match search join_pattern code with
    | Some m =>
        match group_of 2 m with
        | Ok condition =>
            match mapR (group_of 2) (finditer rel_pattern condition),
                  mapR (fun km =>
                          match group_of 1 km, group_of 2 km,
                                group_of 3 km, group_of 4 km with
                          | Ok a, Ok b, Ok c, Ok d =>
                              Ok (a ++ "." ++ b, c ++ "." ++ d)
                          | _, _, _, _ => Raise NoneGroup
                          end)
                       (finditer key_pattern condition) with
            | Ok ents, Ok conds =>
                Ok {| uses_join := true; join_conditions := conds;
                      joined_entities := ents |}
            | Raise e, _ => Raise e
            | _, Raise e => Raise e
            end
        | Raise e => Raise e
        end
    | None => Ok {| uses_join := true; join_conditions := [];
                    joined_entities := [] |}
    end
  else Ok {| uses_join := false; join_conditions := [];
             joined_entities := [] |}.

Definition is_some {A} (o : option A) : bool :=
  match o with Some _ => true | None => false end.

Definition analyze_return_pattern (code : str) : return_pattern_t :=
  if contains "return []" code || contains "return[];" code
  then {| rp_type := "empty_array"; rp_dynamic := false |}
  else if is_some (search
         (seq [Lit "return"; Star space; Chr "["; Star space; Chr "{";
               Star space; Lit "type"; Star space; Chr ":"; Star space;
               Cls (one_of quotes2); Lit "none"; Cls (one_of quotes2)]) code)
  then {| rp_type := "static_none"; rp_dynamic := false |}
  else if is_some (search
         (seq [Lit "return"; Star space; Chr "["; Star space; Chr "{";
               Star space; Lit "..."]) code)
  then {| rp_type := "spread_operator"; rp_dynamic := true |}
  else if is_some (search
         (seq [Lit "return"; StarLazy dot; Lit "ventureId"]) code)
  then {| rp_type := "venture_based"; rp_dynamic := true |}
  else {| rp_type := "dynamic"; rp_dynamic := true |}.

(** [calculate_complexity_score], on the keys of [analysis] it reads. *)
Definition calculate_complexity_score (ji : join_info_t)
  (all_fields entity_types : list str) (code_length : nat)
  (conditional_logic : bool) : complexity_t :=
  let step (c : bool) (n : nat) (f : str) (acc : nat * list str) :=
    if c then (fst acc + n, snd acc ++ [f]) else acc in
  let acc := (0, []) in
  let acc := step (uses_join ji) 3 ("uses_join_entities" : str) acc in
  let acc := step (10 <? length all_fields) 2 ("many_fields" : str) acc in
  let acc := step (1 <? length entity_types) 2 ("multiple_entities" : str) acc in
  let acc := step (1000 <? code_length) 2 ("long_code" : str) acc in
  let acc := step conditional_logic 1 ("complex_conditions" : str) acc in
  let score := fst acc in
  {| score := score;
     level := if score <=? 2 then "simple" : str
              else if score <=? 5 then "medium" : str else "complex" : str;
     factors := snd acc |}.

Definition analyze_synthesizer (name code : str) : M analysis :=
  entity_pick_fields <- extract_entity_pick_fields code ;;
  direct_access <- extract_direct_property_access code ;;
  destructured <- extract_destructuring_patterns code ;;
  let all_field_accesses := entity_pick_fields ++ direct_access ++ destructured in
  let all_fields :=
    fold_left (fun acc f => set_add (normalized f) acc) all_field_accesses [] in
  entity_types <- extract_entity_types code ;;
  join_info <- St.lift (detect_join_patterns code) ;;
  let conditional_logic := contains "if" code || contains "?" code in
  let analysis := {|
    name := name;
    entity_types := entity_types;
    all_fields := all_fields;
    field_accesses := all_field_accesses;
    join_info := join_info;
    return_pattern := analyze_return_pattern code;
    code_length := length code;
    conditional_logic := conditional_logic;
    uses_spread := contains "..." code;
    uses_optional_chaining := contains "?." code;
    complexity := calculate_complexity_score join_info all_fields
                    entity_types (length code) conditional_logic |} in
  append_results analysis ;;;
  St.ret analysis.

(** *** Aggregation *)

(** The initial [patterns] dictionary of [_identify_common_patterns]. *)
Definition empty_patterns : list (str * list (str * nat)) :=
  [("authentication" : str, []); ("billing" : str, []);
   ("features" : str, []); ("entitlements" : str, []);
   ("social_media" : str, []); ("commerce" : str, []);
   ("appointments" : str, []); ("content" : str, [])].

(** [patterns[k].append(x)] *)
Fixpoint dict_append {A} (k : str) (x : A) (d : list (str * list A))
  : list (str * list A) :=
  match d with
  | [] => []
  | (k', l) :: d' =>
      if eqb_str k k' then (k', l ++ [x]) :: d' else (k', l) :: dict_append k x d'
  end.

(** The [if]/[elif] chain of [_identify_common_patterns]: the key of
    the list that receives the field, if any. *)
Definition pattern_key (field : str) : option str :=
  if contains "billing" field || contains "payment" field
  then Some ("billing" : str)
  else if contains "entitlement" field || contains "current" field
  then Some ("entitlements" : str)
  else if contains "feature" field || contains "widget" field
  then Some ("features" : str)
  else if contains "facebook" field || contains "instagram" field
          || contains "social" field
  then Some ("social_media" : str)
  else if contains "product" field || contains "commerce" field
          || contains "ols" field
  then Some ("commerce" : str)
  else if contains "appointment" field || contains "ola" field
          || contains "service" field
  then Some ("appointments" : str)
  else if contains "account" field || contains "shopper" field
  then Some ("authentication" : str)
  else None.

Definition _identify_common_patterns (field_counter : list (str * nat))
  : list (str * list (str * nat)) :=
  let patterns :=
    fold_left (fun patterns fc =>
      match pattern_key (fst fc) with
      | Some k => dict_append k fc patterns
      | None => patterns
      end) field_counter empty_patterns in
  map (fun kv => (fst kv, firstn 5 (sorted_desc snd (snd kv)))) patterns.

Record summary_t := {
  total_synthesizers : nat;
  total_unique_fields : nat;
  total_entity_types : nat;
  summary_entity_types : list str;                    (* ['entity_types'] *)
  complexity_distribution : list (str * nat);
  return_patterns : list (str * nat)
}.

Record field_analysis_t := {
  most_used_fields : list (str * nat);
  fields_by_entity : list (str * list (str * nat));
  field_variations : list (str * list str);
  access_methods : list (str * nat);
  common_patterns : list (str * list (str * nat))
}.

Record relationship_t := {
  synthesizer : str;
  relationship : str * str;
  entities : list str
}.

Record report := {
  summary : summary_t;
  field_analysis : field_analysis_t;
  entity_relationships : list relationship_t;
  synthesizer_details : list analysis
}.

(** [Counter(iterable)] *)
Definition counter_of (l : list str) : list (str * nat) :=
  fold_left (fun c k => counter_incr k c) l [].

(** [c.most_common(n)] *)
Definition most_common (n : nat) (c : list (str * nat)) : list (str * nat) :=
  firstn n (sorted_desc snd c).

(** [d[k][f] += 1] for a [defaultdict(Counter)] *)
Fixpoint ddc_incr (k f : str) (d : list (str * list (str * nat)))
  : list (str * list (str * nat)) :=
  match d with
  | [] => [(k, [(f, 1)])]
  | (k', c) :: d' =>
      if eqb_str k k' then (k', counter_incr f c) :: d'
      else (k', c) :: ddc_incr k f d'
  end.

Definition _analyze_entity_relationships (self : analyzer) : list relationship_t :=
  flat_map (fun result =>
    if uses_join (join_info result)
    then map (fun condition =>
                {| synthesizer := name result;
                   relationship := condition;
                   entities := joined_entities (join_info result) |})
             (join_conditions (join_info result))
    else []) (self_results self).

Definition _get_complexity_distribution (self : analyzer) : list (str * nat) :=
  counter_of (map (fun r => level (complexity r)) (self_results self)).

Definition _get_return_pattern_distribution (self : analyzer) : list (str * nat) :=
  counter_of (map (fun r => rp_type (return_pattern r)) (self_results self)).

Definition all_accesses (results : list analysis) : list field_access :=
  flat_map field_accesses results.

Definition generate_comprehensive_report (self : analyzer) : report :=
  let accesses := all_accesses (self_results self) in
  let field_counter :=
    fold_left (fun c fa => counter_incr (normalized fa) c) accesses [] in
  let entity_field_map :=
    fold_left (fun d fa => ddc_incr (entity_type fa) (normalized fa) d)
              accesses [] in
  let access_method_stats :=
    fold_left (fun c fa => counter_incr (access_method fa) c) accesses [] in
  let common_patterns := _identify_common_patterns field_counter in
  {| summary := {|
       total_synthesizers := length (self_results self);
       total_unique_fields := length (self_all_fields self);
       total_entity_types := length (self_entity_types self);
       summary_entity_types := sorted_str (self_entity_types self);
       complexity_distribution := _get_complexity_distribution self;
       return_patterns := _get_return_pattern_distribution self |};
     field_analysis := {|
       most_used_fields := most_common 20 field_counter;
       fields_by_entity :=
         map (fun kv => (fst kv, most_common 10 (snd kv))) entity_field_map;
       field_variations := self_field_variations self;
       access_methods := access_method_stats;
       common_patterns := common_patterns |};
     entity_relationships := _analyze_entity_relationships self;
     synthesizer_details := self_results self |}.

(** *** [parse_rad_file], on the text read from the file *)

Definition fence_open : str := "```javascript".
Definition fence : str := "```".

(** The body of the loop over [sections[1:]]. *)
Definition parse_section (section : str) : option (str * str) :=
  match split nl (strip section) with
  | [] => None
  | line0 :: _ =>
      let name := strip line0 in
      let code_start := find fence_open section 0 in
      let code_end := find fence section (code_start + 1) in
      if negb (code_start =? -1)%Z && negb (code_end =? -1)%Z
      then Some (name, strip (slice section (code_start + 13) code_end))
      else None
  end.

Fixpoint filter_map {A B} (f : A -> option B) (l : list A) : list B :=
  match l with
  | [] => []
  | x :: l' =>
      match f x with
      | Some y => y :: filter_map f l'
      | None => filter_map f l'
      end
  end.

Definition parse_rad_file (content : str) : list (str * str) :=
  filter_map parse_section (tl (split "## " content)).

(** [main]: parse, analyze every synthesizer, build the report. *)
Definition run_main (content : str) : result report :=
  match St.foldM (fun nc (_ : unit) =>
                    St.bind (analyze_synthesizer (fst nc) (snd nc))
                            (fun _ => St.ret tt))
                 (parse_rad_file content) tt init with
  | Ok (_, self) => Ok (generate_comprehensive_report self)
  | Raise e => Raise e
  end.

(** *** [export_report], format ['markdown'] *)

Definition bullet_count (fc : str * nat) : str :=
  "- `" ++ fst fc ++ "`: " ++ str_of_nat (snd fc) ++ " times" ++ nl.

(** The categories that get a heading under "Common Data Access
    Patterns": those with a non-empty list, under their [title()]. *)
Definition pattern_blocks (common : list (str * list (str * nat)))
  : list (str * list (str * nat)) :=
  map (fun kv => (title (fst kv), snd kv))
      (filter (fun kv => match snd kv with [] => false | _ => true end) common).

Definition render_pattern_block (b : str * list (str * nat)) : str :=
  nl ++ "### " ++ fst b ++ nl ++ concat (map bullet_count (snd b)).

Definition common_patterns_section (r : report) : str :=
  "## Common Data Access Patterns" ++ nl
  ++ concat (map render_pattern_block
                 (pattern_blocks (common_patterns (field_analysis r)))).

Definition export_report_markdown (r : report) : str :=
  "# RAD Synthesizer Analysis Report" ++ nl ++ nl
  ++ "## Summary" ++ nl
  ++ "- Total Synthesizers: " ++ str_of_nat (total_synthesizers (summary r)) ++ nl
  ++ "- Unique Fields: " ++ str_of_nat (total_unique_fields (summary r)) ++ nl
  ++ "- Entity Types: " ++ join ", " (summary_entity_types (summary r)) ++ nl ++ nl
  ++ "### Complexity Distribution" ++ nl
  ++ concat (map (fun lc => "- " ++ fst lc ++ ": " ++ str_of_nat (snd lc) ++ nl)
                 (complexity_distribution (summary r)))
  ++ nl
  ++ "## Most Used Fields" ++ nl
  ++ concat (map bullet_count (most_used_fields (field_analysis r)))
  ++ nl
  ++ common_patterns_section r
  ++ match field_variations (field_analysis r) with
     | [] => []
     | fv =>
         nl ++ "## Field Access Variations" ++ nl
         ++ "Fields accessed in different ways:" ++ nl
         ++ concat (map (fun nv =>
               if 1 <? length (snd nv)
               then nl ++ "### " ++ fst nv ++ nl
                    ++ concat (map (fun v => "- `" ++ v ++ "`" ++ nl) (snd nv))
               else []) fv)
     end.

End RADFieldAnalyzer.

(** ** [analyze_unique_data_fields.py]: class [UniqueDataAnalyzer] *)

Definition kv (k v : str) : str * str := (k, v).

Module UniqueDataAnalyzer.

(** The [deep_mappings] table of [normalize_field_deeply]. *)
Definition deep_mappings : list (str * str) := [
    kv "accountId" "account.id";
    kv "wsbvnext.accountId" "account.id";
    kv "mktgasst.accountId" "account.id";
    kv "vnextAccount.shopperId" "account.shopperId";
    kv "id" "entity.id";
    kv "wsbvnext.id" "entity.id";
    kv "mktgasst.id" "entity.id";
    kv "type" "entity.type";
    kv "wsbvnext.type" "entity.type";
    kv "mktgasst.type" "entity.type";
    kv "vnextAccount.billing.commitment" "billing.commitment";
    kv "vnextAccount.billing.termType" "billing.termType";
    kv "vnextAccount.billing.autoRenew" "billing.autoRenew";
    kv "vnextAccount.account.paymentStatus" "billing.paymentStatus";
    kv "account.paymentStatus" "billing.paymentStatus";
    kv "features.websiteType" "website.type";
    kv "features.published" "website.isPublished";
    kv "features.widgets" "website.widgets";
    kv "features.planType" "account.planType";
    kv "features.userAddedLogo" "website.hasCustomLogo";
    kv "features.externalDomainName" "website.customDomain";
    kv "entitlementData" "entitlements.all";
    kv "entitlementData.current" "entitlements.current";
    kv "entitlementData.current.commerce" "entitlements.commerce";
    kv "entitlementData.current.blog" "entitlements.blog";
    kv "entitlementData.current.appointments" "entitlements.appointments";
    kv "entitlementData.current.conversations" "entitlements.conversations";
    kv ("entitlementData.current[" ++ [dquote] ++ "conversations.lite" ++ [dquote] ++ "]")
       "entitlements.conversationsLite";
    kv "entitlementData.transitionable" "entitlements.available";
    kv "entitlementData.used" "entitlements.used";
    kv "gem.subscriberCount" "email.subscriberCount";
    kv "gem.hasSent" "email.hasSentCampaign";
    kv "gem.lastFbPostDate" "social.lastFacebookPost";
    kv "gem.lastIgPostDate" "social.lastInstagramPost";
    kv "features.facebook.pageId" "social.facebookPageId";
    kv "features.facebook.isConnected" "social.facebookConnected";
    kv "features.instagram.isConnected" "social.instagramConnected";
    kv "features.gmb.hasGMBPublished" "social.googleBusinessPublished";
    kv "features.gmb.hasGMBStarted" "social.googleBusinessStarted";
    kv "features.gmb.hasGMBLocation" "social.googleBusinessLocation";
    kv "features.yelp.hasYelpPublished" "social.yelpPublished";
    kv "features.yelp.hasCompletedYelpFlow" "social.yelpCompleted";
    kv "ols.products.count" "commerce.productCount";
    kv "ols.setup_status" "commerce.setupStatus";
    kv "ols.store_status" "commerce.storeStatus";
    kv "ols.marketplace_data" "commerce.marketplaces";
    kv "ols.featured_products_with_images" "commerce.featuredProducts";
    kv "ols.payment_methods.available" "commerce.paymentMethods";
    kv "ols.features_enabled.product_reviews" "commerce.productReviewsEnabled";
    kv "ols.features_enabled.abandoned_cart" "commerce.abandonedCartEnabled";
    kv "ola.service.total" "appointments.serviceCount";
    kv "ola.account.status" "appointments.accountStatus";
    kv "ola.online_payment.status" "appointments.paymentStatus";
    kv "ola.calendar_sync.status" "appointments.calendarSyncStatus";
    kv "ola.facebook_booking.status" "appointments.facebookBookingStatus";
    kv "ola.notifications.c1_sms" "appointments.smsNotifications";
    kv "ola.account.has_business_address" "appointments.hasBusinessAddress";
    kv "customerIntentions" "customer.intentions";
    kv "wsbvnext.customerIntentions" "customer.intentions";
    kv "blog" "content.blogPosts";
    kv "contacts" "customer.contacts";
    kv "domainName" "website.domainName";
    kv "links.addSubscribers" "links.emailSubscribers";
    kv "links.composeCampaign" "links.emailCampaign";
    kv "links.blog" "links.blog";
    kv "links.editorDirect" "links.websiteEditor";
    kv "links.preview" "links.websitePreview";
    kv "request.query.ventureId" "context.ventureId";
    kv "request.query.appLocation" "context.appLocation";
    kv "vnextAccount.ventureId" "context.ventureId"
].

(** The loop [for original, normalized in deep_mappings.items()]. *)
Fixpoint first_equal (items : list (str * str)) (field : str) : option str :=
  match items with
  | [] => None
  | (original, normalized) :: items' =>
      if eqb_str field original then Some normalized
      else first_equal items' field
  end.

Definition normalize_field_deeply (field : str) : str :=
  let field := strip_chars quotes3 (strip field) in
  match first_equal deep_mappings field with
  | Some normalized => normalized
  | None =>
      if startswith "features." field then "website." ++ skipn 9 field
      else if startswith "vnextAccount." field then skipn 13 field
      else if startswith "wsbvnext." field then skipn 9 field
      else if startswith "mktgasst." field then skipn 9 field
      else field
  end.

(** [parts[1] if len(parts) > 1 else 'general'] *)
Definition second_or_general (parts : list str) : str :=
  match parts with
  | _ :: p1 :: _ => p1
  | _ => "general"
  end.

Definition categorize_field (normalized_field : str) : str * str :=
  let parts := split "." normalized_field in
  let p0 := hd [] parts in
  if mem_str p0 ["account" : str; "entity" : str]
  then ("Identity & Core Data" : str, p0)
  else if mem_str p0 ["billing" : str; "payment" : str]
  then ("Billing & Payments" : str, "billing" : str)
  else if eqb_str p0 "entitlements"
  then ("Entitlements & Permissions" : str, second_or_general parts)
  else if eqb_str p0 "website"
  then ("Website Configuration" : str, second_or_general parts)
  else if mem_str p0 ["email" : str; "social" : str]
  then ("Marketing & Social" : str, p0)
  else if eqb_str p0 "commerce"
  then ("E-commerce" : str, second_or_general parts)
  else if eqb_str p0 "appointments"
  then ("Appointments & Services" : str, second_or_general parts)
  else if eqb_str p0 "customer"
  then ("Customer Data" : str, second_or_general parts)
  else if eqb_str p0 "links"
  then ("Navigation Links" : str, second_or_general parts)
  else if eqb_str p0 "context"
  then ("Request Context" : str, second_or_general parts)
  else ("Other" : str, "uncategorized" : str).

Definition get_data_type (field : str) : str :=
  if contains_any ["Count" : str; "total" : str; "number" : str] field
  then "number"
  else if contains_any ["Date" : str; "date" : str; "Time" : str; "time" : str] field
  then "datetime"
  else if contains_any ["is" : str; "has" : str; "Enabled" : str;
                        "Connected" : str; "Published" : str] field
  then "boolean"
  else if contains_any ["Status" : str; "status" : str; "Type" : str; "type" : str] field
  then "enum"
  else if contains_any ["Id" : str; "id" : str; "ID" : str] field
  then "identifier"
  else if contains_any ["widgets" : str; "data" : str; "intentions" : str] field
  then "array/object"
  else "string".

(** The [descriptions] table of [generate_description]. *)
Definition descriptions : list (str * str) := [
    kv "account.id" "Unique identifier for the customer account";
    kv "entity.id" "Unique identifier for the entity (context-dependent)";
    kv "entity.type" "Type of entity (wsbvnext, mktgasst, etc.)";
    kv "account.shopperId" "GoDaddy shopper ID for the account";
    kv "account.planType" "Current subscription plan type";
    kv "billing.commitment"
       "Billing commitment period (monthly, annual, etc.)";
    kv "billing.termType" "Billing term type";
    kv "billing.autoRenew" "Whether auto-renewal is enabled";
    kv "billing.paymentStatus" "Current payment status";
    kv "website.type" "Type of website builder (gocentral, etc.)";
    kv "website.isPublished" "Whether the website is published and live";
    kv "website.widgets" "List of enabled website widgets/sections";
    kv "website.hasCustomLogo" "Whether user has uploaded a custom logo";
    kv "website.customDomain" "Custom domain name if configured";
    kv "website.domainName" "Primary domain name for the website";
    kv "entitlements.all" "Complete entitlement information";
    kv "entitlements.current" "Currently active entitlements";
    kv "entitlements.commerce" "E-commerce feature entitlement";
    kv "entitlements.blog" "Blog feature entitlement";
    kv "entitlements.appointments" "Appointments feature entitlement";
    kv "entitlements.conversations" "Chat/conversations entitlement";
    kv "entitlements.available" "Entitlements available for upgrade";
    kv "email.subscriberCount" "Number of email subscribers";
    kv "email.hasSentCampaign" "Whether any email campaign has been sent";
    kv "social.lastFacebookPost" "Date of most recent Facebook post";
    kv "social.lastInstagramPost" "Date of most recent Instagram post";
    kv "social.facebookPageId" "Connected Facebook page ID";
    kv "social.facebookConnected" "Whether Facebook is connected";
    kv "social.instagramConnected" "Whether Instagram is connected";
    kv "social.googleBusinessPublished"
       "Whether Google Business profile is published";
    kv "social.yelpPublished" "Whether Yelp listing is published";
    kv "commerce.productCount" "Number of products in online store";
    kv "commerce.setupStatus" "Store setup completion status";
    kv "commerce.storeStatus" "Current store operational status";
    kv "commerce.marketplaces" "Connected marketplace information";
    kv "commerce.paymentMethods" "Available payment methods";
    kv "commerce.productReviewsEnabled" "Whether product reviews are enabled";
    kv "commerce.abandonedCartEnabled"
       "Whether abandoned cart recovery is enabled";
    kv "appointments.serviceCount" "Number of bookable services";
    kv "appointments.accountStatus" "Appointment system account status";
    kv "appointments.paymentStatus" "Online payment setup status";
    kv "appointments.calendarSyncStatus" "Calendar synchronization status";
    kv "appointments.facebookBookingStatus"
       "Facebook appointment booking status";
    kv "customer.intentions" "Customer intent/goal information";
    kv "customer.contacts" "Customer contact list information";
    kv "context.ventureId" "Current venture/project ID";
    kv "context.appLocation" "Current application location/view"
].

Definition generate_description (field category : str) : str :=
  match lookup field descriptions with
  | Some d => d
  | None => category ++ " data field"
  end.

(** An entry of [self.all_fields]. *)
Record info := {
  raw_variations : list str;
  synthesizers : list str;
  entity_sources : list str;
  access_patterns : list str;
  category : str;
  subcategory : str;
  data_type : str;
  description : str
}.

(** The value the [defaultdict] makes for a new key. *)
Definition default_info : info := {|
  raw_variations := []; synthesizers := []; entity_sources := [];
  access_patterns := []; category := []; subcategory := [];
  data_type := []; description := []
|}.

(** [__init__] *)
Definition init : list (str * info) := [].

(** [self.all_fields[k] = f(self.all_fields[k])], a missing key being
    made first. *)
Fixpoint update_info (k : str) (f : info -> info) (d : list (str * info))
  : list (str * info) :=
  match d with
  | [] => [(k, f default_info)]
  | (k', i) :: d' =>
      if eqb_str k k' then (k', f i) :: d' else (k', i) :: update_info k f d'
  end.

(** The body of the inner loop of [analyze_report]. *)
Definition record_access (synth_name : str)
  (fa : RADFieldAnalyzer.field_access) (all_fields : list (str * info))
  : list (str * info) :=
  let raw_field := RADFieldAnalyzer.field fa in
  let normalized := normalize_field_deeply (RADFieldAnalyzer.normalized fa) in
  let entity_type := RADFieldAnalyzer.entity_type fa in
  let access_method := RADFieldAnalyzer.access_method fa in
  update_info normalized (fun i =>
    let cat := categorize_field normalized in
    let fresh := match category i with [] => true | _ => false end in
    {| raw_variations := set_add raw_field (raw_variations i);
       synthesizers := set_add synth_name (synthesizers i);
       entity_sources := set_add entity_type (entity_sources i);
       access_patterns := set_add access_method (access_patterns i);
       category := if fresh then fst cat else category i;
       subcategory := if fresh then snd cat else subcategory i;
       data_type := if fresh then get_data_type normalized else data_type i;
       description := if fresh then generate_description normalized (fst cat)
                      else description i |}) all_fields.

(** [analyze_report], on the report loaded from the JSON file. *)
Definition analyze_report (report : RADFieldAnalyzer.report)
  (all_fields : list (str * info)) : list (str * info) :=
  fold_left (fun d synth =>
    fold_left (fun d fa => record_access (RADFieldAnalyzer.name synth) fa d)
              (RADFieldAnalyzer.field_accesses synth) d)
    (RADFieldAnalyzer.synthesizer_details report) all_fields.

(** [categories[k].append(x)] for a [defaultdict(list)] *)
Fixpoint group_append {A} (k : str) (x : A) (d : list (str * list A))
  : list (str * list A) :=
  match d with
  | [] => [(k, [x])]
  | (k', l) :: d' =>
      if eqb_str k k' then (k', l ++ [x]) :: d' else (k', l) :: group_append k x d'
  end.

Definition used_by (fi : str * info) : nat := length (synthesizers (snd fi)).

Definition table_row (fi : str * info) : str :=
  "| `" ++ fst fi ++ "` | " ++ str_of_nat (used_by fi) ++ " RADs | "
  ++ category (snd fi) ++ " | " ++ data_type (snd fi) ++ " | "
  ++ description (snd fi) ++ " |" ++ nl.

Definition field_block (fi : str * info) : str :=
  let i := snd fi in
  let synth_count := length (synthesizers i) in
  let var_count := length (raw_variations i) in
  "### `" ++ fst fi ++ "`" ++ nl
  ++ "- **Description:** " ++ description i ++ nl
  ++ "- **Data Type:** " ++ data_type i ++ nl
  ++ "- **Used by:** " ++ str_of_nat synth_count ++ " synthesizers" ++ nl
  ++ (if 1 <? var_count
      then "- **Access Variations:** " ++ str_of_nat var_count
           ++ " different ways" ++ nl
           ++ (if var_count <=? 5
               then concat (map (fun v => "  - `" ++ v ++ "`" ++ nl)
                                (sorted_str (raw_variations i)))
               else [])
      else [])
  ++ (if synth_count <=? 5
      then "- **Used in:**" ++ nl
           ++ concat (map (fun s => "  - " ++ s ++ nl)
                          (sorted_str (synthesizers i)))
      else [])
  ++ nl.

Definition category_block (cf : str * list (str * info)) : str :=
  "## " ++ fst cf ++ nl ++ nl
  ++ "**" ++ str_of_nat (length (snd cf))
  ++ " unique data fields** used by synthesizers:" ++ nl ++ nl
  ++ concat (map field_block (sorted_desc used_by (snd cf))).

Definition generate_unique_data_report (all_fields : list (str * info)) : str :=
  let total_unique := length all_fields in
  let all_synths :=
    fold_left (fun acc fi => fold_left (fun acc s => set_add s acc)
                                       (synthesizers (snd fi)) acc)
              all_fields [] in
  let sorted_fields := sorted_desc used_by all_fields in
  let categories :=
    fold_left (fun d fi => group_append (category (snd fi)) fi d)
              all_fields [] in
  let category_usage (cf : str * list (str * info)) :=
    list_sum (map used_by (snd cf)) in
  let sorted_categories := sorted_desc category_usage categories in
  "# Complete Unique Data Fields Used by RAD Synthesizers" ++ nl ++ nl
  ++ "## Summary" ++ nl ++ nl
  ++ "- **Total Unique Data Fields:** " ++ str_of_nat total_unique ++ nl
  ++ "- **Total Synthesizers:** " ++ str_of_nat (length all_synths) ++ nl ++ nl
  ++ "## Top 20 Most Commonly Used Data" ++ nl ++ nl
  ++ "| Data Field | Used By | Category | Type | Description |" ++ nl
  ++ "|------------|---------|----------|------|-------------|" ++ nl
  ++ concat (map table_row (firstn 20 sorted_fields))
  ++ nl
  ++ concat (map category_block sorted_categories).

End UniqueDataAnalyzer.

(** ** [generate_data_dictionary.py]: class [DataDictionaryGenerator] *)

Module DataDictionaryGenerator.

Definition _categorize_field (field : str) : str :=
  let field_lower := lower field in
  if contains_any ["account" : str; "shopper" : str; "id" : str] field_lower
  then "Identity & Authentication"
  else if contains_any ["billing" : str; "payment" : str; "commitment" : str;
                        "autorenew" : str] field_lower
  then "Billing & Payments"
  else if contains_any ["entitlement" : str; "current" : str;
                        "transitionable" : str] field_lower
  then "Entitlements & Permissions"
  else if contains_any ["feature" : str; "widget" : str; "published" : str]
                       field_lower
  then "Features & Configuration"
  else if contains_any ["facebook" : str; "instagram" : str; "social" : str;
                        "gem" : str] field_lower
  then "Social Media & Marketing"
  else if contains_any ["product" : str; "commerce" : str; "ols" : str;
                        "marketplace" : str] field_lower
  then "Commerce & Products"
  else if contains_any ["appointment" : str; "ola" : str; "service" : str;
                        "calendar" : str] field_lower
  then "Appointments & Services"
  else if contains_any ["type" : str; "status" : str] field_lower
  then "Status & Types"
  else "Other".

End DataDictionaryGenerator.

(** ** Python floats, for the percentages and averages of the summary

    A [float] is a binary64 number; the primitive operations round as
    Python's do.  Counts are converted exactly (they stay far below
    [2^53]). *)

Module PyFloat.

Definition of_nat (n : nat) : PrimFloat.float :=
  PrimFloat.of_uint63 (Uint63.of_Z (Z.of_nat n)).

(** [a / b] for two [int]s *)
Definition true_div (a b : nat) : result PrimFloat.float :=
  if b =? 0 then Raise ZeroDivisionError
  else Ok (PrimFloat.div (of_nat a) (of_nat b)).

(** [x * n] for a [float] and an [int] *)
Definition mul_nat (x : PrimFloat.float) (n : nat) : PrimFloat.float :=
  PrimFloat.mul x (of_nat n).

(** The exact value of a finite float: sign, and [m * 2^e]. *)
Definition exact (x : PrimFloat.float) : option (bool * Z * Z) :=
  match FloatOps.Prim2SF x with
  | SpecFloat.S754_zero s => Some (s, 0%Z, 0%Z)
  | SpecFloat.S754_finite s m e => Some (s, Zpos m, e)
  | _ => None
  end.

(** [int(x)]: towards zero. *)
Definition int (x : PrimFloat.float) : result Z :=
  match exact x with
  | Some (s, m, e) =>
      let a := if (0 <=? e)%Z then (m * 2 ^ e)%Z else (m / 2 ^ (- e))%Z in
      Ok (if s then (- a)%Z else a)
  | None => Raise OverflowError
  end.

(** Nearest integer to [num / den], ties to even. *)
Definition round_half_even (num den : Z) : Z :=
  let d := (num / den)%Z in
  let r := (num mod den)%Z in
  if (2 * r <? den)%Z then d
  else if (den <? 2 * r)%Z then (d + 1)%Z
  else if Z.even d then d else (d + 1)%Z.

Definition zeros (n : nat) : str := repeat "0"%char n.

(** [format(x, '.{digits}f')] *)
Definition format_f (digits : nat) (x : PrimFloat.float) : str :=
  match exact x with
  | Some (s, m, e) =>
      let scale := (10 ^ Z.of_nat digits)%Z in
      let q := if (0 <=? e)%Z then (m * 2 ^ e * scale)%Z
               else round_half_even (m * scale) (2 ^ (- e)) in
      let ds := str_of_nat (Z.to_nat q) in
      let ds := zeros (S digits - length ds) ++ ds in
      let ip := firstn (length ds - digits) ds in
      let fp := skipn (length ds - digits) ds in
      (if s then "-" : str else [])
      ++ ip ++ (match digits with O => [] | _ => "." ++ fp end)
  | None =>
      if PrimFloat.is_nan x then "nan"
      else if PrimFloat.ltb x PrimFloat.zero then "-inf" else "inf"
  end.

(** [format(s, '>{width}')] and [format(s, '<{width}')] *)
Definition rjust (width : nat) (s : str) : str :=
  repeat " "%char (width - length s) ++ s.
Definition ljust (width : nat) (s : str) : str :=
  s ++ repeat " "%char (width - length s).

End PyFloat.

(** ** [create_data_summary.py]

    The icons and the bar character of the output lie outside the code
    points of [str]; they stand here as the bytes of their UTF-8
    encoding.  The script only concatenates them.  Where the script
    walks a [set], the order taken here is that of insertion. *)

Module DataSummary.
Import RADFieldAnalyzer.

(** The [if]/[elif] chain under "Better categorization". *)
Definition categorize (field : str) : str :=
  if contains "account" (lower field) || mem_str field ["id" : str; "type" : str]
  then "Core Identity"
  else if contains_any ["billing" : str; "payment" : str; "commitment" : str;
                        "autoRenew" : str] field
  then "Billing & Payments"
  else if contains_any ["entitlement" : str; "current." : str] field
  then "Feature Entitlements"
  else if contains_any ["website" : str; "published" : str; "widget" : str;
                        "domain" : str] field
  then "Website Settings"
  else if contains_any ["facebook" : str; "instagram" : str; "social" : str;
                        "gem" : str; "email" : str] field
  then "Marketing & Social"
  else if contains_any ["product" : str; "commerce" : str; "ols" : str;
                        "marketplace" : str] field
  then "E-commerce"
  else if contains_any ["appointment" : str; "ola" : str; "service" : str;
                        "calendar" : str] field
  then "Appointments"
  else if contains_any ["customer" : str; "contact" : str; "intention" : str] field
  then "Customer Data"
  else if startswith "links." field
  then "Navigation Links"
  else "Other Data".

(** What the first loop collects. *)
Record usage := {
  field_usage : list (str * nat);
  field_categories : list (str * list str);
  field_entity_map : list (str * list str)
}.

Definition collect (report : report) : usage :=
  fold_left (fun u fa =>
    let field := normalized fa in
    {| field_usage := counter_incr field (field_usage u);
       field_entity_map := dd_add field (entity_type fa) (field_entity_map u);
       field_categories := dd_add (categorize field) field (field_categories u) |})
    (all_accesses (synthesizer_details report))
    {| field_usage := []; field_categories := []; field_entity_map := [] |}.

(** [max(values)] *)
Definition max_of (values : list nat) : result nat :=
  match values with
  | [] => Raise ValueError
  | v :: vs => Ok (fold_left Nat.max vs v)
  end.

(** [c[k]] for a [Counter] *)
Definition count_of (k : str) (c : list (str * nat)) : nat :=
  match lookup k c with Some n => n | None => 0 end.

Definition bind {A B} (r : result A) (f : A -> result B) : result B :=
  match r with Ok a => f a | Raise e => Raise e end.

Fixpoint concat_mapR {A} (f : A -> result str) (l : list A) : result str :=
  match l with
  | [] => Ok []
  | x :: l' =>
      bind (f x) (fun s => bind (concat_mapR f l') (fun t => Ok (s ++ t)))
  end.

Definition bar_char : str := "█".

(** One line of the bar chart. *)
Definition bar_line (synthesizer_count max_count : nat) (fc : str * nat)
  : result str :=
  let (field, count) := fc in
  bind (PyFloat.true_div count synthesizer_count) (fun q =>
  let percentage := PyFloat.mul_nat q 100 in
  bind (PyFloat.true_div count max_count) (fun q' =>
  bind (PyFloat.int (PyFloat.mul_nat q' 40)) (fun bar_length =>
  let bar := concat (repeat bar_char (Z.to_nat bar_length)) in
  Ok (PyFloat.ljust 35 field ++ " " ++ bar ++ " "
      ++ PyFloat.rjust 3 (str_of_nat count) ++ " ("
      ++ PyFloat.rjust 3 (PyFloat.format_f 0 percentage) ++ "%)" ++ nl)))).

Definition category_icons : list (str * str) := [
  kv "Core Identity" "🔑";
  kv "Billing & Payments" "💳";
  kv "Feature Entitlements" "🎫";
  kv "Website Settings" "🌐";
  kv "Marketing & Social" "📱";
  kv "E-commerce" "🛒";
  kv "Appointments" "📅";
  kv "Customer Data" "👤";
  kv "Navigation Links" "🔗";
  kv "Other Data" "📦"
].

(** One entry of [category_usage]: the category, [len(fields)] and the
    total of their uses. *)
Definition category_usage (u : usage) : list (str * (nat * nat)) :=
  map (fun cf =>
         (fst cf, (length (snd cf),
                   list_sum (map (fun f => count_of f (field_usage u)) (snd cf)))))
      (field_categories u).

Definition category_section (u : usage) (c : str * (nat * nat)) : result str :=
  let '(category, (field_count, total_usage)) := c in
  let icon := match lookup category category_icons with
              | Some i => i
              | None => "📄" : str
              end in
  bind (if 0 <? field_count
        then bind (PyFloat.true_div total_usage field_count)
                  (fun a => Ok (PyFloat.format_f 1 a))
        else Ok (PyFloat.format_f 1 (PyFloat.of_nat 0))) (fun avg_usage =>
  let fields := match lookup category (field_categories u) with
                | Some fs => fs
                | None => []
                end in
  let cat_fields :=
    sorted_desc snd (map (fun f => (f, count_of f (field_usage u))) fields) in
  Ok ("### " ++ icon ++ " " ++ category ++ nl
      ++ "- **" ++ str_of_nat field_count ++ " unique fields** | **"
      ++ str_of_nat total_usage ++ " total uses** | **"
      ++ avg_usage ++ " avg uses/field**" ++ nl ++ nl
      ++ "| Field | Usage | Synthesizers |" ++ nl
      ++ "|-------|-------|-------------|" ++ nl
      ++ concat (map (fun fc =>
           let entities :=
             join ", " (sorted_str
               (match lookup (fst fc) (field_entity_map u) with
                | Some es => es
                | None => []
                end)) in
           "| `" ++ fst fc ++ "` | " ++ str_of_nat (snd fc) ++ " | "
           ++ entities ++ " |" ++ nl) (firstn 5 cat_fields))
      ++ (if 5 <? length cat_fields
          then "| ... +" ++ str_of_nat (length cat_fields - 5)
               ++ " more fields | | |" ++ nl
          else [])
      ++ nl)).

(** The [patterns] dictionary of field combinations. *)
Definition patterns : list (str * list str) := [
  ("Basic Website Info" : str,
   ["accountId" : str; "features.published" : str; "features.websiteType" : str]);
  ("E-commerce Setup" : str,
   ["accountId" : str; "entitlementData" : str; "ols.products.count" : str;
    "links.olsAddProducts" : str]);
  ("Social Media" : str,
   ["accountId" : str; "features.facebook.pageId" : str;
    "gem.lastFbPostDate" : str; "gem.lastIgPostDate" : str]);
  ("Appointments" : str,
   ["accountId" : str; "ola.service.total" : str; "ola.account.status" : str;
    "entitlementData" : str]);
  ("Billing Check" : str,
   ["accountId" : str; "vnextAccount.billing.commitment" : str;
    "vnextAccount.account.paymentStatus" : str]);
  ("Marketing Email" : str,
   ["accountId" : str; "gem.subscriberCount" : str; "gem.hasSent" : str;
    "links.composeCampaign" : str])
].

(** [synth_fields]: per synthesizer name, the set of its fields. *)
Definition synth_fields (report : report) : list (str * list str) :=
  fold_left (fun d synth =>
    fold_left (fun d fa => dd_add (name synth) (normalized fa) d)
              (field_accesses synth) d)
    (synthesizer_details report) [].

Definition pattern_section (sf : list (str * list str)) (p : str * list str)
  : str :=
  let matching_synths :=
    map fst (filter (fun s => forallb (fun f => mem_str f (snd s)) (snd p)) sf) in
  match matching_synths with
  | [] => []
  | _ =>
      "### " ++ fst p ++ nl
      ++ "**" ++ str_of_nat (length matching_synths)
      ++ " synthesizers** use this data combination:" ++ nl
      ++ "- Fields: "
      ++ join ", " (map (fun f => "`" ++ f ++ "`") (sorted_str (snd p))) ++ nl
      ++ "- Examples: " ++ join ", " (firstn 3 matching_synths)
      ++ (if 3 <? length matching_synths
          then " (+" ++ str_of_nat (length matching_synths - 3) ++ " more)"
          else [])
      ++ nl ++ nl
  end.

(** [enumerate(l)] *)
Fixpoint enumerate_from {A} (i : nat) (l : list A) : list (nat * A) :=
  match l with
  | [] => []
  | x :: l' => (i, x) :: enumerate_from (S i) l'
  end.

Definition shared_node (ifc : nat * (str * nat)) : str :=
  let '(i, (field, count)) := ifc in
  "    F" ++ str_of_nat i ++ "[" ++ [dquote] ++ field ++ "<br/>"
  ++ str_of_nat count ++ " uses" ++ [dquote] ++ "]" ++ nl
  ++ "    style F" ++ str_of_nat i ++ " fill:#"
  ++ (if 50 <? count then "ff6b6b" : str
      else if 20 <? count then "4ecdc4" : str else "95e1d3" : str)
  ++ nl.

(** [create_visual_summary], on the report loaded from the JSON file. *)
Definition create_visual_summary (report : report) : result str :=
  let u := collect report in
  let synthesizer_count := length (synthesizer_details report) in
  let output :=
    "# RAD Data Usage - Visual Summary" ++ nl ++ nl
    ++ "Analyzing **" ++ str_of_nat synthesizer_count
    ++ " synthesizers** using **" ++ str_of_nat (length (field_usage u))
    ++ " unique data fields**" ++ nl ++ nl
    ++ "## 📊 Most Commonly Used Data" ++ nl ++ nl
    ++ "```" ++ nl in
  bind (max_of (map snd (field_usage u))) (fun max_count =>
  bind (concat_mapR (bar_line synthesizer_count max_count)
                    (most_common 20 (field_usage u))) (fun bars =>
  let output := output ++ bars ++ "```" ++ nl ++ nl
                ++ "## 📂 Data Categories Overview" ++ nl ++ nl in
  let sorted_cats := sorted_desc (fun c => snd (snd c)) (category_usage u) in
  bind (concat_mapR (category_section u) sorted_cats) (fun cats =>
  let output := output ++ cats
                ++ "## 🔄 Common Data Access Patterns" ++ nl ++ nl
                ++ concat (map (pattern_section (synth_fields report)) patterns)
                ++ "## 🔗 Most Shared Data Fields" ++ nl ++ nl
                ++ "Fields used by 10+ synthesizers (strong indicators of core data):"
                ++ nl ++ nl in
  let shared_fields :=
    sorted_desc snd (filter (fun fc => 10 <=? snd fc) (field_usage u)) in
  let output := output ++ "```mermaid" ++ nl ++ "graph LR" ++ nl
                ++ concat (map shared_node
                               (enumerate_from 0 (firstn 10 shared_fields)))
                ++ "```" ++ nl ++ nl
                ++ "## 💡 Key Insights" ++ nl ++ nl in
  (* [c > synthesizer_count * 0.5], exact on counts: [2 * c > count] *)
  let critical_fields :=
    map fst (filter (fun fc => synthesizer_count <? 2 * snd fc) (field_usage u)) in
  bind (match critical_fields with
        | [] => Ok []
        | _ =>
            bind (concat_mapR (fun field =>
                    bind (PyFloat.true_div (count_of field (field_usage u))
                                           synthesizer_count) (fun q =>
                    Ok ("- `" ++ field ++ "` - "
                        ++ PyFloat.format_f 0 (PyFloat.mul_nat q 100)
                        ++ "% of synthesizers" ++ nl)))
                    (sorted_str critical_fields)) (fun lines =>
            Ok ("### Critical Data (used by >50% of synthesizers)" ++ nl
                ++ lines ++ nl))
        end) (fun critical =>
  let rare_fields := filter (fun fc => snd fc =? 1) (field_usage u) in
  let rare :=
    match rare_fields with
    | [] => []
    | _ => "### Rarely Used Data (" ++ str_of_nat (length rare_fields)
           ++ " fields used by only 1 synthesizer)" ++ nl
           ++ "Consider if these are still needed or can be consolidated."
           ++ nl ++ nl
    end in
  let high_variation :=
    map (fun fv => (fst fv, length (snd fv)))
        (filter (fun fv => 2 <? length (snd fv))
                (field_variations (field_analysis report))) in
  let high :=
    match high_variation with
    | [] => []
    | _ => "### Fields with Multiple Access Patterns" ++ nl
           ++ "These fields are accessed inconsistently and should be standardized:"
           ++ nl
           ++ concat (map (fun fv =>
                "- `" ++ fst fv ++ "` - " ++ str_of_nat (snd fv)
                ++ " different access patterns" ++ nl)
                (firstn 5 (sorted_desc snd high_variation)))
    end in
  Ok (output ++ critical ++ rare ++ high))))).

End DataSummary.

(** ** [extract_fields_rad_use.py]: the JavaScript class [RADAnalyzer]

    JavaScript's [\s] and [\w] differ from Python's: [\w] is
    [[A-Za-z0-9_]], and below 256 [\s] is TAB..CR, SPACE and NBSP. *)

Module RADAnalyzer.
Import Re.

Definition js_space (c : ascii) : bool :=
  between 9 13 c || (code c =? 32) || (code c =? 160).
Definition js_word (c : ascii) : bool :=
  is_ascii_alpha c || is_digit c || (code c =? 95).

(** [/entityPick\s*\(\s*\w+\s*,\s*\[([\s\S]*?)\]\s*\)/g] *)
Definition entityPickRegex : regex :=
  seq [Lit "entityPick"; Star js_space; Chr "("; Star js_space;
       Plus js_word; Star js_space; Chr ","; Star js_space; Chr "[";
       Group 1 (StarLazy any); Chr "]"; Star js_space; Chr ")"].

(** [/['\x22`]([^'\x22`]+)['\x22`]/g] *)
Definition fieldRegex : regex :=
  seq [Cls (one_of quotes3); Group 1 (Plus (none_of quotes3));
       Cls (one_of quotes3)].

(** [field.replace(/['\x22`]/g, '')] *)
Definition cleanField (field : str) : str :=
  filter (none_of quotes3) field.

(** [extractEntityPickFields(code)]: the [fields] returned, and the
    set [this.allFields] after the call. *)
Definition extractEntityPickFields (code : str) (allFields : list str)
  : list str * list str :=
  fold_left (fun acc m =>
    match group 1 (m_groups m) with
    | Some fieldsStr =>
        fold_left (fun acc fm =>
          let clean := cleanField (m_text fm) in
          (fst acc ++ [clean], set_add clean (snd acc)))
          (finditer fieldRegex fieldsStr) acc
    | None => acc
    end)
    (finditer entityPickRegex code) ([], allFields).

End RADAnalyzer.

From Stdlib Require Import Permutation Sorted.


(** ** [graphql-to-mermaid-python.py]: the simple format of
    [convert_to_mermaid] *)

Module Convert.

(** A value of a row of [csv.DictReader] under a column name: the column
    is not in the file, the row is too short to have it ([None]), or a
    string. *)
Inductive cell := Absent | Blank | Text (s : str).

Record row := {
  rad_name_cell : cell;       (* CONFIG['rad_name_column'] *)
  rad_id_cell : cell;         (* CONFIG['rad_id_column'] *)
  query_cell : cell           (* CONFIG['query_column'] *)
}.

(** [row.get(column, default)]; [None] is Python's [None]. *)
Definition get (c : cell) (default : option str) : option str :=
  match c with
  | Absent => default
  | Blank => None
  | Text s => Some s
  end.

(** [if x:] for [None] or a string *)
Definition truthy (x : option str) : bool :=
  match x with
  | Some (_ :: _) => true
  | _ => false
  end.

(** [f'{x}'] for [None] or a string *)
Definition fmt (x : option str) : str :=
  match x with
  | Some s => s
  | None => "None"
  end.

(** The loop that builds [simple_format]; [index] is the one of
    [enumerate(rows)]. *)
Fixpoint simple_format_go (index : nat) (rows : list row) (simple_format : str)
  : str :=
  match rows with
  | [] => simple_format
  | row :: rows' =>
      let rad_name :=
        get (rad_name_cell row) (Some ("Query_" ++ str_of_nat (index + 1))) in
      let rad_id := get (rad_id_cell row) (Some []) in
      let query_content := get (query_cell row) None in
      let simple_format :=
        if truthy query_content then
          let pure_graphql := Mermaid.extract_pure_graphql query_content in
          if truthy pure_graphql then
            let title := if truthy rad_id then Some (fmt rad_id) else rad_name in
            simple_format ++ "## " ++ fmt title ++ nl ++ nl
            ++ "```javascript" ++ nl
            ++ fmt pure_graphql
            ++ nl ++ "```" ++ nl ++ nl
          else simple_format
        else simple_format in
      simple_format_go (S index) rows' simple_format
  end.

Definition simple_format (rows : list row) : str :=
  simple_format_go 0 rows ("# RAD Queries" ++ nl ++ nl).

(** [re.sub(r'\s+', ' ', s)]: every maximal run of white space becomes
    one space; [in_run] tells that the run has been replaced already. *)
Fixpoint sub_spaces (s : str) (in_run : bool) : str :=
  match s with
  | [] => []
  | c :: s' =>
      if is_space c
      then if in_run then sub_spaces s' true
           else " "%char :: sub_spaces s' true
      else c :: sub_spaces s' false
  end.

(** [format_graphql_for_mermaid(graphql)] *)
Definition format_graphql_for_mermaid (graphql : option str) : str :=
  match graphql with
  | None => []
  | Some [] => []
  | Some graphql =>
      let formatted := replace [dquote] ["\"%char; dquote] graphql in
      let formatted := replace nl "<br/>" formatted in
      let formatted := sub_spaces formatted false in
      strip formatted
  end.

End Convert.


(** ** [visualize_rad_patterns.py]: class [RADPatternVisualizer] *)

Module RADPatternVisualizer.
Import RADFieldAnalyzer.

(** [get_total_field_accesses], on the report loaded from the JSON
    file. *)
Definition get_total_field_accesses (self_report : report) : nat :=
  fold_left (fun total fc => total + snd fc)
            (most_used_fields (field_analysis self_report)) 0.

End RADPatternVisualizer.

(** ** [consolidated_data_list.py] *)

Module ConsolidatedList.

(** The category and the subcategory that the loop over
    [unique_fields.items()] gives to a field. *)
Definition categorize (field : str) : str * str :=
  if mem_str field ["accountId" : str; "id" : str; "type" : str]
     || contains "accountId" field || contains ".id" field
     || contains ".type" field
  then ("1. Core Identity & References" : str,
        if contains "accountId" field then "Account IDs" : str
        else if eqb_str field "id" || contains ".id" field
        then "Entity IDs" : str
        else if eqb_str field "type" || contains ".type" field
        then "Entity Types" : str
        else "Other Identity" : str)
  else if contains "entitlement" (lower field)
          || startswith "entitlementData" field
  then ("2. Entitlements & Permissions" : str,
        if contains ".current" field then "Current Entitlements" : str
        else if contains ".transitionable" field || contains ".available" field
        then "Available Entitlements" : str
        else "General Entitlements" : str)
  else if contains_any ["billing" : str; "payment" : str; "commitment" : str;
                        "autoRenew" : str; "shopperId" : str] field
  then ("3. Billing & Account Management" : str, "Billing Details" : str)
  else if contains_any ["website" : str; "published" : str; "widget" : str;
                        "domain" : str; "features." : str] field
  then ("4. Website Configuration" : str,
        if contains "widget" field then "Widgets & Features" : str
        else if contains "published" field then "Publishing Status" : str
        else if contains "websiteType" field then "Website Type" : str
        else "Other Settings" : str)
  else if contains_any ["facebook" : str; "instagram" : str; "social" : str;
                        "gem" : str; "email" : str; "subscriber" : str] field
  then ("5. Marketing & Social Media" : str,
        if contains "facebook" field then "Facebook" : str
        else if contains "instagram" field then "Instagram" : str
        else if contains "gem" field || contains "email" field
                || contains "subscriber" field
        then "Email Marketing" : str
        else if contains "gmb" field then "Google Business" : str
        else if contains "yelp" field then "Yelp" : str
        else "Other Social" : str)
  else if contains_any ["product" : str; "commerce" : str; "ols" : str;
                        "marketplace" : str; "store" : str] field
  then ("6. E-commerce" : str,
        if contains "product" field then "Products" : str
        else if contains "marketplace" field then "Marketplaces" : str
        else "Store Settings" : str)
  else if contains_any ["appointment" : str; "ola" : str; "service" : str;
                        "calendar" : str; "booking" : str] field
  then ("7. Appointments & Services" : str,
        if contains "service" field then "Services" : str
        else if contains "calendar" field || contains "booking" field
        then "Scheduling" : str
        else "General Appointments" : str)
  else if startswith "links." field
  then ("8. Navigation & Links" : str, "Action Links" : str)
  else if contains_any ["customer" : str; "contact" : str; "intention" : str] field
  then ("9. Customer Data" : str, "Customer Info" : str)
  else ("10. Other Data" : str, "Miscellaneous" : str).

End ConsolidatedList.

(** ** [generate_data_dictionary.py]: [build_dictionary] *)

Module DictionaryBuilder.

(** The [descriptions] table of [_describe_field]. *)
Definition descriptions : list (str * str) := [
  kv "accountId" "Unique identifier for the account";
  kv "id" "Entity unique identifier";
  kv "type" "Entity type identifier (e.g., wsbvnext, mktgasst)";
  kv "entitlementData" "Complete entitlement information for the account";
  kv "entitlements.current" "Currently active entitlements";
  kv "websiteType" "Type of website (e.g., gocentral)";
  kv "features.published" "Whether the website is published";
  kv "features.widgets" "List of enabled widgets on the website";
  kv "billing.commitment" "Billing commitment type";
  kv "account.paymentStatus" "Current payment status of the account";
  kv "social.lastFacebookPost" "Date of last Facebook post";
  kv "social.lastInstagramPost" "Date of last Instagram post";
  kv "commerce.productCount" "Number of products in the commerce store";
  kv "appointments.serviceCount"
     "Number of services available for appointments";
  kv "appointments.status" "Status of the appointments system";
  kv "customerIntentions" "Customer intent data for personalization";
  kv "features.planType" "Type of plan the customer is on"
].

(** [_describe_field] *)
Definition _describe_field (field : str) : str :=
  match lookup field descriptions with
  | Some d => d
  | None => "Data field: " ++ field
  end.

(** An entry of [self.data_dictionary]. *)
Record entry := {
  description : str;
  entity_types : list str;
  used_by_synthesizers : list str;
  access_methods : list str;
  variations : list str;
  category : str
}.

(** The value the [defaultdict] makes for a new key. *)
Definition default_entry : entry := {|
  description := []; entity_types := []; used_by_synthesizers := [];
  access_methods := []; variations := []; category := []
|}.

(** [self.data_dictionary[k] = f(self.data_dictionary[k])], a missing
    key being made first. *)
Fixpoint update_entry (k : str) (f : entry -> entry) (d : list (str * entry))
  : list (str * entry) :=
  match d with
  | [] => [(k, f default_entry)]
  | (k', e) :: d' =>
      if eqb_str k k' then (k', f e) :: d' else (k', e) :: update_entry k f d'
  end.

(** The body of the inner loop of [build_dictionary]. *)
Definition record_access (synth_name : str)
  (field_access : RADFieldAnalyzer.field_access) (d : list (str * entry))
  : list (str * entry) :=
  let field := RADFieldAnalyzer.normalized field_access in
  let original := RADFieldAnalyzer.field field_access in
  let entity_type := RADFieldAnalyzer.entity_type field_access in
  let method := RADFieldAnalyzer.access_method field_access in
  update_entry field (fun e =>
    {| entity_types := set_add entity_type (entity_types e);
       used_by_synthesizers := used_by_synthesizers e ++ [synth_name];
       access_methods := set_add method (access_methods e);
       variations := set_add original (variations e);
       category := match category e with
                   | [] => DataDictionaryGenerator._categorize_field field
                   | _ => category e
                   end;
       description := match description e with
                      | [] => _describe_field field
                      | _ => description e
                      end |}) d.

(** [build_dictionary], on the report given to [__init__]; the
    dictionary is empty before. *)
Definition build_dictionary (report : RADFieldAnalyzer.report)
  : list (str * entry) :=
  fold_left (fun d synth =>
    fold_left (fun d fa => record_access (RADFieldAnalyzer.name synth) fa d)
              (RADFieldAnalyzer.field_accesses synth) d)
    (RADFieldAnalyzer.synthesizer_details report) [].

End DictionaryBuilder.

(** * Definitions used to state the properties *)

Module Aux.
Import RADFieldAnalyzer.

(** The value [normalize_field_path] returns and the state it leaves;
    the value does not depend on the state. *)
Definition path_value (field : str) : str :=
  let field := strip_chars quotes3 (strip field) in
  match first_prefix normalizations field with
  | Some (old, new) => replace1 old new field
  | None => field
  end.

Definition path_state (field : str) (st : analyzer) : analyzer :=
  let field := strip_chars quotes3 (strip field) in
  match first_prefix normalizations field with
  | Some (old, new) =>
      {| self_results := self_results st;
         self_all_fields := self_all_fields st;
         self_entity_types := self_entity_types st;
         self_field_variations := dd_add new field (self_field_variations st);
         self_field_by_entity := self_field_by_entity st |}
  | None => st
  end.

(** A categorization rule: a test on the field and the category it
    gives.  [first_match] is the category of the first rule, in the
    order of the list, whose test the field passes. *)
Definition rule : Type := (str -> bool) * str.

Definition first_match (rules : list rule) (default field : str) : str :=
  match List.find (fun r => fst r field) rules with
  | Some r => snd r
  | None => default
  end.

(** The keyword table of [_categorize_field], tested on the lowered
    field. *)
Definition dictionary_rules : list rule :=
  map (fun kc : list str * str =>
         ((fun field => contains_any (fst kc) (lower field)), snd kc))
  [(["account" : str; "shopper" : str; "id" : str],
    "Identity & Authentication" : str);
   (["billing" : str; "payment" : str; "commitment" : str; "autorenew" : str],
    "Billing & Payments" : str);
   (["entitlement" : str; "current" : str; "transitionable" : str],
    "Entitlements & Permissions" : str);
   (["feature" : str; "widget" : str; "published" : str],
    "Features & Configuration" : str);
   (["facebook" : str; "instagram" : str; "social" : str; "gem" : str],
    "Social Media & Marketing" : str);
   (["product" : str; "commerce" : str; "ols" : str; "marketplace" : str],
    "Commerce & Products" : str);
   (["appointment" : str; "ola" : str; "service" : str; "calendar" : str],
    "Appointments & Services" : str);
   (["type" : str; "status" : str], "Status & Types" : str)].

(** The table of [create_visual_summary]: its first test also looks
    for the whole field among two names, its last one is a prefix
    test, the others are keyword tests on the field as it is. *)
Definition summary_rules : list rule :=
  ((fun field => contains "account" (lower field)
                 || mem_str field ["id" : str; "type" : str]),
   "Core Identity" : str)
  :: map (fun kc : list str * str => (contains_any (fst kc), snd kc))
     [(["billing" : str; "payment" : str; "commitment" : str; "autoRenew" : str],
       "Billing & Payments" : str);
      (["entitlement" : str; "current." : str], "Feature Entitlements" : str);
      (["website" : str; "published" : str; "widget" : str; "domain" : str],
       "Website Settings" : str);
      (["facebook" : str; "instagram" : str; "social" : str; "gem" : str;
        "email" : str], "Marketing & Social" : str);
      (["product" : str; "commerce" : str; "ols" : str; "marketplace" : str],
       "E-commerce" : str);
      (["appointment" : str; "ola" : str; "service" : str; "calendar" : str],
       "Appointments" : str);
      (["customer" : str; "contact" : str; "intention" : str],
       "Customer Data" : str)]
  ++ [(startswith "links.", "Navigation Links" : str)].

(** The dictionary keeps its eight keys, and the list under [content]
    stays empty. *)
Definition patterns_shape (p : list (str * list (str * nat))) : Prop :=
  exists l1 l2 l3 l4 l5 l6 l7,
    p = [("authentication" : str, l1); ("billing" : str, l2);
         ("features" : str, l3); ("entitlements" : str, l4);
         ("social_media" : str, l5); ("commerce" : str, l6);
         ("appointments" : str, l7); ("content" : str, [])].


Definition sample_rule : str :=
  "profile => profile.entities" ++ nl
  ++ "  .filter(entity => entity.type === 'wsbvnext')" ++ nl
  ++ "  .map(entity => (" ++ nl
  ++ "    entityPick(entity, [" ++ nl
  ++ "      'accountId'," ++ nl
  ++ "      'entitlementData'," ++ nl
  ++ "      'gem.subscriberCount'," ++ nl
  ++ "      'links.addSubscribers'" ++ nl
  ++ "    ])" ++ nl
  ++ "  ))".

(** [always_sets n r]: every match of [r] captures group [n]. *)
Fixpoint always_sets (n : nat) (r : Re.regex) : bool :=
  match r with
  | Re.Group m a => (m =? n) || always_sets n a
  | Re.Seq a b => always_sets n a || always_sets n b
  | Re.Alt a b => always_sets n a && always_sets n b
  | _ => false
  end.

(** [group_texts P n r]: whatever a group [n] of [r] encloses matches
    texts with [P] only. *)
Fixpoint group_texts (P : str -> Prop) (n : nat) (r : Re.regex) : Prop :=
  match r with
  | Re.Group m a =>
      (m = n -> forall w g g', Re.matches a w g g' -> P w) /\ group_texts P n a
  | Re.Seq a b | Re.Alt a b => group_texts P n a /\ group_texts P n b
  | _ => True
  end.

(** A match object of [r]: its text matches [r], and its groups are the
    ones captured on the way. *)
Definition is_match (r : Re.regex) (m : Re.mtch) : Prop :=
  Re.matches r (Re.m_text m) [] (Re.m_groups m).

(** A section holds a fenced code block: the opening fence, and a
    closing fence somewhere after it. *)
Definition has_fence (section : str) : Prop :=
  exists a b c,
    section = a ++ RADFieldAnalyzer.fence_open ++ b ++ RADFieldAnalyzer.fence ++ c.

Fixpoint takewhile (p : ascii -> bool) (s : str) : str :=
  match s with
  | c :: s' => if p c then c :: takewhile p s' else []
  | [] => []
  end.

Definition not_newline (c : ascii) : bool := negb (Ascii.eqb "010"%char c).

(** The text up to the first line break: for a section, what follows
    the marker on the header line. *)
Definition first_line (s : str) : str := takewhile not_newline s.

(** The name [parse_rad_file] gives to a section. *)
Definition section_name (section : str) : str :=
  strip (hd [] (split nl (strip section))).

(** A document with two sections, and one whose header line is blank. *)
Definition two_sections : str :=
  "# Rules" ++ nl ++ nl
  ++ "## Task-A" ++ nl ++ "```javascript" ++ nl ++ "profile => []" ++ nl
  ++ "```" ++ nl ++ nl
  ++ "## Task-B" ++ nl ++ "```javascript" ++ nl ++ "profile => [1]" ++ nl
  ++ "```" ++ nl.

Definition blank_header : str :=
  "## " ++ nl ++ "foo" ++ nl ++ "```javascript" ++ nl ++ "x" ++ nl ++ "```".

(** The report of an analyzer that has analyzed nothing, and the texts
    rendered from it. *)
Definition empty_report : RADFieldAnalyzer.report :=
  RADFieldAnalyzer.generate_comprehensive_report RADFieldAnalyzer.init.

Definition empty_markdown : str :=
  "# RAD Synthesizer Analysis Report" ++ nl ++ nl
  ++ "## Summary" ++ nl
  ++ "- Total Synthesizers: 0" ++ nl
  ++ "- Unique Fields: 0" ++ nl
  ++ "- Entity Types: " ++ nl ++ nl
  ++ "### Complexity Distribution" ++ nl ++ nl
  ++ "## Most Used Fields" ++ nl ++ nl
  ++ "## Common Data Access Patterns" ++ nl.

Definition empty_unique_data_report : str :=
  "# Complete Unique Data Fields Used by RAD Synthesizers" ++ nl ++ nl
  ++ "## Summary" ++ nl ++ nl
  ++ "- **Total Unique Data Fields:** 0" ++ nl
  ++ "- **Total Synthesizers:** 0" ++ nl ++ nl
  ++ "## Top 20 Most Commonly Used Data" ++ nl ++ nl
  ++ "| Data Field | Used By | Category | Type | Description |" ++ nl
  ++ "|------------|---------|----------|------|-------------|" ++ nl
  ++ nl.


(** [v in d[k]] for a [defaultdict(set)] *)
Definition dd_mem (k v : str) (d : list (str * list str)) : Prop :=
  exists s, lookup k d = Some s /\ In v s.

(** What every record of [extract_entity_pick_fields] satisfies, in the
    analyzer state [st] that the call leaves. *)
Definition pick_record_ok (st : analyzer) (fa : field_access) : Prop :=
  access_method fa = "entityPick"
  /\ field fa <> []
  /\ forallb (Re.none_of quotes3) (field fa) = true
  /\ normalized fa = path_value (field fa)
  /\ is_word (entity_type fa) = true
  /\ entity_type fa <> []
  /\ In (normalized fa) (self_all_fields st)
  /\ dd_mem (entity_type fa) (normalized fa) (self_field_by_entity st).

(** [leaves R m]: when [m] returns, the state it leaves is related by
    [R] to the one it started in. *)
Definition leaves (R : analyzer -> analyzer -> Prop) {A} (m : M A) : Prop :=
  forall st a st', m st = Ok (a, st') -> R st st'.

(** A join condition [{'left': a.b, 'right': c.d}] over four runs of
    word characters. *)
Definition word_run (t : str) : Prop := is_word t = true /\ t <> [].

Definition join_condition_ok (c : str * str) : Prop :=
  exists a b c' d,
    word_run a /\ word_run b /\ word_run c' /\ word_run d
    /\ fst c = a ++ "." ++ b /\ snd c = c' ++ "." ++ d.

(** Two strings that differ at a position both of them have. *)
Fixpoint diverge (a b : str) : bool :=
  match a, b with
  | x :: a', y :: b' => if Ascii.eqb x y then diverge a' b' else true
  | _, _ => false
  end.

(** Neither the first nor the last character of [s] passes [p]. *)
Definition ends_clear (p : ascii -> bool) (s : str) : Prop :=
  match s with c :: _ => p c = false | [] => True end
  /\ match rev s with c :: _ => p c = false | [] => True end.

(** [t] is [s] with the characters that pass [p] cut off at both ends:
    what is cut off passes [p], and [t] has none left at its ends. *)
Definition stripped (p : ascii -> bool) (s t : str) : Prop :=
  exists a b, s = a ++ t ++ b
              /\ forallb p a = true /\ forallb p b = true /\ ends_clear p t.

(** The name that [_parse_destructuring] reads in one part of the list,
    and the test that it passes to be kept. *)
Definition part_name (part : str) : str :=
  let part := strip part in
  if contains ":" part then strip (hd [] (split ":" part)) else strip part.
Definition kept_name (x : str) : bool :=
  match x with [] => false | _ => negb (startswith "{" x) end.

(** A name as [_parse_destructuring] returns them. *)
Definition plain_name (x : str) : Prop :=
  x <> [] /\ strip x = x /\ ~ In ","%char x /\ ~ In ":"%char x
  /\ startswith "{" x = false.

(** One entry of a destructuring list: a name, with or without an
    alias. *)
Definition render_entry (e : str * option str) : str :=
  match snd e with
  | Some a => fst e ++ ": " ++ a
  | None => fst e
  end.
Definition entry_ok (e : str * option str) : Prop :=
  word_run (fst e) /\ match snd e with Some a => word_run a | None => True end.

(** Number of occurrences of [k] in [l]; sum of the counts of a counter. *)
Definition tally (k : str) (l : list str) : nat :=
  length (filter (eqb_str k) l).
Definition total (c : list (str * nat)) : nat := list_sum (map snd c).

(** The field accesses of a report, each with the name of its
    synthesizer, in the order [analyze_report] visits them. *)
Definition uses_of (r : report) : list (str * field_access) :=
  flat_map (fun a => map (fun fa => (name a, fa)) (field_accesses a))
           (synthesizer_details r).

(** The key under which [analyze_report] files an access. *)
Definition deep_key (fa : field_access) : str :=
  UniqueDataAnalyzer.normalize_field_deeply (normalized fa).

(** The category, type and description of an entry are those of its key. *)
Definition entry_describes (k : str) (i : UniqueDataAnalyzer.info) : Prop :=
  UniqueDataAnalyzer.category i = fst (UniqueDataAnalyzer.categorize_field k)
  /\ UniqueDataAnalyzer.subcategory i = snd (UniqueDataAnalyzer.categorize_field k)
  /\ UniqueDataAnalyzer.data_type i = UniqueDataAnalyzer.get_data_type k
  /\ UniqueDataAnalyzer.description i
     = UniqueDataAnalyzer.generate_description k
         (fst (UniqueDataAnalyzer.categorize_field k)).

(** What holds of the index after the accesses [seen]. *)
Definition index_ok (seen : list (str * field_access))
  (d : list (str * UniqueDataAnalyzer.info))
  : Prop :=
  NoDup (map fst d)
  /\ (forall k i, In (k, i) d ->
        entry_describes k i
        /\ NoDup (UniqueDataAnalyzer.synthesizers i)
        /\ (forall s, In s (UniqueDataAnalyzer.synthesizers i)
                      <-> exists fa, In (s, fa) seen /\ deep_key fa = k)
        /\ (forall v, In v (UniqueDataAnalyzer.raw_variations i)
                      <-> exists s fa, In (s, fa) seen /\ deep_key fa = k
                                       /\ field fa = v))
  /\ (forall s fa, In (s, fa) seen -> In (deep_key fa) (map fst d)).


(** The title and the code of the section that the simple format has for
    a row, when it has one; and those of all rows. *)
Definition written_row (index : nat) (row : Convert.row) : option (str * str) :=
  let query_content := Convert.get (Convert.query_cell row) None in
  if Convert.truthy query_content then
    match Mermaid.extract_pure_graphql query_content with
    | Some (c :: code) =>
        let rad_id := Convert.get (Convert.rad_id_cell row) (Some []) in
        Some (if Convert.truthy rad_id then Convert.fmt rad_id
              else Convert.fmt
                     (Convert.get (Convert.rad_name_cell row)
                        (Some ("Query_" ++ str_of_nat (index + 1)))),
              c :: code)
    | _ => None
    end
  else None.

Fixpoint written (index : nat) (rows : list Convert.row) : list (str * str) :=
  match rows with
  | [] => []
  | row :: rows' =>
      match written_row index row with
      | Some e => e :: written (S index) rows'
      | None => written (S index) rows'
      end
  end.

(** A section as the simple format writes it, without its marker. *)
Definition section_body (e : str * str) : str :=
  fst e ++ nl ++ nl ++ "```javascript" ++ nl ++ snd e ++ nl ++ "```" ++ nl ++ nl.

(** A title and a code that [parse_rad_file] reads back: the title is one
    line with a character that is not white space, and neither holds a
    section marker or the fence that would end its part early. *)
Definition reads_back (e : str * str) : Prop :=
  ~ In "010"%char (fst e)
  /\ forallb is_space (fst e) = false
  /\ contains "## " (fst e) = false
  /\ contains "```javascript" (fst e) = false
  /\ contains "## " (snd e) = false
  /\ contains "```" (snd e) = false.

(** Two rows of a CSV file: one with an identifier, one without the
    identifier column, and one without a query between them. *)
Definition sample_rows : list Convert.row := [
  {| Convert.rad_name_cell := Convert.Text "AddGEMSubscribers";
     Convert.rad_id_cell := Convert.Text "Task-AddGEMSubscribers-gHLTYfjQb";
     Convert.query_cell :=
       Convert.Text ("  profile => entityPick(entity, ['accountId'])" ++ nl) |};
  {| Convert.rad_name_cell := Convert.Text "NoQuery";
     Convert.rad_id_cell := Convert.Text "Task-NoQuery";
     Convert.query_cell := Convert.Blank |};
  {| Convert.rad_name_cell := Convert.Absent;
     Convert.rad_id_cell := Convert.Absent;
     Convert.query_cell := Convert.Text "profile => { return []; }" |}
].

(** A character that the two dialects of regular expressions put in the
    same classes [\s] and [\w]. *)
Definition same_class (c : ascii) : bool :=
  Bool.eqb (Re.space c) (RADAnalyzer.js_space c)
  && Bool.eqb (Re.word c) (RADAnalyzer.js_word c).

(** Captures under a renumbering of the groups; [None] drops a group. *)
Fixpoint rename_caps (rho : nat -> option nat) (g : Re.captures) : Re.captures :=
  match g with
  | [] => []
  | (n, t) :: g' =>
      match rho n with
      | Some m => (m, t) :: rename_caps rho g'
      | None => rename_caps rho g'
      end
  end.

Definition rename_match (rho : nat -> option nat) (m : Re.mtch) : Re.mtch :=
  {| Re.m_text := Re.m_text m; Re.m_groups := rename_caps rho (Re.m_groups m) |}.

(** Two patterns of the same shape, whose classes agree on the
    characters that pass [ok], up to a renumbering of the groups. *)
Inductive similar (ok : ascii -> bool) (rho : nat -> option nat)
  : Re.regex -> Re.regex -> Prop :=
| Sim_Eps : similar ok rho Re.Eps Re.Eps
| Sim_Chr c : similar ok rho (Re.Chr c) (Re.Chr c)
| Sim_Cls (p q : ascii -> bool) :
    (forall c, ok c = true -> p c = q c) ->
    similar ok rho (Re.Cls p) (Re.Cls q)
| Sim_Star (p q : ascii -> bool) :
    (forall c, ok c = true -> p c = q c) ->
    similar ok rho (Re.Star p) (Re.Star q)
| Sim_StarLazy (p q : ascii -> bool) :
    (forall c, ok c = true -> p c = q c) ->
    similar ok rho (Re.StarLazy p) (Re.StarLazy q)
| Sim_Seq a b a' b' :
    similar ok rho a a' -> similar ok rho b b' ->
    similar ok rho (Re.Seq a b) (Re.Seq a' b')
| Sim_Alt a b a' b' :
    similar ok rho a a' -> similar ok rho b b' ->
    similar ok rho (Re.Alt a b) (Re.Alt a' b')
| Sim_Group n m a a' :
    rho n = Some m -> similar ok rho a a' ->
    similar ok rho (Re.Group n a) (Re.Group m a')
| Sim_Drop n a a' :
    rho n = None -> similar ok rho a a' ->
    similar ok rho (Re.Group n a) a'.

(** From the groups of the Python pattern to those of the JavaScript
    one: the variable is not captured, the list is group 1. *)
Definition pick_rho (n : nat) : option nat :=
  match n with
  | 1 => None
  | 2 => Some 1
  | _ => Some n
  end.

(** A pair as [parse_rad_file] returns them: the name is one stripped
    line, the code is stripped and holds no fence, and neither holds the
    section marker. *)
Definition pair_ok (nc : str * str) : Prop :=
  strip (fst nc) = fst nc /\ ~ In "010"%char (fst nc)
  /\ contains "## " (fst nc) = false
  /\ strip (snd nc) = snd nc
  /\ contains "```" (snd nc) = false
  /\ contains "## " (snd nc) = false.

(** A field access as the analyzer records them. *)
Definition access_ok (fa : field_access) : Prop :=
  normalized fa = path_value (field fa)
  /\ field fa <> []
  /\ word_run (entity_type fa)
  /\ In (access_method fa)
        ["entityPick" : str; "direct" : str; "destructuring" : str].

(** The distinct elements of a list, in the order of their first
    occurrence. *)
Definition distinct (l : list str) : list str :=
  fold_left (fun acc x => set_add x acc) l [].

(** The names of the synthesizers of the accesses [seen] whose
    normalized path is [k], one for each access, in order. *)
Definition readers (k : str) (seen : list (str * field_access)) : list str :=
  map fst (filter (fun u => eqb_str (normalized (snd u)) k) seen).

(** What holds of the dictionary after the accesses [seen]. *)
Definition dictionary_ok (seen : list (str * field_access))
  (d : list (str * DictionaryBuilder.entry)) : Prop :=
  NoDup (map fst d)
  /\ (forall k e, In (k, e) d ->
        DictionaryBuilder.used_by_synthesizers e = readers k seen
        /\ DictionaryBuilder.category e
           = DataDictionaryGenerator._categorize_field k
        /\ DictionaryBuilder.description e
           = DictionaryBuilder._describe_field k)
  /\ (forall s fa, In (s, fa) seen -> In (normalized fa) (map fst d)).

(** A table of variations as [normalize_field_path] fills it: every key
    is a new prefix of the table of normalizations, and every field
    recorded under it starts with an old prefix that the table maps to
    it. *)
Definition table_variations (fv : list (str * list str)) : Prop :=
  forall k vs, In (k, vs) fv ->
    In k (map snd normalizations)
    /\ forall v, In v vs ->
         exists old, In (old, k) normalizations /\ startswith old v = true.

Definition variations_kept (st st' : analyzer) : Prop :=
  table_variations (self_field_variations st) ->
  table_variations (self_field_variations st').

(** The keys of [deep_mappings] that [normalize_field_path] rewrites to a
    path which the deep table does not know. *)
Definition shadowed_keys : list str := [
  "features.websiteType" : str;
  "entitlementData.current.commerce" : str;
  "entitlementData.current.blog" : str;
  "entitlementData.current.appointments" : str;
  "entitlementData.current.conversations" : str;
  "entitlementData.current[" ++ [dquote] ++ "conversations.lite" ++ [dquote] ++ "]";
  "entitlementData.transitionable" : str;
  "gem.hasSent" : str;
  "ola.account.status" : str
].
End Aux.
Import Aux.

(** * Properties *)

Unset Implicit Arguments.

(** ** Strings *)

Section StringFacts.

Lemma eqb_str_eq (a b : str) : eqb_str a b = true <-> a = b.
Proof.
  revert b; induction a as [|x a IH]; intros [|y b]; simpl;
    try (split; [discriminate | congruence]); try tauto.
  rewrite andb_true_iff, Ascii.eqb_eq, IH.
  split; [intros [-> ->]; reflexivity | intros H; inversion H; auto].
Qed.

Lemma eqb_str_refl (a : str) : eqb_str a a = true.
Proof. apply eqb_str_eq; reflexivity. Qed.

Lemma eqb_str_neq (a b : str) : eqb_str a b = false <-> a <> b.
Proof.
  rewrite <- eqb_str_eq. destruct (eqb_str a b); split; congruence.
Qed.

Lemma startswith_app (p t : str) : startswith p (p ++ t) = true.
Proof.
  induction p as [|x p IH]; simpl; [reflexivity|].
  rewrite Ascii.eqb_refl; exact IH.
Qed.

Lemma startswith_inv (p s : str) :
  startswith p s = true -> exists t, s = p ++ t.
Proof.
  revert s; induction p as [|x p IH]; intros s H; simpl in *.
  - exists s; reflexivity.
  - destruct s as [|y s]; [discriminate|].
    apply andb_true_iff in H as [Hxy Hps].
    apply Ascii.eqb_eq in Hxy; subst y.
    destruct (IH _ Hps) as [t ->]. exists t; reflexivity.
Qed.

Lemma startswith_skipn (p s : str) :
  startswith p s = true -> s = p ++ skipn (length p) s.
Proof.
  intros H. destruct (startswith_inv _ _ H) as [t ->].
  rewrite skipn_app, skipn_all, Nat.sub_diag. reflexivity.
Qed.

(** What [dropwhile] removes satisfies the test, and what is left does
    not start with a character that does. *)
Lemma dropwhile_split (p : ascii -> bool) (s : str) :
  exists a, s = a ++ dropwhile p s /\ forallb p a = true
            /\ match dropwhile p s with c :: _ => p c = false | [] => True end.
Proof.
  induction s as [|c s (a & Hs & Ha & Hd)]; simpl.
  - exists []; auto.
  - destruct (p c) eqn:Hc.
    + exists (c :: a); simpl; rewrite Hc, Ha; repeat split; auto.
      congruence.
    + exists []; simpl; auto.
Qed.

(** [strip_by] keeps a middle part of the text: what it cuts off on
    either side satisfies the test, and the part kept neither starts
    nor ends with a character that does. *)
Lemma strip_by_split (p : ascii -> bool) (s : str) :
  exists a b, s = a ++ strip_by p s ++ b
              /\ forallb p a = true /\ forallb p b = true
              /\ match strip_by p s with c :: _ => p c = false | [] => True end
              /\ match rev (strip_by p s) with c :: _ => p c = false | [] => True end.
Proof.
  unfold strip_by, rstrip_by, lstrip_by.
  destruct (dropwhile_split p s) as (a & Hs & Ha & Hd).
  destruct (dropwhile_split p (rev (dropwhile p s))) as (b & Hr & Hb & He).
  exists a, (rev b).
  assert (Hmid : dropwhile p s = rev (dropwhile p (rev (dropwhile p s))) ++ rev b).
  { rewrite <- rev_app_distr, <- Hr, rev_involutive; reflexivity. }
  repeat split.
  - rewrite <- Hmid; exact Hs.
  - exact Ha.
  - rewrite forallb_forall in *. intros x Hx. apply Hb, in_rev; exact Hx.
  - destruct (rev (dropwhile p (rev (dropwhile p s)))) as [|c r] eqn:E;
      [exact I|].
    rewrite Hmid in Hd; simpl in Hd; exact Hd.
  - rewrite rev_involutive; exact He.
Qed.

Lemma dropwhile_app (p : ascii -> bool) (x y : str) :
  dropwhile p (x ++ y)
  = if forallb p x then dropwhile p y else dropwhile p x ++ y.
Proof.
  induction x as [|c x IH]; simpl; [reflexivity|].
  destruct (p c); simpl; [exact IH|reflexivity].
Qed.

Lemma forallb_rev (p : ascii -> bool) (s : str) :
  forallb p (rev s) = forallb p s.
Proof.
  induction s as [|c s IH]; simpl; [reflexivity|].
  rewrite forallb_app, IH. simpl. rewrite andb_true_r. apply andb_comm.
Qed.

Lemma rstrip_by_app (p : ascii -> bool) (a b : str) :
  rstrip_by p (a ++ b)
  = if forallb p b then rstrip_by p a else a ++ rstrip_by p b.
Proof.
  unfold rstrip_by. rewrite rev_app_distr, dropwhile_app, forallb_rev.
  destruct (forallb p b); [reflexivity|].
  rewrite rev_app_distr, rev_involutive. reflexivity.
Qed.

Lemma dropwhile_fixed (p : ascii -> bool) (s : str) :
  match s with c :: _ => p c = false | [] => True end -> dropwhile p s = s.
Proof. destruct s as [|c s]; simpl; [reflexivity|]. intros ->. reflexivity. Qed.

(** A text with clear ends is left as it is. *)
Lemma strip_by_fixed (p : ascii -> bool) (s : str) :
  ends_clear p s -> strip_by p s = s.
Proof.
  intros [H1 H2]. unfold strip_by, lstrip_by, rstrip_by.
  rewrite (dropwhile_fixed p s H1), (dropwhile_fixed p (rev s) H2).
  apply rev_involutive.
Qed.

Lemma strip_by_ends (p : ascii -> bool) (s : str) : ends_clear p (strip_by p s).
Proof.
  destruct (strip_by_split p s) as (a & b & _ & _ & _ & H1 & H2).
  split; assumption.
Qed.

(** Characters that pass the test, put around a text, are cut off again. *)
Lemma strip_by_pad (p : ascii -> bool) (a s b : str) :
  forallb p a = true -> forallb p b = true ->
  strip_by p (a ++ s ++ b) = strip_by p s.
Proof.
  intros Ha Hb. unfold strip_by, lstrip_by.
  rewrite dropwhile_app, Ha.
  destruct (forallb p s) eqn:Hs.
  - rewrite dropwhile_app, Hs.
    pose proof (dropwhile_split p b) as (x & Ex & Hx & _).
    pose proof (dropwhile_split p s) as (y & Ey & Hy & _).
    assert (Hd : forall t, forallb p t = true -> rstrip_by p (dropwhile p t) = []).
    { intros t Ht. destruct (dropwhile_split p t) as (z & Ez & Hz & _).
      assert (Hall : forallb p (dropwhile p t) = true).
      { rewrite Ez in Ht. rewrite forallb_app in Ht.
        apply andb_true_iff in Ht. apply Ht. }
      rewrite <- (app_nil_l (dropwhile p t)), rstrip_by_app, Hall.
      reflexivity. }
    rewrite (Hd b Hb), (Hd s Hs). reflexivity.
  - rewrite dropwhile_app, Hs, rstrip_by_app, Hb. reflexivity.
Qed.

(** [strip_by p s] is the one text that [s] is stripped to. *)
Lemma stripped_iff (p : ascii -> bool) (s t : str) :
  stripped p s t <-> t = strip_by p s.
Proof.
  split.
  - intros (a & b & -> & Ha & Hb & Ht).
    rewrite (strip_by_pad p a t b Ha Hb). symmetry. apply strip_by_fixed, Ht.
  - intros ->. destruct (strip_by_split p s) as (a & b & E & Ha & Hb & H1 & H2).
    exists a, b. repeat split; assumption.
Qed.

End StringFacts.

(** ** [extract_pure_graphql] *)

(** C10. [extract_pure_graphql] returns [None] exactly for [None] and for
    the empty string.  For every non-empty string it returns a string,
    and [r] is that string exactly when it is reached in three cuts: the
    whitespace at both ends of the input is cut off; of what is left, the
    quote characters at both ends; of what is left then, the whitespace
    at both ends.  Each cut takes off characters of its kind only and
    leaves none of them at either end, so the quotes around the text do
    go: with the quotes and the blanks around it, [query { a }] comes
    back bare.  No exception is modelled: the function is total. *)
Theorem extract_pure_graphql_none_iff_empty :
  (forall q, Mermaid.extract_pure_graphql q = None <-> (q = None \/ q = Some [])) /\
  (forall c s, exists r, Mermaid.extract_pure_graphql (Some (c :: s)) = Some r) /\
  (forall c s r,
      Mermaid.extract_pure_graphql (Some (c :: s)) = Some r <->
      exists t u,
        stripped is_space (c :: s) t
        /\ stripped (mem_char quotes2) t u
        /\ stripped is_space u r) /\
  (forall q r,
      Mermaid.extract_pure_graphql q = Some r -> ends_clear is_space r) /\
  (forall pad1 pad2 q1 q2 body,
      forallb is_space pad1 = true -> forallb is_space pad2 = true ->
      forallb (mem_char quotes2) q1 = true ->
      forallb (mem_char quotes2) q2 = true ->
      ends_clear is_space body -> ends_clear (mem_char quotes2) body ->
      body <> [] ->
      Mermaid.extract_pure_graphql (Some (pad1 ++ (q1 ++ body ++ q2) ++ pad2))
      = Some body) /\
  Mermaid.extract_pure_graphql
    (Some (" " ++ [dquote] ++ "'query { a }'" ++ [dquote] ++ "  "))
  = Some ("query { a }" : str).
Proof.
  assert (Hspec : forall c s r,
      Mermaid.extract_pure_graphql (Some (c :: s)) = Some r <->
      exists t u,
        stripped is_space (c :: s) t
        /\ stripped (mem_char quotes2) t u
        /\ stripped is_space u r).
  { intros c s r. cbn [Mermaid.extract_pure_graphql]. split.
    - intros H. injection H as <-.
      exists (strip (c :: s)), (strip_chars quotes2 (strip (c :: s))).
      repeat split; apply stripped_iff; reflexivity.
    - intros (t & u & Ht & Hu & Hr).
      apply stripped_iff in Ht, Hu, Hr. subst. reflexivity. }
  split; [|split; [|split; [|split; [|split]]]].
  - intros [[|c s]|]; simpl; split; auto; try discriminate.
    intros [H|H]; discriminate.
  - intros c s. eexists. reflexivity.
  - exact Hspec.
  - intros [[|c s]|] r H; try discriminate.
    apply Hspec in H as (t & u & _ & _ & (a & b & _ & _ & _ & Hr)). exact Hr.
  - intros pad1 pad2 q1 q2 body Hp1 Hp2 Hq1 Hq2 Hs Hq Hne.
    destruct (pad1 ++ (q1 ++ body ++ q2) ++ pad2) as [|c s] eqn:E.
    { destruct pad1; [|discriminate]. destruct q1; [|discriminate].
      destruct body; [exfalso; apply Hne; reflexivity|discriminate]. }
    apply Hspec. exists (q1 ++ body ++ q2), body. split; [|split].
    + exists pad1, pad2. rewrite <- E. repeat split; try assumption.
      * destruct q1 as [|x q1]; cbn [app].
        -- destruct body as [|y body]; [exfalso; apply Hne; reflexivity|].
           apply Hs.
        -- cbn [forallb] in Hq1. apply andb_true_iff in Hq1 as [Hx _].
           destruct (is_space x) eqn:Ex; [|reflexivity].
           revert Hx Ex. clear. destruct x as [[] [] [] [] [] [] [] []];
             vm_compute; congruence.
      * rewrite !rev_app_distr.
        destruct (rev q2) as [|x q2'] eqn:Eq; cbn [app].
        -- destruct (rev body) as [|y body'] eqn:Eb.
           ++ apply (f_equal (@rev ascii)) in Eb.
              rewrite rev_involutive in Eb. exfalso. apply Hne. exact Eb.
           ++ cbn [app]. destruct Hs as [_ Hs]. rewrite Eb in Hs. exact Hs.
        -- assert (Hx : mem_char quotes2 x = true).
           { rewrite <- forallb_rev, Eq in Hq2. cbn [forallb] in Hq2.
             apply andb_true_iff in Hq2. apply Hq2. }
           destruct (is_space x) eqn:Ex; [|reflexivity].
           revert Hx Ex. clear. destruct x as [[] [] [] [] [] [] [] []];
             vm_compute; congruence.
    + exists q1, q2. split; [reflexivity|]. split; [assumption|].
      split; assumption.
    + exists [], []. rewrite app_nil_r. split; [reflexivity|].
      split; [reflexivity|]. split; [reflexivity|assumption].
  - reflexivity.
Qed.

Lemma extract_pure_graphql_none_iff_empty_witness :
  Mermaid.extract_pure_graphql
    (Some (("  " ++ nl) ++ ("'" ++ "{ shopper { id } }" ++ "''") ++ " "))
  = Some ("{ shopper { id } }" : str).
Proof.
  apply (proj1 (proj2 (proj2 (proj2 (proj2
           extract_pure_graphql_none_iff_empty))))
           ("  " ++ nl) " " "'" "''" "{ shopper { id } }");
    try reflexivity; try (split; reflexivity); discriminate.
Defined.

(** ** Normalization *)

Section Normalization.
Import RADFieldAnalyzer.

Lemma normalize_field_path_ok (field : str) (st : analyzer) :
  normalize_field_path field st = Ok (path_value field, path_state field st).
Proof.
  unfold normalize_field_path, path_value, path_state.
  destruct (first_prefix normalizations _) as [[old new]|]; reflexivity.
Qed.

Lemma path_value_keys :
  forallb (fun k => eqb_str (path_value (path_value k)) (path_value k))
          (map fst normalizations) = true.
Proof. vm_compute; reflexivity. Qed.

Lemma deep_value_keys :
  forallb (fun k =>
             eqb_str (UniqueDataAnalyzer.normalize_field_deeply
                        (UniqueDataAnalyzer.normalize_field_deeply k))
                     (UniqueDataAnalyzer.normalize_field_deeply k))
          (map fst UniqueDataAnalyzer.deep_mappings) = true.
Proof. vm_compute; reflexivity. Qed.

End Normalization.

(** C2. For every key [f] of the static table, normalizing twice gives
    what normalizing once gives: for [normalize_field_path] (run on any
    analyzer state, the second call on the state the first one leaves)
    and for [normalize_field_deeply]. *)
Theorem normalize_idempotent_on_table_keys :
  (forall f st, In f (map fst RADFieldAnalyzer.normalizations) ->
     exists v st1 st2,
       RADFieldAnalyzer.normalize_field_path f st = Ok (v, st1)
       /\ RADFieldAnalyzer.normalize_field_path v st1 = Ok (v, st2)) /\
  (forall f, In f (map fst UniqueDataAnalyzer.deep_mappings) ->
     UniqueDataAnalyzer.normalize_field_deeply
       (UniqueDataAnalyzer.normalize_field_deeply f)
     = UniqueDataAnalyzer.normalize_field_deeply f).
Proof.
  split.
  - intros f st Hf.
    exists (path_value f), (path_state f st),
           (path_state (path_value f) (path_state f st)).
    split; [apply normalize_field_path_ok|].
    rewrite normalize_field_path_ok. do 2 f_equal.
    pose proof path_value_keys as H.
    rewrite forallb_forall in H. apply eqb_str_eq, H, Hf.
  - intros f Hf.
    pose proof deep_value_keys as H.
    rewrite forallb_forall in H. apply eqb_str_eq, H, Hf.
Qed.

Lemma normalize_idempotent_on_table_keys_witness :
  (exists v st1 st2,
      RADFieldAnalyzer.normalize_field_path "gem.hasSent" RADFieldAnalyzer.init
      = Ok (v, st1)
      /\ RADFieldAnalyzer.normalize_field_path v st1 = Ok (v, st2)) /\
  UniqueDataAnalyzer.normalize_field_deeply
    (UniqueDataAnalyzer.normalize_field_deeply "features.websiteType")
  = UniqueDataAnalyzer.normalize_field_deeply "features.websiteType".
Proof.
  split.
  - apply (proj1 normalize_idempotent_on_table_keys).
    vm_compute. do 7 right. left. reflexivity.
  - apply (proj2 normalize_idempotent_on_table_keys).
    vm_compute. do 15 right. left. reflexivity.
Defined.

Section DeepNormalization.
Import UniqueDataAnalyzer.

Lemma first_equal_none (items : list (str * str)) (field : str) :
  ~ In field (map fst items) -> first_equal items field = None.
Proof.
  induction items as [|[k v] items IH]; simpl; intros H; [reflexivity|].
  destruct (eqb_str field k) eqn:E.
  - apply eqb_str_eq in E. exfalso; apply H; left; congruence.
  - apply IH; intros Hin; apply H; right; exact Hin.
Qed.

(** No key of [deep_mappings] occurs twice: a pair of the table is
    what the loop finds for its key. *)
Lemma first_equal_deep (field v : str) :
  In (field, v) deep_mappings -> first_equal deep_mappings field = Some v.
Proof.
  intros H.
  assert (Hall : forallb (fun kv' =>
                   match first_equal deep_mappings (fst kv') with
                   | Some v' => eqb_str v' (snd kv')
                   | None => false
                   end) deep_mappings = true) by (vm_compute; reflexivity).
  rewrite forallb_forall in Hall. specialize (Hall _ H).
  cbv beta in Hall. unfold fst, snd in Hall.
  destruct (first_equal deep_mappings field); [|discriminate].
  apply eqb_str_eq in Hall; congruence.
Qed.

Lemma replace1_prefix (old new s : str) :
  startswith old s = true -> replace1 old new s = new ++ skipn (length old) s.
Proof.
  intros H. unfold replace1.
  assert (E : index_of old s = Some 0)
    by (destruct s; simpl; rewrite H; reflexivity).
  rewrite E. reflexivity.
Qed.

Lemma first_prefix_some (items : list (str * str)) (field old new : str) :
  RADFieldAnalyzer.first_prefix items field = Some (old, new) ->
  In (old, new) items /\ startswith old field = true.
Proof.
  induction items as [|[k v] items IH]; simpl; [discriminate|].
  destruct (startswith k field) eqn:E.
  - intros H; inversion H; subst; auto.
  - intros H; destruct (IH H); auto.
Qed.

End DeepNormalization.

(** C6, as amended.  Both normalizations first clean the raw string:
    whitespace, then quote characters, are stripped from its ends.
    [normalize_field_deeply] then returns the table value when the
    cleaned string is a key of the table; otherwise, for a cleaned string
    ["features." ++ rest] it returns ["website." ++ rest]; for the
    prefixes ["vnextAccount."], ["wsbvnext."] and ["mktgasst."] it returns
    [rest]; otherwise it returns the cleaned string.  Nothing is ever
    rejected.  [normalize_field_path] replaces the first table key that
    the cleaned string starts with by its value, and returns the cleaned
    string when there is none. *)
Theorem normalize_field_deeply_cases (raw : str) :
  let field := strip_chars quotes3 (strip raw) in
  let keys := map fst UniqueDataAnalyzer.deep_mappings in
  let result := UniqueDataAnalyzer.normalize_field_deeply raw in
  (forall v, In (field, v) UniqueDataAnalyzer.deep_mappings -> result = v) /\
  (~ In field keys ->
     (forall rest, field = "features." ++ rest -> result = "website." ++ rest) /\
     (forall rest, field = "vnextAccount." ++ rest -> result = rest) /\
     (forall rest, field = "wsbvnext." ++ rest -> result = rest) /\
     (forall rest, field = "mktgasst." ++ rest -> result = rest) /\
     (startswith "features." field = false ->
      startswith "vnextAccount." field = false ->
      startswith "wsbvnext." field = false ->
      startswith "mktgasst." field = false -> result = field)) /\
  (forall st, exists st',
     RADFieldAnalyzer.normalize_field_path raw st
     = Ok (match RADFieldAnalyzer.first_prefix RADFieldAnalyzer.normalizations field with
           | Some (old, new) => new ++ skipn (length old) field
           | None => field
           end, st')).
Proof.
  intros field keys result. subst result keys.
  split; [|split].
  - unfold UniqueDataAnalyzer.normalize_field_deeply. fold field.
    intros v H. rewrite (first_equal_deep _ _ H). reflexivity.
  - unfold UniqueDataAnalyzer.normalize_field_deeply. fold field.
    clearbody field.
    intros H. rewrite (first_equal_none _ _ H).
    repeat split.
    + intros rest ->. reflexivity.
    + intros rest ->. reflexivity.
    + intros rest ->. reflexivity.
    + intros rest ->. reflexivity.
    + intros -> -> -> ->. reflexivity.
  - intros st. rewrite normalize_field_path_ok. eexists. do 2 f_equal.
    unfold path_value. fold field.
    destruct (RADFieldAnalyzer.first_prefix RADFieldAnalyzer.normalizations field)
      as [[old new]|] eqn:E; [|reflexivity].
    apply replace1_prefix. eapply first_prefix_some; eauto.
Qed.

Lemma normalize_field_deeply_cases_witness :
  UniqueDataAnalyzer.normalize_field_deeply "'features.logo'" = "website.logo"
  /\ UniqueDataAnalyzer.normalize_field_deeply " vnextAccount.plan" = "plan"
  /\ UniqueDataAnalyzer.normalize_field_deeply "accountId" = "account.id"
  /\ UniqueDataAnalyzer.normalize_field_deeply "links.other" = "links.other".
Proof.
  split; [|split; [|split]].
  - refine (proj1 (proj1 (proj2 (normalize_field_deeply_cases "'features.logo'")) _)
                  "logo" _).
    + vm_compute. intuition discriminate.
    + reflexivity.
  - refine (proj1 (proj2 (proj1 (proj2
              (normalize_field_deeply_cases " vnextAccount.plan")) _)) "plan" _).
    + vm_compute. intuition discriminate.
    + reflexivity.
  - apply (proj1 (normalize_field_deeply_cases "accountId")).
    vm_compute. left. reflexivity.
  - refine (proj2 (proj2 (proj2 (proj2 (proj1 (proj2
              (normalize_field_deeply_cases "links.other")) _)))) _ _ _ _);
      try reflexivity.
    vm_compute. intuition discriminate.
Defined.

(** C6, the claim as stated fails: a field under ["features."] does not
    come back with the prefix removed, and a raw string with blanks
    around it does not come back unchanged. *)
Lemma normalize_field_deeply_not_prefix_strip :
  ~ In (list_ascii_of_string "features.logo")
       (map fst UniqueDataAnalyzer.deep_mappings)
  /\ UniqueDataAnalyzer.normalize_field_deeply "features.logo" = "website.logo"
  /\ UniqueDataAnalyzer.normalize_field_deeply "features.logo"
     <> skipn 9 (list_ascii_of_string "features.logo")
  /\ UniqueDataAnalyzer.normalize_field_deeply " plan " = "plan"
  /\ UniqueDataAnalyzer.normalize_field_deeply " plan "
     <> list_ascii_of_string " plan ".
Proof.
  repeat split; try (vm_compute; intuition discriminate).
Qed.

(** ** Categories *)

Section Categories.

(** First match wins: a rule gives the category as soon as the field
    passes its test and the test of no rule before it. *)
Lemma first_match_wins (rules : list rule) (default field : str)
      (pre post : list rule) (r : rule) :
  rules = pre ++ r :: post ->
  (forall r', In r' pre -> fst r' field = false) ->
  fst r field = true ->
  first_match rules default field = snd r.
Proof.
  intros -> Hpre Hr. unfold first_match.
  induction pre as [|r0 pre IH]; simpl.
  - rewrite Hr. reflexivity.
  - rewrite (Hpre r0 (or_introl eq_refl)).
    apply IH. intros r' Hin. apply Hpre. right; exact Hin.
Qed.

Lemma first_match_default (rules : list rule) (default field : str) :
  (forall r, In r rules -> fst r field = false) ->
  first_match rules default field = default.
Proof.
  intros H. unfold first_match.
  induction rules as [|r0 rules IH]; simpl; [reflexivity|].
  rewrite (H r0 (or_introl eq_refl)).
  apply IH. intros r Hin. apply H. right; exact Hin.
Qed.

Lemma _categorize_field_table (field : str) :
  DataDictionaryGenerator._categorize_field field
  = first_match dictionary_rules "Other" field.
Proof.
  unfold DataDictionaryGenerator._categorize_field, first_match,
    dictionary_rules.
  cbn [map List.find fst snd].
  repeat match goal with
         | |- context [if ?b then _ else _] => destruct b; [reflexivity|]
         end.
  reflexivity.
Qed.

Lemma categorize_table (field : str) :
  DataSummary.categorize field = first_match summary_rules "Other Data" field.
Proof.
  unfold DataSummary.categorize, first_match, summary_rules.
  cbn [map List.find fst snd app].
  repeat match goal with
         | |- context [if ?b then _ else _] => destruct b; [reflexivity|]
         end.
  reflexivity.
Qed.

End Categories.

(** C5.  Category bucketing is a function of the field, and the first
    matching test wins: both categorizers give the category of the first
    rule of their fixed table that the field passes, in the order of the
    table, and the default category when it passes none.  The field
    [billing.commitment] gets ["Billing & Payments"] from both (and from
    [categorize_field] of the unique-data report). *)
Theorem category_is_first_matching_rule :
  (forall field,
      DataDictionaryGenerator._categorize_field field
      = first_match dictionary_rules "Other" field) /\
  (forall field,
      DataSummary.categorize field = first_match summary_rules "Other Data" field) /\
  (forall rules default field pre post r,
      rules = pre ++ r :: post ->
      (forall r', In r' pre -> fst r' field = false) ->
      fst r field = true ->
      first_match rules default field = snd r) /\
  (forall rules default field,
      (forall r, In r rules -> fst r field = false) ->
      first_match rules default field = default) /\
  DataDictionaryGenerator._categorize_field "billing.commitment"
  = "Billing & Payments" /\
  DataSummary.categorize "billing.commitment" = "Billing & Payments" /\
  UniqueDataAnalyzer.categorize_field "billing.commitment"
  = ("Billing & Payments" : str, "billing" : str).
Proof.
  split; [exact _categorize_field_table|].
  split; [exact categorize_table|].
  split; [exact first_match_wins|].
  split; [exact first_match_default|].
  repeat split; vm_compute; reflexivity.
Qed.

(** The second rule of either table is the first one that
    [billing.commitment] passes. *)
Lemma category_is_first_matching_rule_witness :
  first_match dictionary_rules "Other" "billing.commitment" = "Billing & Payments"
  /\ first_match summary_rules "Other Data" "billing.commitment"
     = "Billing & Payments".
Proof.
  split.
  - refine (proj1 (proj2 (proj2 category_is_first_matching_rule))
              dictionary_rules "Other" "billing.commitment"
              (firstn 1 dictionary_rules) (skipn 2 dictionary_rules)
              (nth 1 dictionary_rules (fun _ => false, [])) eq_refl _ eq_refl).
    intros r' [<-|[]]. vm_compute. reflexivity.
  - refine (proj1 (proj2 (proj2 category_is_first_matching_rule))
              summary_rules "Other Data" "billing.commitment"
              (firstn 1 summary_rules) (skipn 2 summary_rules)
              (nth 1 summary_rules (fun _ => false, [])) eq_refl _ eq_refl).
    intros r' [<-|[]]. vm_compute. reflexivity.
Defined.

(** ** Common patterns *)

Section CommonPatterns.
Import RADFieldAnalyzer.

Lemma pattern_key_cases (field k : str) :
  pattern_key field = Some k ->
  In k ["billing" : str; "entitlements" : str; "features" : str;
        "social_media" : str; "commerce" : str; "appointments" : str;
        "authentication" : str].
Proof.
  unfold pattern_key.
  repeat match goal with
         | |- context [if ?b then _ else _] => destruct b
         end;
    intros H; inversion H; subst; simpl; tauto.
Qed.

Lemma dict_append_shape (k : str) (x : str * nat) p :
  In k ["billing" : str; "entitlements" : str; "features" : str;
        "social_media" : str; "commerce" : str; "appointments" : str;
        "authentication" : str] ->
  patterns_shape p -> patterns_shape (dict_append k x p).
Proof.
  intros Hk (l1 & l2 & l3 & l4 & l5 & l6 & l7 & ->).
  simpl in Hk.
  repeat (destruct Hk as [<-|Hk]; [unfold patterns_shape; cbn; repeat eexists|]).
  destruct Hk.
Qed.

Lemma fold_patterns_shape (c : list (str * nat)) p :
  patterns_shape p ->
  patterns_shape
    (fold_left (fun patterns fc =>
                  match pattern_key (fst fc) with
                  | Some k => dict_append k fc patterns
                  | None => patterns
                  end) c p).
Proof.
  revert p; induction c as [|fc c IH]; intros p Hp; simpl; [exact Hp|].
  apply IH. destruct (pattern_key (fst fc)) as [k|] eqn:E; [|exact Hp].
  apply dict_append_shape; [|exact Hp]. eapply pattern_key_cases; eauto.
Qed.

Lemma _identify_common_patterns_shape (c : list (str * nat)) :
  patterns_shape (_identify_common_patterns c).
Proof.
  unfold _identify_common_patterns.
  destruct (fold_patterns_shape c empty_patterns)
    as (l1 & l2 & l3 & l4 & l5 & l6 & l7 & ->).
  - unfold patterns_shape, empty_patterns. repeat eexists.
  - unfold patterns_shape. cbn. repeat eexists.
Qed.

End CommonPatterns.

(** C9.  Whatever the field counter, [_identify_common_patterns] maps
    the key [content] to the empty list; hence no report has a field
    under [content], and the "Common Data Access Patterns" section, which
    gives a heading to the categories with a non-empty list only, has no
    ["Content"] heading. *)
Theorem content_bucket_always_empty :
  (forall field_counter,
      lookup "content" (RADFieldAnalyzer._identify_common_patterns field_counter)
      = Some []) /\
  (forall self,
      lookup "content"
        (RADFieldAnalyzer.common_patterns
           (RADFieldAnalyzer.field_analysis
              (RADFieldAnalyzer.generate_comprehensive_report self)))
      = Some []) /\
  (forall field_counter,
      ~ In (list_ascii_of_string "Content")
           (map fst (RADFieldAnalyzer.pattern_blocks
                       (RADFieldAnalyzer._identify_common_patterns field_counter)))).
Proof.
  assert (H1 : forall c,
             lookup "content" (RADFieldAnalyzer._identify_common_patterns c)
             = Some []).
  { intros c.
    destruct (_identify_common_patterns_shape c)
      as (l1 & l2 & l3 & l4 & l5 & l6 & l7 & ->).
    reflexivity. }
  split; [exact H1|]. split.
  - intros self. apply H1.
  - intros c.
    destruct (_identify_common_patterns_shape c)
      as (l1 & l2 & l3 & l4 & l5 & l6 & l7 & ->).
    unfold RADFieldAnalyzer.pattern_blocks.
    destruct l1, l2, l3, l4, l5, l6, l7; cbn;
      intuition discriminate.
Qed.

(** ** Extraction on the sample rule functions *)


(** ** The matcher and the declarative reading of a pattern *)

Section RegexFacts.
Import Re.

Lemma consumed_app (w s' : str) : consumed (w ++ s') s' = w.
Proof.
  unfold consumed. rewrite length_app, Nat.add_sub.
  rewrite firstn_app, firstn_all, Nat.sub_diag. simpl. apply app_nil_r.
Qed.

Lemma star_greedy_sound R (p : ascii -> bool) (k : str -> option R) s x :
  star_greedy p k s = Some x ->
  exists w s', s = w ++ s' /\ forallb p w = true /\ k s' = Some x.
Proof.
  induction s as [|c s IH]; simpl; intros H.
  - exists [], []; auto.
  - destruct (p c) eqn:Hc.
    + destruct (star_greedy p k s) as [y|] eqn:E.
      * inversion H; subst y.
        destruct (IH eq_refl) as (w & s' & -> & Hw & Hk).
        exists (c :: w), s'; simpl; rewrite Hc, Hw; auto.
      * exists [], (c :: s); auto.
    + exists [], (c :: s); auto.
Qed.

Lemma star_lazy_sound R (p : ascii -> bool) (k : str -> option R) s x :
  star_lazy p k s = Some x ->
  exists w s', s = w ++ s' /\ forallb p w = true /\ k s' = Some x.
Proof.
  induction s as [|c s IH]; simpl; intros H.
  - destruct (k []) eqn:E; [|discriminate].
    exists [], []; rewrite E; auto.
  - destruct (k (c :: s)) eqn:E.
    + exists [], (c :: s); rewrite E; auto.
    + destruct (p c) eqn:Hc; [|discriminate].
      destruct (IH H) as (w & s' & -> & Hw & Hk).
      exists (c :: w), s'; simpl; rewrite Hc, Hw; auto.
Qed.

(** Whatever [run] returns, the continuation returned it after a match
    of the pattern on a prefix of the text. *)
Lemma run_sound R (r : regex) :
  forall s g (k : str -> captures -> option R) x,
    run r s g k = Some x ->
    exists w s' g', s = w ++ s' /\ matches r w g g' /\ k s' g' = Some x.
Proof.
  induction r as [|c|p|p|p|a IHa b IHb|a IHa b IHb|n a IHa|p];
    intros s g k x H; simpl in H.
  - exists [], s, g; repeat split; auto; constructor.
  - destruct s as [|y s]; [discriminate|].
    destruct (Ascii.eqb y c) eqn:E; [|discriminate].
    apply Ascii.eqb_eq in E; subst y.
    exists [c], s, g; repeat split; auto; constructor.
  - destruct s as [|y s]; [discriminate|].
    destruct (p y) eqn:E; [|discriminate].
    exists [y], s, g; repeat split; auto; constructor; exact E.
  - destruct (star_greedy_sound _ _ _ _ _ H) as (w & s' & -> & Hw & Hk).
    exists w, s', g; repeat split; auto; constructor; exact Hw.
  - destruct (star_lazy_sound _ _ _ _ _ H) as (w & s' & -> & Hw & Hk).
    exists w, s', g; repeat split; auto; constructor; exact Hw.
  - destruct (IHa _ _ _ _ H) as (w1 & s1 & g1 & -> & Ha & H1).
    destruct (IHb _ _ _ _ H1) as (w2 & s2 & g2 & -> & Hb & H2).
    exists (w1 ++ w2), s2, g2; repeat split; auto.
    + apply app_assoc.
    + econstructor; eauto.
  - destruct (run a s g k) as [y|] eqn:E.
    + inversion H; subst y.
      destruct (IHa _ _ _ _ E) as (w & s' & g' & -> & Ha & Hk).
      exists w, s', g'; repeat split; auto; apply M_AltL; exact Ha.
    + destruct (IHb _ _ _ _ H) as (w & s' & g' & -> & Hb & Hk).
      exists w, s', g'; repeat split; auto; apply M_AltR; exact Hb.
  - destruct (IHa _ _ _ _ H) as (w & s' & g' & -> & Ha & Hk).
    rewrite consumed_app in Hk.
    exists w, s', ((n, w) :: g'); repeat split; auto; constructor; exact Ha.
  - destruct (p s); [|discriminate].
    exists [], s, g; repeat split; auto; constructor.
Qed.

Lemma match_at_sound (r : regex) (s : str) (m : mtch) :
  match_at r s = Some m -> is_match r m.
Proof.
  unfold match_at, is_match. intros H.
  destruct (run_sound _ _ _ _ _ _ H) as (w & s' & g' & -> & Hm & Hk).
  rewrite consumed_app in Hk. inversion Hk; subst m. exact Hm.
Qed.

Lemma search_sound (r : regex) (s : str) (m : mtch) :
  search r s = Some m -> is_match r m.
Proof.
  induction s as [|c s IH]; simpl; intros H.
  - destruct (match_at r []) eqn:E; [|discriminate].
    inversion H; subst. eapply match_at_sound; eauto.
  - destruct (match_at r (c :: s)) eqn:E.
    + inversion H; subst. eapply match_at_sound; eauto.
    + auto.
Qed.

Lemma finditer_go_sound (r : regex) (s : str) :
  forall skip m, In m (finditer_go r s skip) -> is_match r m.
Proof.
  induction s as [|c s IH]; intros skip m; simpl.
  - destruct skip; [|intros []].
    destruct (match_at r []) eqn:E; [|intros []].
    intros [<-|[]]. eapply match_at_sound; eauto.
  - destruct skip as [|n]; [|apply IH].
    destruct (match_at r (c :: s)) eqn:E; [|apply IH].
    intros [<-|H]; [eapply match_at_sound; eauto|eapply IH; eauto].
Qed.

Lemma finditer_sound (r : regex) (s : str) (m : mtch) :
  In m (finditer r s) -> is_match r m.
Proof. apply finditer_go_sound. Qed.

(** Captures only grow, and a group that every match sets is set. *)
Lemma matches_sets (n : nat) r w g g' :
  matches r w g g' ->
  (exists t, group n g = Some t) \/ always_sets n r = true ->
  exists t, group n g' = Some t.
Proof.
  induction 1; simpl; intros Hn;
    try (destruct Hn as [Hn|Hn]; [exact Hn|discriminate]).
  - apply IHmatches2. destruct Hn as [Hn|Hn]; [left; auto|].
    apply orb_true_iff in Hn as [Hn|Hn]; [left; auto|right; exact Hn].
  - apply IHmatches. destruct Hn as [Hn|Hn]; [left; auto|].
    apply andb_true_iff in Hn as [Hn _]; right; exact Hn.
  - apply IHmatches. destruct Hn as [Hn|Hn]; [left; auto|].
    apply andb_true_iff in Hn as [_ Hn]; right; exact Hn.
  - destruct (n =? n0) eqn:E; [eexists; reflexivity|].
    apply IHmatches. destruct Hn as [Hn|Hn]; [left; exact Hn|].
    apply orb_true_iff in Hn as [Hn|Hn]; [|right; exact Hn].
    rewrite Nat.eqb_sym in Hn; congruence.
Qed.

Lemma matches_texts (P : str -> Prop) (n : nat) r w g g' :
  matches r w g g' ->
  group_texts P n r ->
  (forall t, group n g = Some t -> P t) ->
  forall t, group n g' = Some t -> P t.
Proof.
  induction 1; simpl; intros Hr Hg; auto.
  - destruct Hr; auto.
  - destruct Hr; auto.
  - destruct Hr; auto.
  - destruct Hr as [Hn Ha]. intros t.
    destruct (n =? n0) eqn:E.
    + apply Nat.eqb_eq in E; subst n0. intros Ht; inversion Ht; subst t.
      eapply Hn; eauto.
    + apply IHmatches; auto.
Qed.

Lemma group_texts_Lit (P : str -> Prop) (n : nat) (s : str) :
  group_texts P n (Lit s).
Proof. induction s; simpl; auto. Qed.

Lemma always_sets_Lit (n : nat) (s : str) : always_sets n (Lit s) = false.
Proof. induction s; simpl; auto. Qed.

Lemma matches_Plus (p : ascii -> bool) w g g' :
  matches (Plus p) w g g' -> forallb p w = true /\ w <> [].
Proof.
  unfold Plus. intros H. inversion H; subst.
  match goal with
  | H1 : matches (Cls p) _ _ _, H2 : matches (Star p) _ _ _ |- _ =>
      inversion H1; subst; inversion H2; subst
  end.
  simpl. split; [|discriminate].
  apply andb_true_iff; split; assumption.
Qed.

(** A match of [r] has its group [n] when every match of [r] sets it,
    and the text of the group satisfies [P] when the group encloses
    such texts only. *)
Lemma is_match_group (r : regex) (m : mtch) (n : nat) (P : str -> Prop) :
  is_match r m -> always_sets n r = true -> group_texts P n r ->
  exists t, group n (m_groups m) = Some t /\ P t.
Proof.
  intros Hm Hs Ht.
  destruct (matches_sets n _ _ _ _ Hm (or_intror Hs)) as [t E].
  exists t; split; [exact E|].
  eapply matches_texts; eauto. simpl; discriminate.
Qed.

End RegexFacts.

(** ** Entity type inference *)

Section Inference.
Import Re RADFieldAnalyzer.

Lemma is_word_Plus w g g' :
  matches (Plus word) w g g' -> is_word w = true.
Proof. intros H. apply (matches_Plus _ _ _ _ H). Qed.

(** A name without special characters is read as the literal name: no
    item but literal characters, no group. *)
Lemma word_not_special (c : ascii) :
  word c = true -> mem_char RePattern.special c = false.
Proof.
  destruct (mem_char RePattern.special c) eqn:E; [|reflexivity].
  unfold mem_char in E. apply existsb_exists in E as (x & Hx & Hc).
  apply Ascii.eqb_eq in Hc. subst x.
  cbn in Hx. intuition (subst; discriminate).
Qed.

Lemma is_word_plain (s : str) : is_word s = true -> RePattern.plain s = true.
Proof.
  unfold is_word, RePattern.plain. rewrite !forallb_forall.
  intros H c Hc. rewrite (word_not_special c (H c Hc)). reflexivity.
Qed.

Lemma items_regex_chars (s : str) (l : list regex) :
  seq (map RePattern.item_regex (map RePattern.I_chr s) ++ l)
  = List.fold_right (fun c r => Seq (Chr c) r) (seq l) s.
Proof. induction s as [|c s IH]; simpl; [reflexivity|]. rewrite IH. reflexivity. Qed.

Lemma Lit_fold (s : str) : Lit s = List.fold_right (fun c r => Seq (Chr c) r) Eps s.
Proof. induction s as [|c s IH]; simpl; [reflexivity|]. rewrite IH. reflexivity. Qed.

Lemma parse_plain (dot : ascii -> bool) (s : str) :
  RePattern.plain s = true ->
  forall cur open next,
    RePattern.parse dot s None cur open next
    = RePattern.parse dot [] None (rev (map RePattern.I_chr s) ++ cur) open next.
Proof.
  induction s as [|c s IH]; intros H cur open next; [reflexivity|].
  cbn [RePattern.plain forallb] in H. apply andb_true_iff in H as [Hc Hs].
  cbn [RePattern.parse]. rewrite Hc. rewrite (IH Hs).
  cbn [map rev]. rewrite <- app_assoc. reflexivity.
Qed.

Lemma read_name_plain (dot : ascii -> bool) (n : nat) (s : str) :
  RePattern.plain s = true -> RePattern.read_name dot n s = Ok (Lit s, n).
Proof.
  intros H. unfold RePattern.read_name. rewrite (parse_plain dot s H).
  cbn [RePattern.parse]. unfold RePattern.items_regex.
  rewrite app_nil_r, rev_involutive.
  rewrite <- (app_nil_r (map RePattern.item_regex _)), items_regex_chars.
  rewrite <- Lit_fold. reflexivity.
Qed.

Lemma filter_pattern_plain (entity_var : str) :
  RePattern.plain entity_var = true ->
  filter_pattern entity_var = Ok (filter_regex (Lit entity_var)).
Proof.
  intros H. unfold filter_pattern. rewrite (read_name_plain _ _ _ H). reflexivity.
Qed.

Lemma type_pattern_plain (entity_var : str) :
  RePattern.plain entity_var = true ->
  type_pattern entity_var = Ok (type_regex (Lit entity_var) 1).
Proof.
  intros H. unfold type_pattern. rewrite (read_name_plain _ _ _ H). reflexivity.
Qed.

Lemma filter_pattern_group (entity_var : str) (m : mtch) :
  is_match (filter_regex (Lit entity_var)) m ->
  exists t, group 1 (m_groups m) = Some t /\ is_word t = true.
Proof.
  intros Hm.
  apply (is_match_group _ _ 1 (fun t => is_word t = true) Hm).
  - reflexivity.
  - unfold filter_regex. cbn -[Lit].
    repeat split; auto using group_texts_Lit.
    intros _ w g g'. apply is_word_Plus.
Qed.

Lemma type_pattern_group (entity_var : str) (m : mtch) :
  is_match (type_regex (Lit entity_var) 1) m ->
  exists t, group 1 (m_groups m) = Some t /\ is_word t = true.
Proof.
  intros Hm.
  apply (is_match_group _ _ 1 (fun t => is_word t = true) Hm).
  - unfold type_regex. cbn -[Lit]. rewrite !always_sets_Lit. reflexivity.
  - unfold type_regex. cbn -[Lit].
    repeat split; auto using group_texts_Lit.
    intros _ w g g'. apply is_word_Plus.
Qed.

Lemma group_of_some (n : nat) (m : mtch) (t : str) :
  group n (m_groups m) = Some t -> group_of n m = Ok t.
Proof. unfold group_of. intros ->. reflexivity. Qed.

(** On a name made of word characters the inference returns a type. *)
Lemma _infer_entity_type_ok (code entity_var : str) :
  is_word entity_var = true ->
  exists t, _infer_entity_type code entity_var = Ok t.
Proof.
  intros Hw. unfold _infer_entity_type.
  rewrite (filter_pattern_plain _ (is_word_plain _ Hw)).
  rewrite (type_pattern_plain _ (is_word_plain _ Hw)).
  destruct (search (filter_regex (Lit entity_var)) code) as [m|] eqn:E1.
  { destruct (filter_pattern_group _ _ (search_sound _ _ _ E1)) as (t & Ht & _).
    exists t. apply group_of_some; exact Ht. }
  destruct (search (type_regex (Lit entity_var) 1) code) as [m|] eqn:E2.
  { destruct (type_pattern_group _ _ (search_sound _ _ _ E2)) as (t & Ht & _).
    exists t. apply group_of_some; exact Ht. }
  repeat match goal with
         | |- context [if ?b then _ else _] => destruct b
         end; eexists; reflexivity.
Qed.

End Inference.



(** C8, where the claim fails: the name [wsbv(] holds [wsbv], but a
    pattern that ends in an open group does not compile, so that
    [re.search] raises [re.error] and no type is returned, on every code
    text: one without any comparison in it, for instance. *)
Theorem infer_entity_type_open_group :
  contains "wsbv" (lower "wsbv(") = true
  /\ RADFieldAnalyzer.filter_pattern "wsbv(" = Raise ReError
  /\ contains "===" "return wsbv(site)" = false
  /\ RADFieldAnalyzer._infer_entity_type "return wsbv(site)" "wsbv("
     = Raise ReError
  /\ (forall code,
        RADFieldAnalyzer._infer_entity_type code "wsbv(" = Raise ReError).
Proof. repeat split. Qed.

(** A group in the name takes the place of group 1 in the second
    pattern, whose match then returns the text of the name. *)
Lemma infer_entity_type_group_in_name :
  RADFieldAnalyzer._infer_entity_type "wsbv.type === 'uce'" "(wsbv)"
  = Ok ("wsbv" : str).
Proof. reflexivity. Qed.

(** ** The extraction functions never raise *)

Section ExtractionTotal.
Import Re RADFieldAnalyzer.

Lemma bind_ok S A B (m : St.M S A) (f : A -> St.M S B) st a st' :
  m st = Ok (a, st') -> St.bind m f st = f a st'.
Proof. unfold St.bind. intros ->. reflexivity. Qed.

Lemma lift_ok S A (a : A) (st : S) : St.lift (Ok a) st = Ok (a, st).
Proof. reflexivity. Qed.

(** A loop whose body returns on every element returns. *)
Lemma foldM_ok S A B (body : A -> B -> St.M S B) (l : list A) :
  (forall x acc st, In x l -> exists acc' st', body x acc st = Ok (acc', st')) ->
  forall acc st, exists acc' st', St.foldM body l acc st = Ok (acc', st').
Proof.
  induction l as [|x l IH]; intros Hb acc st; simpl.
  - exists acc, st; reflexivity.
  - destruct (Hb x acc st (or_introl eq_refl)) as (acc1 & st1 & E).
    rewrite (bind_ok _ _ _ _ _ _ _ _ E).
    apply IH. intros y acc' st' Hy. apply Hb. right; exact Hy.
Qed.

Lemma groups1_ok (ms : list mtch) :
  (forall m, In m ms -> exists t, group 1 (m_groups m) = Some t) ->
  exists l, groups1 ms = Ok l.
Proof.
  induction ms as [|m ms IH]; intros H; simpl.
  - eexists; reflexivity.
  - destruct (H m (or_introl eq_refl)) as (t & Ht).
    rewrite (group_of_some _ _ _ Ht).
    destruct IH as (l & ->); [intros m' Hm'; apply H; right; exact Hm'|].
    eexists; reflexivity.
Qed.

Lemma findall1_field_pattern_ok (s : str) :
  exists l, findall1 field_pattern s = Ok l.
Proof.
  apply groups1_ok. intros m Hm.
  destruct (is_match_group _ _ 1 (fun _ => True) (finditer_sound _ _ _ Hm))
    as (t & Ht & _).
  - reflexivity.
  - cbn. tauto.
  - exists t; exact Ht.
Qed.

(** The groups of the patterns whose matches the loops walk. *)
Lemma entity_pick_groups (m : mtch) :
  is_match entity_pick_pattern m ->
  exists v fs, group 1 (m_groups m) = Some v /\ is_word v = true
               /\ group 2 (m_groups m) = Some fs.
Proof.
  intros Hm.
  destruct (is_match_group _ _ 1 (fun t => is_word t = true) Hm)
    as (v & Hv & Hw).
  - reflexivity.
  - cbn. repeat split; auto; try discriminate.
    intros _ w g g'. apply is_word_Plus.
  - destruct (is_match_group _ _ 2 (fun _ => True) Hm) as (fs & Hfs & _).
    + reflexivity.
    + cbn. tauto.
    + exists v, fs; auto.
Qed.

Lemma query_groups (m : mtch) :
  is_match query_pattern m -> exists t, group 1 (m_groups m) = Some t.
Proof.
  intros Hm.
  destruct (is_match_group _ _ 1 (fun _ => True) Hm) as (t & Ht & _).
  - reflexivity.
  - cbn. tauto.
  - exists t; exact Ht.
Qed.

Lemma prop_groups (m : mtch) :
  is_match prop_pattern m ->
  exists v p, group 1 (m_groups m) = Some v /\ is_word v = true
              /\ group 2 (m_groups m) = Some p.
Proof.
  intros Hm.
  destruct (is_match_group _ _ 1 (fun t => is_word t = true) Hm)
    as (v & Hv & Hw).
  - reflexivity.
  - cbn. repeat split; auto; try discriminate.
    intros _ w g g'. apply is_word_Plus.
  - destruct (is_match_group _ _ 2 (fun _ => True) Hm) as (p & Hp & _).
    + reflexivity.
    + cbn. tauto.
    + exists v, p; auto.
Qed.

Lemma destruct_groups (m : mtch) :
  is_match destruct_pattern m ->
  exists fs v, group 1 (m_groups m) = Some fs
               /\ group 2 (m_groups m) = Some v /\ is_word v = true.
Proof.
  intros Hm.
  destruct (is_match_group _ _ 2 (fun t => is_word t = true) Hm)
    as (v & Hv & Hw).
  - reflexivity.
  - cbn. repeat split; auto; try discriminate.
    intros _ w g g'. apply is_word_Plus.
  - destruct (is_match_group _ _ 1 (fun _ => True) Hm) as (fs & Hfs & _).
    + reflexivity.
    + cbn. tauto.
    + exists fs, v; auto.
Qed.

Ltac step_bind :=
  erewrite bind_ok;
  [|first [apply lift_ok | apply normalize_field_path_ok | reflexivity]];
  cbv beta.

Ltac step_with H := rewrite H; step_bind.

Lemma extract_entity_pick_fields_ok (code : str) (st : analyzer) :
  exists l st', extract_entity_pick_fields code st = Ok (l, st').
Proof.
  unfold extract_entity_pick_fields.
  apply foldM_ok. intros m acc st0 Hm.
  destruct (entity_pick_groups _ (finditer_sound _ _ _ Hm))
    as (v & fs & Hv & Hw & Hfs).
  destruct (findall1_field_pattern_ok fs) as (fields & Hfields).
  destruct (_infer_entity_type_ok code v Hw) as (t & Ht).
  step_with (group_of_some _ _ _ Hv). step_with (group_of_some _ _ _ Hfs).
  step_with Hfields. step_with Ht.
  apply foldM_ok. intros f acc1 st1 _.
  step_bind. step_bind.
  destruct t; (step_bind; eexists; eexists; reflexivity).
Qed.

Lemma extract_direct_property_access_ok (code : str) (st : analyzer) :
  exists l st', extract_direct_property_access code st = Ok (l, st').
Proof.
  unfold extract_direct_property_access.
  match goal with
  | |- exists l st', St.bind (St.foldM ?b ?ms ?a) _ ?s = _ =>
      assert (E : exists acc1 st1, St.foldM b ms a s = Ok (acc1, st1))
  end.
  { apply foldM_ok. intros m acc st0 Hm.
    destruct (query_groups _ (finditer_sound _ _ _ Hm)) as (t & Ht).
    step_with (group_of_some _ _ _ Ht).
    eexists; eexists; reflexivity. }
  destruct E as (acc1 & st1 & E1).
  rewrite (bind_ok _ _ _ _ _ _ _ _ E1).
  apply foldM_ok. intros m acc st0 Hm.
  destruct (prop_groups _ (finditer_sound _ _ _ Hm)) as (v & p & Hv & Hw & Hp).
  destruct (_infer_entity_type_ok code v Hw) as (t & Ht).
  step_with (group_of_some _ _ _ Hv). step_with (group_of_some _ _ _ Hp).
  destruct (mem_str v not_entity_vars).
  - eexists; eexists; reflexivity.
  - step_with Ht. step_bind.
    destruct (negb (eqb_str t "unknown"));
      (step_bind; eexists; eexists; reflexivity).
Qed.

Lemma extract_destructuring_patterns_ok (code : str) (st : analyzer) :
  exists l st', extract_destructuring_patterns code st = Ok (l, st').
Proof.
  unfold extract_destructuring_patterns.
  apply foldM_ok. intros m acc st0 Hm.
  destruct (destruct_groups _ (finditer_sound _ _ _ Hm))
    as (fs & v & Hfs & Hv & Hw).
  destruct (_infer_entity_type_ok code v Hw) as (t & Ht).
  step_with (group_of_some _ _ _ Hfs). step_with (group_of_some _ _ _ Hv).
  step_with Ht.
  apply foldM_ok. intros f acc1 st1 _.
  step_bind.
  destruct (negb (eqb_str t "unknown"));
    (step_bind; eexists; eexists; reflexivity).
Qed.

End ExtractionTotal.

(** C7.  On every text and in every analyzer state, each of the three
    extraction functions returns a list of records: none of the
    exceptions of the model is raised (a group is always there when it is
    read, and a name spliced into the patterns of [_infer_entity_type] is
    always a run of word characters).  Malformed text gives no match: the
    empty text, an [entityPick] call that is never closed, a destructuring
    without its closing brace and a property access that no operator
    follows all give the empty list and leave the state as it is. *)
Theorem extraction_never_raises :
  (forall code st,
      (exists l st', RADFieldAnalyzer.extract_entity_pick_fields code st = Ok (l, st'))
      /\ (exists l st',
             RADFieldAnalyzer.extract_direct_property_access code st = Ok (l, st'))
      /\ (exists l st',
             RADFieldAnalyzer.extract_destructuring_patterns code st = Ok (l, st'))) /\
  (forall st,
      RADFieldAnalyzer.extract_entity_pick_fields [] st = Ok ([], st)
      /\ RADFieldAnalyzer.extract_direct_property_access [] st = Ok ([], st)
      /\ RADFieldAnalyzer.extract_destructuring_patterns [] st = Ok ([], st)) /\
  (forall st,
      RADFieldAnalyzer.extract_entity_pick_fields
        "entityPick(entity, ['accountId', 'entitlementData'" st = Ok ([], st)
      /\ RADFieldAnalyzer.extract_direct_property_access "site.features.widgets" st
         = Ok ([], st)
      /\ RADFieldAnalyzer.extract_destructuring_patterns
           "const { accountId, features = site;" st = Ok ([], st)).
Proof.
  split; [|split].
  - intros code st. split; [|split].
    + apply extract_entity_pick_fields_ok.
    + apply extract_direct_property_access_ok.
    + apply extract_destructuring_patterns_ok.
  - intros st. repeat split; vm_compute; reflexivity.
  - intros st. repeat split; vm_compute; reflexivity.
Qed.

(** ** Section splitting *)

Section Splitting.
Import RADFieldAnalyzer.

Lemma split_go_length (sep s : str) :
  forall skip cur, length (split_go sep s skip cur) = S (count_go sep s skip).
Proof.
  induction s as [|c s IH]; intros skip cur; simpl; [reflexivity|].
  destruct skip as [|n]; [|apply IH].
  destruct (startswith sep (c :: s)); simpl; rewrite IH; reflexivity.
Qed.

Lemma split_length (sep s : str) : length (split sep s) = S (count sep s).
Proof. apply split_go_length. Qed.

Lemma tl_split_length (sep s : str) : length (tl (split sep s)) = count sep s.
Proof.
  pose proof (split_length sep s) as H.
  destruct (split sep s); simpl in *; lia.
Qed.

Lemma split_nonempty (sep s : str) : exists x l, split sep s = x :: l.
Proof.
  pose proof (split_length sep s) as H.
  destruct (split sep s) as [|x l]; [discriminate|]. exists x, l; reflexivity.
Qed.

(** An occurrence is found when there is one. *)
Lemma index_of_app (sub x c : str) :
  exists i, index_of sub (x ++ sub ++ c) = Some i /\ i <= length x.
Proof.
  induction x as [|y x (i & Hi & Hle)]; simpl.
  - exists 0. split; [|lia].
    destruct (sub ++ c) eqn:E; simpl; rewrite <- E, startswith_app; reflexivity.
  - destruct (startswith sub (y :: x ++ sub ++ c)).
    + exists 0; split; [reflexivity|lia].
    + rewrite Hi. exists (S i); split; [reflexivity|lia].
Qed.

Lemma find_from (sub s : str) (n i : nat) :
  n <= length s -> index_of sub (skipn n s) = Some i ->
  find sub s (Z.of_nat n) = Z.of_nat (n + i).
Proof.
  intros Hn Hi. unfold find.
  destruct (Z.ltb_spec (Z.of_nat n) 0); [lia|].
  destruct (Z.ltb_spec (Z.of_nat (length s)) (Z.of_nat n)); [lia|].
  rewrite Nat2Z.id, Hi. lia.
Qed.

Lemma find_fences (section : str) :
  has_fence section ->
  exists i j,
    find fence_open section 0 = Z.of_nat i
    /\ find fence section (Z.of_nat i + 1) = Z.of_nat j.
Proof.
  intros (a & b & c & ->).
  destruct (index_of_app fence_open a (b ++ fence ++ c)) as (i & Hi & Hle).
  assert (Hskip : skipn (S i) (a ++ fence_open ++ b ++ fence ++ c)
                  = skipn (S i) (a ++ fence_open ++ b) ++ fence ++ c).
  { replace (a ++ fence_open ++ b ++ fence ++ c)
      with ((a ++ fence_open ++ b) ++ fence ++ c)
      by (rewrite <- !app_assoc; reflexivity).
    rewrite skipn_app.
    replace (S i - length (a ++ fence_open ++ b)) with 0; [reflexivity|].
    rewrite !length_app. change (length fence_open) with 13. lia. }
  destruct (index_of_app fence (skipn (S i) (a ++ fence_open ++ b)) c)
    as (j & Hj & _).
  exists (0 + i), (S i + j). split.
  - apply (find_from fence_open _ 0 i); [lia|exact Hi].
  - replace (Z.of_nat (0 + i) + 1)%Z with (Z.of_nat (S i)) by lia.
    apply find_from.
    + rewrite !length_app. change (length fence_open) with 13. lia.
    + rewrite Hskip. exact Hj.
Qed.

Lemma parse_section_fenced (section : str) :
  has_fence section ->
  exists code, parse_section section = Some (section_name section, code).
Proof.
  intros H. destruct (find_fences _ H) as (i & j & Hi & Hj).
  unfold parse_section, section_name.
  destruct (split_nonempty nl (strip section)) as (x & l & ->). simpl hd.
  rewrite Hi, Hj.
  replace (Z.of_nat i =? -1)%Z with false by (symmetry; apply Z.eqb_neq; lia).
  replace (Z.of_nat j =? -1)%Z with false by (symmetry; apply Z.eqb_neq; lia).
  simpl. eexists; reflexivity.
Qed.

Lemma filter_map_all {A B} (f : A -> option (str * B)) (g : A -> str) (l : list A) :
  (forall x, In x l -> exists y, f x = Some (g x, y)) ->
  length (filter_map f l) = length l /\ map fst (filter_map f l) = map g l.
Proof.
  induction l as [|x l IH]; intros H; simpl; [auto|].
  destruct (H x (or_introl eq_refl)) as (y & ->). simpl.
  destruct IH as [IH1 IH2]; [intros z Hz; apply H; right; exact Hz|].
  rewrite IH1, IH2. auto.
Qed.

End Splitting.

Section HeaderLine.

Lemma takewhile_dropwhile (q : ascii -> bool) (s : str) :
  s = takewhile q s ++ dropwhile q s.
Proof.
  induction s as [|c s IH]; simpl; [reflexivity|].
  destruct (q c); simpl; [f_equal; exact IH|reflexivity].
Qed.

Lemma takewhile_all (q : ascii -> bool) (s : str) :
  forallb q (takewhile q s) = true.
Proof.
  induction s as [|c s IH]; simpl; [reflexivity|].
  destruct (q c) eqn:E; simpl; [rewrite E; exact IH|reflexivity].
Qed.

Lemma takewhile_stop (q : ascii -> bool) (y t : str) :
  forallb q y = true ->
  match t with c :: _ => q c = false | [] => True end ->
  takewhile q (y ++ t) = y.
Proof.
  induction y as [|c y IH]; simpl; intros Hy Ht.
  - destruct t as [|c t]; simpl; [reflexivity|]. rewrite Ht; reflexivity.
  - apply andb_true_iff in Hy as [Hc Hy]. rewrite Hc, IH; auto.
Qed.

Lemma takewhile_id (q : ascii -> bool) (y : str) :
  forallb q y = true -> takewhile q y = y.
Proof.
  intros H. rewrite <- (app_nil_r y) at 1. apply takewhile_stop; simpl; auto.
Qed.

Lemma dropwhile_head (q : ascii -> bool) (s : str) :
  match dropwhile q s with c :: _ => q c = false | [] => True end.
Proof. destruct (dropwhile_split q s) as (a & _ & _ & H); exact H. Qed.

Lemma dropwhile_stop (p : ascii -> bool) (c : ascii) (s : str) :
  p c = false -> dropwhile p (c :: s) = c :: s.
Proof. simpl. intros ->. reflexivity. Qed.

Lemma rstrip_by_prefix (p : ascii -> bool) (s : str) :
  exists b, s = rstrip_by p s ++ b.
Proof.
  unfold rstrip_by.
  destruct (dropwhile_split p (rev s)) as (a & Ha & _ & _).
  exists (rev a). rewrite <- rev_app_distr, <- Ha, rev_involutive. reflexivity.
Qed.

Lemma rstrip_by_idem (p : ascii -> bool) (s : str) :
  rstrip_by p (rstrip_by p s) = rstrip_by p s.
Proof.
  unfold rstrip_by. rewrite rev_involutive. f_equal.
  pose proof (dropwhile_head p (rev s)) as H.
  destruct (dropwhile p (rev s)) as [|c t]; [reflexivity|].
  apply dropwhile_stop; exact H.
Qed.

Lemma rstrip_by_cons (p : ascii -> bool) (c : ascii) (s : str) :
  p c = false -> exists z, rstrip_by p (c :: s) = c :: z.
Proof.
  intros Hc. change (c :: s) with ([c] ++ s). rewrite rstrip_by_app.
  destruct (forallb p s).
  - exists []. unfold rstrip_by. simpl. rewrite Hc. reflexivity.
  - eexists; reflexivity.
Qed.

Lemma startswith_nl (c : ascii) (s : str) :
  startswith nl (c :: s) = Ascii.eqb "010"%char c.
Proof. unfold nl. cbn [startswith]. apply andb_true_r. Qed.

Lemma hd_split_go_nl (s : str) :
  forall cur, hd [] (split_go nl s 0 cur) = rev cur ++ first_line s.
Proof.
  unfold first_line, not_newline.
  induction s as [|c s IH]; intros cur; cbn [split_go takewhile].
  - cbn [hd]. rewrite app_nil_r; reflexivity.
  - rewrite startswith_nl.
    destruct (Ascii.eqb "010"%char c); cbn [negb hd].
    + rewrite app_nil_r; reflexivity.
    + rewrite IH. cbn [rev]. rewrite <- app_assoc. reflexivity.
Qed.

Lemma hd_split_nl (s : str) : hd [] (split nl s) = first_line s.
Proof. apply hd_split_go_nl. Qed.

(** When the header line has a character that is not white space, the
    name of the section is the header line, stripped. *)
Lemma section_name_header_line (section : str) :
  forallb is_space (first_line section) = false ->
  section_name section = strip (first_line section).
Proof.
  intros Hblank.
  unfold section_name. rewrite hd_split_nl.
  pose proof (takewhile_dropwhile not_newline section) as Hsec.
  fold (first_line section) in Hsec.
  pose proof (takewhile_all not_newline section) as Hnl.
  fold (first_line section) in Hnl.
  pose proof (dropwhile_head not_newline section) as Hrest.
  set (X := first_line section) in *.
  set (R := dropwhile not_newline section) in *.
  destruct (dropwhile_split is_space X) as (ws & HX & Hws & Hhead).
  destruct (dropwhile is_space X) as [|c Y'] eqn:EY.
  { rewrite app_nil_r in HX. rewrite HX, Hws in Hblank. discriminate. }
  assert (HY : forallb not_newline (c :: Y') = true).
  { rewrite HX, forallb_app in Hnl. apply andb_true_iff in Hnl; tauto. }
  assert (HstripX : strip X = rstrip_by is_space (c :: Y')).
  { unfold strip, strip_by, lstrip_by. rewrite EY. reflexivity. }
  assert (Hstrip : strip section
                   = if forallb is_space R then rstrip_by is_space (c :: Y')
                     else (c :: Y') ++ rstrip_by is_space R).
  { unfold strip, strip_by, lstrip_by. rewrite Hsec at 1.
    rewrite dropwhile_app, Hblank, EY. apply rstrip_by_app. }
  rewrite Hstrip, HstripX.
  destruct (forallb is_space R) eqn:ER.
  - destruct (rstrip_by_prefix is_space (c :: Y')) as (b & Hb).
    destruct (rstrip_by_cons is_space c Y' Hhead) as (z & Hz).
    unfold first_line. rewrite takewhile_id.
    + unfold strip, strip_by, lstrip_by. rewrite Hz.
      rewrite (dropwhile_stop _ _ _ Hhead), <- Hz. apply rstrip_by_idem.
    + rewrite Hb, forallb_app in HY. apply andb_true_iff in HY; tauto.
  - destruct R as [|r0 R']; [discriminate|].
    assert (Hr0 : r0 = "010"%char).
    { unfold not_newline in Hrest. apply negb_false_iff in Hrest.
      apply Ascii.eqb_eq in Hrest. congruence. }
    subst r0.
    change ("010"%char :: R') with (["010"%char] ++ R') at 1.
    rewrite rstrip_by_app.
    simpl in ER. rewrite ER.
    unfold first_line. simpl app at 2.
    rewrite takewhile_stop; [|exact HY|reflexivity].
    unfold strip, strip_by, lstrip_by.
    rewrite (dropwhile_stop _ _ _ Hhead). reflexivity.
Qed.

End HeaderLine.

(** C3, as amended.  When every section of the document (the text
    between one ["## "] marker and the next, or the end) holds a
    [```javascript] fence and a closing fence after it,
    [parse_rad_file] returns one pair per marker, in order: as many pairs
    as there are occurrences of the marker; the name of a pair is the
    first line of the section after the section has been stripped, itself
    stripped; this is the stripped header line whenever the header line
    is not blank. *)
Theorem parse_rad_file_one_pair_per_header (content : str) :
  let sections := tl (split "## " content) in
  (forall section, In section sections -> has_fence section) ->
  length (RADFieldAnalyzer.parse_rad_file content) = count "## " content
  /\ map fst (RADFieldAnalyzer.parse_rad_file content) = map section_name sections
  /\ ((forall section, In section sections ->
         forallb is_space (first_line section) = false) ->
      map fst (RADFieldAnalyzer.parse_rad_file content)
      = map (fun section => strip (first_line section)) sections).
Proof.
  intros sections Hf.
  destruct (filter_map_all RADFieldAnalyzer.parse_section section_name sections)
    as [Hlen Hnames].
  { intros section Hs. destruct (parse_section_fenced _ (Hf _ Hs)) as (code & E).
    exists code; exact E. }
  unfold RADFieldAnalyzer.parse_rad_file. fold sections.
  split; [|split].
  - rewrite Hlen. apply tl_split_length.
  - exact Hnames.
  - intros Hb. rewrite Hnames. apply map_ext_in.
    intros section Hs. apply section_name_header_line, Hb, Hs.
Qed.

Lemma parse_rad_file_one_pair_per_header_witness :
  length (RADFieldAnalyzer.parse_rad_file two_sections) = 2
  /\ map fst (RADFieldAnalyzer.parse_rad_file two_sections)
     = ["Task-A" : str; "Task-B" : str].
Proof.
  assert (Hf : forall section,
             In section (tl (split "## " two_sections)) -> has_fence section).
  { intros section Hs. vm_compute in Hs. destruct Hs as [<-|[<-|[]]].
    - exists ("Task-A" ++ nl), (nl ++ "profile => []" ++ nl), (nl ++ nl).
      reflexivity.
    - exists ("Task-B" ++ nl), (nl ++ "profile => [1]" ++ nl), nl.
      reflexivity. }
  destruct (parse_rad_file_one_pair_per_header two_sections Hf)
    as (Hlen & _ & Hnames).
  split.
  - rewrite Hlen. reflexivity.
  - rewrite Hnames; [reflexivity|].
    intros section Hs. vm_compute in Hs.
    destruct Hs as [<-|[<-|[]]]; reflexivity.
Defined.

(** C3, the claim as stated fails: with a blank header line the name
    does not come from the header line but from the first line below it
    that is not blank. *)
Lemma parse_rad_file_name_below_blank_header :
  count "## " blank_header = 1
  /\ (forall section, In section (tl (split "## " blank_header)) ->
        has_fence section)
  /\ RADFieldAnalyzer.parse_rad_file blank_header = [("foo" : str, "x" : str)]
  /\ map (fun section => strip (first_line section))
         (tl (split "## " blank_header)) = [[]]
  /\ map fst (RADFieldAnalyzer.parse_rad_file blank_header)
     <> map (fun section => strip (first_line section))
            (tl (split "## " blank_header)).
Proof.
  split; [reflexivity|]. split.
  - intros section Hs. vm_compute in Hs. destruct Hs as [<-|[]].
    exists (nl ++ "foo" ++ nl), (nl ++ "x" ++ nl), []. reflexivity.
  - split; [reflexivity|]. split; [reflexivity|].
    vm_compute. discriminate.
Qed.

(** ** Zero sections *)

(** C1.  A document without any ["## "] marker gives the report of an
    analyzer that has analyzed nothing: no synthesizer, zero counts, empty
    tables.  [generate_comprehensive_report] (with its markdown
    rendering) and [generate_unique_data_report] return their zero-count
    output on it.  [create_visual_summary] does not: on every report
    without field accesses, so on every report without synthesizers,
    [max(field_usage.values())] is taken of an empty sequence and the
    function raises [ValueError] before it has returned anything. *)
Theorem zero_sections_visual_summary_raises :
  (forall content, count "## " content = 0 ->
     RADFieldAnalyzer.run_main content = Ok empty_report) /\
  RADFieldAnalyzer.synthesizer_details empty_report = [] /\
  RADFieldAnalyzer.total_synthesizers (RADFieldAnalyzer.summary empty_report) = 0 /\
  RADFieldAnalyzer.export_report_markdown empty_report = empty_markdown /\
  (forall r, RADFieldAnalyzer.synthesizer_details r = [] ->
     UniqueDataAnalyzer.generate_unique_data_report
       (UniqueDataAnalyzer.analyze_report r UniqueDataAnalyzer.init)
     = empty_unique_data_report) /\
  (forall r, RADFieldAnalyzer.synthesizer_details r = [] ->
     DataSummary.create_visual_summary r = Raise ValueError).
Proof.
  split; [|split; [|split; [|split; [|split]]]].
  - intros content H.
    unfold RADFieldAnalyzer.run_main, RADFieldAnalyzer.parse_rad_file.
    pose proof (tl_split_length "## " content) as Hl. rewrite H in Hl.
    destruct (tl (split "## " content)); [|discriminate]. reflexivity.
  - reflexivity.
  - reflexivity.
  - vm_compute. reflexivity.
  - intros r H. unfold UniqueDataAnalyzer.analyze_report. rewrite H.
    vm_compute. reflexivity.
  - intros r H.
    unfold DataSummary.create_visual_summary, DataSummary.collect.
    rewrite H. reflexivity.
Qed.

Lemma zero_sections_visual_summary_raises_witness :
  RADFieldAnalyzer.run_main "# No rules yet" = Ok empty_report
  /\ DataSummary.create_visual_summary empty_report = Raise ValueError.
Proof.
  split.
  - apply (proj1 zero_sections_visual_summary_raises). reflexivity.
  - apply (proj2 (proj2 (proj2 (proj2 (proj2 zero_sections_visual_summary_raises))))).
    reflexivity.
Defined.

(** * Further properties *)

(** ** Loops over the analyzer state *)

Section StateFacts.
Import Re RADFieldAnalyzer.

(** What holds of the accumulator and the state before a loop, and is
    kept by its body, holds after it. *)
Lemma foldM_inv S A B (I : B -> S -> Prop) (body : A -> B -> St.M S B)
      (l : list A) :
  (forall x acc st acc' st',
      In x l -> I acc st -> body x acc st = Ok (acc', st') -> I acc' st') ->
  forall acc st acc' st',
    I acc st -> St.foldM body l acc st = Ok (acc', st') -> I acc' st'.
Proof.
  induction l as [|x l IH]; intros Hb acc st acc' st' Hi H; simpl in H.
  - inversion H; subst; exact Hi.
  - unfold St.bind in H.
    destruct (body x acc st) as [[acc1 st1]|e] eqn:E; [|discriminate].
    eapply IH; [|eapply Hb; [left; reflexivity|exact Hi|exact E]|exact H].
    intros y a s a' s' Hy. apply Hb. right; exact Hy.
Qed.

Lemma bind_inv S A B (m : St.M S A) (f : A -> St.M S B) st b st' :
  St.bind m f st = Ok (b, st') ->
  exists a st1, m st = Ok (a, st1) /\ f a st1 = Ok (b, st').
Proof.
  unfold St.bind. destruct (m st) as [[a st1]|e]; [|discriminate].
  intros H. exists a, st1; auto.
Qed.

Lemma lift_inv S A (r : result A) (st : S) a st' :
  St.lift r st = Ok (a, st') -> r = Ok a /\ st' = st.
Proof.
  unfold St.lift. destruct r; [|discriminate].
  intros H; inversion H; subst; auto.
Qed.

Lemma mem_str_In (x : str) (l : list str) : mem_str x l = true <-> In x l.
Proof.
  unfold mem_str. rewrite existsb_exists. split.
  - intros (y & Hy & E). apply eqb_str_eq in E; subst; exact Hy.
  - intros H. exists x; split; [exact H|apply eqb_str_refl].
Qed.

Lemma set_add_In (x y : str) (s : list str) :
  In y (set_add x s) <-> y = x \/ In y s.
Proof.
  unfold set_add. destruct (mem_str x s) eqn:E.
  - apply mem_str_In in E. split; [auto|intros [->|H]; auto].
  - rewrite in_app_iff. simpl. intuition.
Qed.

Lemma set_add_NoDup (x : str) (s : list str) : NoDup s -> NoDup (set_add x s).
Proof.
  intros H. unfold set_add. destruct (mem_str x s) eqn:E; [exact H|].
  assert (Hx : ~ In x s) by (rewrite <- mem_str_In; congruence).
  clear E. induction H as [|y s Hy Hs IH]; simpl.
  - constructor; [intros []|constructor].
  - constructor.
    + rewrite in_app_iff. simpl. intros [H|[H|[]]]; [auto|].
      apply Hx; left; symmetry; exact H.
    + apply IH. intros H; apply Hx; right; exact H.
Qed.

(** [d[k].add(v)] puts [v] under [k] and keeps what was there. *)
Lemma dd_add_mem (k v : str) (d : list (str * list str)) : dd_mem k v (dd_add k v d).
Proof.
  unfold dd_mem. induction d as [|[k' s] d IH]; simpl.
  - rewrite eqb_str_refl. exists [v]; simpl; auto.
  - destruct (eqb_str k k') eqn:E; simpl; rewrite E.
    + exists (set_add v s). split; [reflexivity|]. apply set_add_In; auto.
    + exact IH.
Qed.

Lemma dd_add_keeps (k v k0 v0 : str) (d : list (str * list str)) :
  dd_mem k0 v0 d -> dd_mem k0 v0 (dd_add k v d).
Proof.
  unfold dd_mem. induction d as [|[k' s] d IH]; simpl; intros (s0 & Hl & Hin).
  - discriminate.
  - destruct (eqb_str k k') eqn:E; simpl.
    + destruct (eqb_str k0 k') eqn:E0.
      * inversion Hl; subst s0. exists (set_add v s); split; [reflexivity|].
        apply set_add_In; auto.
      * exists s0; auto.
    + destruct (eqb_str k0 k') eqn:E0.
      * exists s0; auto.
      * apply IH. exists s0; auto.
Qed.

End StateFacts.

(** ** Records of the extraction functions *)

Section Records.
Import Re RADFieldAnalyzer.

Lemma is_match_group_text (r : regex) (m : mtch) (n : nat) (P : str -> Prop) t :
  is_match r m -> group_texts P n r -> group n (m_groups m) = Some t -> P t.
Proof.
  intros Hm Hr Ht. eapply matches_texts; eauto. simpl; discriminate.
Qed.

Lemma word_run_Plus w g g' :
  matches (Plus word) w g g' -> is_word w = true /\ w <> [].
Proof. apply matches_Plus. Qed.

Lemma filter_pattern_texts (entity_var : str) :
  group_texts (fun t => is_word t = true /\ t <> []) 1
              (filter_regex (Lit entity_var)).
Proof.
  unfold filter_regex. cbn -[Lit].
  repeat split; auto using group_texts_Lit; apply (word_run_Plus _ _ _ H0).
Qed.

Lemma type_pattern_texts (entity_var : str) :
  group_texts (fun t => is_word t = true /\ t <> []) 1
              (type_regex (Lit entity_var) 1).
Proof.
  unfold type_regex. cbn -[Lit].
  repeat split; auto using group_texts_Lit; apply (word_run_Plus _ _ _ H0).
Qed.

Lemma group_of_inv (n : nat) (m : mtch) (t : str) :
  group_of n m = Ok t -> group n (m_groups m) = Some t.
Proof.
  unfold group_of. destruct (group n (m_groups m)); [|discriminate].
  intros H; inversion H; reflexivity.
Qed.

Lemma _infer_entity_type_word (code entity_var t : str) :
  is_word entity_var = true ->
  _infer_entity_type code entity_var = Ok t -> is_word t = true /\ t <> [].
Proof.
  intros Hw. unfold _infer_entity_type.
  rewrite (filter_pattern_plain _ (is_word_plain _ Hw)).
  rewrite (type_pattern_plain _ (is_word_plain _ Hw)).
  destruct (search (filter_regex (Lit entity_var)) code) as [m|] eqn:E1.
  { intros H. apply group_of_inv in H.
    exact (is_match_group_text _ _ _ _ _ (search_sound _ _ _ E1)
             (filter_pattern_texts entity_var) H). }
  destruct (search (type_regex (Lit entity_var) 1) code) as [m|] eqn:E2.
  { intros H. apply group_of_inv in H.
    exact (is_match_group_text _ _ _ _ _ (search_sound _ _ _ E2)
             (type_pattern_texts entity_var) H). }
  repeat match goal with
         | |- context [if ?b then _ else _] => destruct b
         end;
    intros H; inversion H; subst; split; (reflexivity || discriminate).
Qed.

(** The variable that a loop passes to [_infer_entity_type] is a group
    [(\w+)] of the match it walks. *)
Lemma entity_pick_var_word (m : mtch) (v : str) :
  is_match entity_pick_pattern m -> group_of 1 m = Ok v -> is_word v = true.
Proof.
  intros Hm Hv. apply group_of_inv in Hv.
  destruct (entity_pick_groups m Hm) as (v' & fs & Hv' & Hw & _).
  congruence.
Qed.

Lemma prop_var_word (m : mtch) (v : str) :
  is_match prop_pattern m -> group_of 1 m = Ok v -> is_word v = true.
Proof.
  intros Hm Hv. apply group_of_inv in Hv.
  destruct (prop_groups m Hm) as (v' & fs & Hv' & Hw & _).
  congruence.
Qed.

Lemma destruct_var_word (m : mtch) (v : str) :
  is_match destruct_pattern m -> group_of 2 m = Ok v -> is_word v = true.
Proof.
  intros Hm Hv. apply group_of_inv in Hv.
  destruct (destruct_groups m Hm) as (fs & v' & _ & Hv' & Hw).
  congruence.
Qed.

End Records.

(** X1.  For a variable name made of word characters,
    [_infer_entity_type] returns an entity type that is a non-empty run
    of word characters: a [(\w+)] capture of one of its two patterns, or
    one of [wsbvnext], [mktgasst], [uce], [unknown].  So the test
    [if entity_type:] of [extract_entity_pick_fields] never fails. *)
Theorem infer_entity_type_is_word (code entity_var : str) :
  RADFieldAnalyzer.is_word entity_var = true ->
  exists t, RADFieldAnalyzer._infer_entity_type code entity_var = Ok t
            /\ RADFieldAnalyzer.is_word t = true /\ t <> [].
Proof.
  intros Hw. destruct (_infer_entity_type_ok code entity_var Hw) as (t & Ht).
  exists t. split; [exact Ht|]. eapply _infer_entity_type_word; eauto.
Qed.

Lemma infer_entity_type_is_word_witness :
  exists t, RADFieldAnalyzer._infer_entity_type sample_rule "entity" = Ok t
            /\ RADFieldAnalyzer.is_word t = true /\ t <> [].
Proof.
  apply (infer_entity_type_is_word sample_rule "entity"). reflexivity.
Defined.

Section PickRecords.
Import Re RADFieldAnalyzer.

Lemma path_state_all_fields (f : str) (st : analyzer) :
  self_all_fields (path_state f st) = self_all_fields st.
Proof.
  unfold path_state.
  destruct (first_prefix normalizations _) as [[old new]|]; reflexivity.
Qed.

Lemma path_state_field_by_entity (f : str) (st : analyzer) :
  self_field_by_entity (path_state f st) = self_field_by_entity st.
Proof.
  unfold path_state.
  destruct (first_prefix normalizations _) as [[old new]|]; reflexivity.
Qed.

Lemma path_state_results (f : str) (st : analyzer) :
  self_results (path_state f st) = self_results st.
Proof.
  unfold path_state.
  destruct (first_prefix normalizations _) as [[old new]|]; reflexivity.
Qed.

Lemma path_state_entity_types (f : str) (st : analyzer) :
  self_entity_types (path_state f st) = self_entity_types st.
Proof.
  unfold path_state.
  destruct (first_prefix normalizations _) as [[old new]|]; reflexivity.
Qed.

(** A record that is in order stays so when the sets of the state grow. *)
Lemma pick_record_ok_mono (st st' : analyzer) (fa : field_access) :
  (forall x, In x (self_all_fields st) -> In x (self_all_fields st')) ->
  (forall k v, dd_mem k v (self_field_by_entity st) ->
               dd_mem k v (self_field_by_entity st')) ->
  pick_record_ok st fa -> pick_record_ok st' fa.
Proof.
  intros H1 H2 (A & B & C & D & E & F & G & H).
  repeat split; auto.
Qed.

Lemma groups1_inv (ms : list mtch) (l : list str) :
  groups1 ms = Ok l ->
  forall t, In t l -> exists m, In m ms /\ group 1 (m_groups m) = Some t.
Proof.
  revert l; induction ms as [|m ms IH]; intros l H t Ht; simpl in H.
  - inversion H; subst. destruct Ht.
  - destruct (group_of 1 m) as [t0|e] eqn:E; [|discriminate].
    destruct (groups1 ms) as [ts|e]; [|discriminate].
    inversion H; subst l. destruct Ht as [<-|Ht].
    + exists m; split; [left; reflexivity|apply group_of_inv; exact E].
    + destruct (IH ts eq_refl t Ht) as (m' & Hm' & Hg).
      exists m'; split; [right; exact Hm'|exact Hg].
Qed.

(** What [re.findall] returns for [field_pattern]: the texts between two
    quote characters, not empty and without a quote character. *)
Lemma findall1_field_pattern_texts (s : str) (fields : list str) :
  findall1 field_pattern s = Ok fields ->
  forall f, In f fields -> f <> [] /\ forallb (none_of quotes3) f = true.
Proof.
  intros H f Hf.
  destruct (groups1_inv _ _ H f Hf) as (m & Hm & Hg).
  refine (is_match_group_text _ _ 1
            (fun t => t <> [] /\ forallb (none_of quotes3) t = true) f
            (finditer_sound _ _ _ Hm) _ Hg).
  cbn. repeat split; auto; try discriminate;
    destruct (matches_Plus _ _ _ _ H1); assumption.
Qed.

(** One round of the inner loop of [extract_entity_pick_fields]. *)
Lemma pick_inner_step (t f : str) (acc : list field_access) (st : analyzer)
      acc' st' :
  t <> [] ->
  St.bind (normalize_field_path f) (fun normalized =>
    St.bind (add_all_fields normalized) (fun _ =>
    St.bind (match t with
             | [] => St.ret tt
             | _ => add_field_by_entity t normalized
             end) (fun _ =>
    St.ret (acc ++ [{| field := f; normalized := normalized;
                       entity_type := t; access_method := "entityPick" |}]))))
    st = Ok (acc', st') ->
  acc' = acc ++ [{| field := f; normalized := path_value f;
                    entity_type := t; access_method := "entityPick" |}]
  /\ self_all_fields st' = set_add (path_value f) (self_all_fields st)
  /\ self_field_by_entity st'
     = dd_add t (path_value f) (self_field_by_entity st)
  /\ self_results st' = self_results st
  /\ self_entity_types st' = self_entity_types st.
Proof.
  intros Ht H.
  erewrite bind_ok in H by apply normalize_field_path_ok. cbv beta in H.
  destruct t as [|c t]; [congruence|].
  unfold St.bind, add_all_fields, add_field_by_entity, St.modify, St.ret in H.
  inversion H; subst; cbn [self_all_fields self_field_by_entity self_results
                            self_entity_types].
  rewrite path_state_all_fields, path_state_field_by_entity,
    path_state_results, path_state_entity_types.
  repeat split; reflexivity.
Qed.

Lemma extract_entity_pick_fields_records (code : str) (st : analyzer) l st' :
  extract_entity_pick_fields code st = Ok (l, st') ->
  Forall (pick_record_ok st') l.
Proof.
  unfold extract_entity_pick_fields.
  apply (foldM_inv analyzer mtch (list field_access)
           (fun acc s => Forall (pick_record_ok s) acc)); [|constructor].
  intros m acc s acc' s' Hm Hacc H.
  apply bind_inv in H as (v & s1 & Hv & H). apply lift_inv in Hv as [Hv ->].
  apply bind_inv in H as (fs & s1 & Hfs & H). apply lift_inv in Hfs as [Hfs ->].
  apply bind_inv in H as (fields & s1 & Hfields & H).
  apply lift_inv in Hfields as [Hfields ->].
  apply bind_inv in H as (t & s1 & Ht & H). apply lift_inv in Ht as [Ht ->].
  destruct (_infer_entity_type_word _ _ _
              (entity_pick_var_word _ _ (finditer_sound _ _ _ Hm) Hv) Ht)
    as [Htw Htn].
  pose proof (findall1_field_pattern_texts _ _ Hfields) as Hf.
  revert H.
  apply (foldM_inv analyzer str (list field_access)
           (fun acc s => Forall (pick_record_ok s) acc)); [|exact Hacc].
  intros f a s2 a' s2' Hfin Ha H.
  destruct (pick_inner_step _ _ _ _ _ _ Htn H) as (-> & Hall & Hfbe & _ & _).
  apply Forall_app. split.
  - eapply Forall_impl; [|exact Ha]. intros fa.
    apply pick_record_ok_mono.
    + intros x Hx. rewrite Hall. apply set_add_In; auto.
    + intros k v0 Hk. rewrite Hfbe. apply dd_add_keeps; exact Hk.
  - constructor; [|constructor].
    destruct (Hf f Hfin) as [Hne Hq].
    unfold pick_record_ok; cbn [field normalized entity_type access_method].
    repeat split; auto.
    + rewrite Hall. apply set_add_In; auto.
    + rewrite Hfbe. apply dd_add_mem.
Qed.

End PickRecords.

(** X2.  On every text and in every analyzer state
    [extract_entity_pick_fields] returns records that are all in order:
    the access method is [entityPick]; the raw field is not empty and
    holds no quote character; the normalized path is the normalization of
    the raw field; the entity type is a non-empty run of word characters;
    and after the call the normalized path is in [self.all_fields] and in
    [self.field_by_entity] under the entity type of the record. *)
Theorem entity_pick_records_in_order (code : str) (st : RADFieldAnalyzer.analyzer) :
  exists l st',
    RADFieldAnalyzer.extract_entity_pick_fields code st = Ok (l, st')
    /\ Forall (pick_record_ok st') l.
Proof.
  destruct (extract_entity_pick_fields_ok code st) as (l & st' & H).
  exists l, st'. split; [exact H|].
  eapply extract_entity_pick_fields_records; eauto.
Qed.

(** ** What a call leaves of the analyzer state *)

Section Keeps.
Import Re RADFieldAnalyzer.

Variable R : analyzer -> analyzer -> Prop.
Hypothesis R_refl : forall st, R st st.
Hypothesis R_trans : forall a b c, R a b -> R b c -> R a c.


Lemma keeps_ret A (a : A) : leaves R (St.ret a).
Proof. intros st b st' H. inversion H; subst. apply R_refl. Qed.

Lemma keeps_lift A (r : result A) : leaves R (St.lift r).
Proof.
  intros st a st' H. apply lift_inv in H as [_ ->]. apply R_refl.
Qed.

Lemma keeps_bind A B (m : M A) (f : A -> M B) :
  leaves R m -> (forall a, leaves R (f a)) -> leaves R (St.bind m f).
Proof.
  intros Hm Hf st b st' H. apply bind_inv in H as (a & s1 & H1 & H2).
  eapply R_trans; [eapply Hm; eauto|eapply Hf; eauto].
Qed.

Lemma keeps_foldM A B (body : A -> B -> M B) (l : list A) :
  (forall x acc, leaves R (body x acc)) -> forall acc, leaves R (St.foldM body l acc).
Proof.
  intros Hb. induction l as [|x l IH]; intros acc; simpl.
  - apply keeps_ret.
  - apply keeps_bind; [apply Hb|exact IH].
Qed.

Lemma keeps_if A (b : bool) (m1 m2 : M A) :
  leaves R m1 -> leaves R m2 -> leaves R (if b then m1 else m2).
Proof. destruct b; auto. Qed.

Hypothesis R_modify_sets :
  forall st af et fv fbe,
    R st {| self_results := self_results st; self_all_fields := af;
            self_entity_types := et; self_field_variations := fv;
            self_field_by_entity := fbe |}.

Lemma keeps_add_all_fields x : leaves R (add_all_fields x).
Proof. intros st a st' H. inversion H; subst. apply R_modify_sets. Qed.

Lemma keeps_add_entity_types x : leaves R (add_entity_types x).
Proof. intros st a st' H. inversion H; subst. apply R_modify_sets. Qed.

Lemma keeps_add_field_variations k v : leaves R (add_field_variations k v).
Proof. intros st a st' H. inversion H; subst. apply R_modify_sets. Qed.

Lemma keeps_add_field_by_entity k v : leaves R (add_field_by_entity k v).
Proof. intros st a st' H. inversion H; subst. apply R_modify_sets. Qed.

Lemma keeps_normalize_field_path f : leaves R (normalize_field_path f).
Proof.
  unfold normalize_field_path.
  destruct (first_prefix normalizations _) as [[old new]|].
  - apply keeps_bind; [apply keeps_add_field_variations|intros; apply keeps_ret].
  - apply keeps_ret.
Qed.

Lemma keeps_extract_entity_pick_fields code :
  leaves R (extract_entity_pick_fields code).
Proof.
  unfold extract_entity_pick_fields.
  apply keeps_foldM. intros m acc.
  repeat (apply keeps_bind; [apply keeps_lift|intros ?]).
  apply keeps_foldM. intros f acc1.
  apply keeps_bind; [apply keeps_normalize_field_path|intros n].
  apply keeps_bind; [apply keeps_add_all_fields|intros _].
  apply keeps_bind; [|intros _; apply keeps_ret].
  destruct a2; [apply keeps_ret|apply keeps_add_field_by_entity].
Qed.

Lemma keeps_extract_direct_property_access code :
  leaves R (extract_direct_property_access code).
Proof.
  unfold extract_direct_property_access.
  apply keeps_bind.
  - apply keeps_foldM. intros m acc.
    apply keeps_bind; [apply keeps_lift|intros ?; apply keeps_ret].
  - intros acc0. apply keeps_foldM. intros m acc.
    repeat (apply keeps_bind; [apply keeps_lift|intros ?]).
    apply keeps_if; [apply keeps_ret|].
    apply keeps_bind; [apply keeps_lift|intros t].
    apply keeps_bind; [apply keeps_normalize_field_path|intros n].
    apply keeps_bind; [|intros _; apply keeps_ret].
    apply keeps_if; [apply keeps_add_field_by_entity|apply keeps_ret].
Qed.

Lemma keeps_extract_destructuring_patterns code :
  leaves R (extract_destructuring_patterns code).
Proof.
  unfold extract_destructuring_patterns.
  apply keeps_foldM. intros m acc.
  repeat (apply keeps_bind; [apply keeps_lift|intros ?]).
  apply keeps_foldM. intros f acc1.
  apply keeps_bind; [apply keeps_normalize_field_path|intros n].
  apply keeps_bind; [|intros _; apply keeps_ret].
  apply keeps_if; [apply keeps_add_field_by_entity|apply keeps_ret].
Qed.

Lemma keeps_extract_entity_types code : leaves R (extract_entity_types code).
Proof.
  unfold extract_entity_types.
  apply keeps_foldM. intros p types. apply keeps_foldM. intros m types'.
  apply keeps_bind; [apply keeps_lift|intros t].
  apply keeps_bind; [apply keeps_add_entity_types|intros _; apply keeps_ret].
Qed.

End Keeps.

(** ** Entity types and joins *)

Section TypesAndJoins.
Import Re RADFieldAnalyzer.

Lemma type_patterns_group (p : regex) (m : mtch) :
  In p type_patterns -> is_match p m ->
  exists t, group 1 (m_groups m) = Some t /\ word_run t.
Proof.
  intros Hp Hm. unfold type_patterns in Hp. cbv zeta in Hp.
  destruct Hp as [<-|[<-|[<-|[]]]];
    (apply (is_match_group _ _ 1 word_run Hm);
     [reflexivity
     |cbn; repeat split; auto; try discriminate;
      match goal with H : matches (Plus word) _ _ _ |- _ =>
        apply (matches_Plus _ _ _ _ H) end]).
Qed.

Lemma extract_entity_types_ok (code : str) (st : analyzer) :
  exists types st', extract_entity_types code st = Ok (types, st').
Proof.
  unfold extract_entity_types.
  apply foldM_ok. intros p types s Hp.
  apply foldM_ok. intros m types' s' Hm.
  destruct (type_patterns_group _ _ Hp (finditer_sound _ _ _ Hm)) as (t & Ht & _).
  rewrite (group_of_some _ _ _ Ht).
  erewrite bind_ok by apply lift_ok. cbv beta.
  erewrite bind_ok by reflexivity. cbv beta.
  eexists; eexists; reflexivity.
Qed.

Lemma extract_entity_types_inv (code : str) (st : analyzer) types st' :
  extract_entity_types code st = Ok (types, st') ->
  NoDup types
  /\ (forall t, In t types -> word_run t)
  /\ (forall t, In t (self_entity_types st')
                <-> In t (self_entity_types st) \/ In t types).
Proof.
  unfold extract_entity_types.
  apply (foldM_inv analyzer regex (list str)
           (fun types s =>
              NoDup types
              /\ (forall t, In t types -> word_run t)
              /\ (forall t, In t (self_entity_types s)
                            <-> In t (self_entity_types st) \/ In t types))).
  2:{ split; [constructor|]. split; [intros t []|]. intros t; simpl; tauto. }
  intros p types0 s types1 s1 Hp Hi.
  apply (foldM_inv analyzer mtch (list str)
           (fun types s =>
              NoDup types
              /\ (forall t, In t types -> word_run t)
              /\ (forall t, In t (self_entity_types s)
                            <-> In t (self_entity_types st) \/ In t types)));
    [|exact Hi].
  intros m ty s2 ty' s2' Hm (Hnd & Hw & Hiff) H.
  destruct (type_patterns_group _ _ Hp (finditer_sound _ _ _ Hm)) as (t & Ht & Htw).
  rewrite (group_of_some _ _ _ Ht) in H.
  erewrite bind_ok in H by apply lift_ok. cbv beta in H.
  unfold St.bind, add_entity_types, St.modify, St.ret in H.
  inversion H; subst; cbn [self_entity_types].
  split; [apply set_add_NoDup; exact Hnd|]. split.
  - intros t0 Ht0. apply set_add_In in Ht0 as [->|Ht0]; auto.
  - intros t0. rewrite !set_add_In, Hiff. tauto.
Qed.

Lemma mapR_ok {A B} (f : A -> result B) (l : list A) :
  (forall x, In x l -> exists y, f x = Ok y) -> exists ys, mapR f l = Ok ys.
Proof.
  induction l as [|x l IH]; intros H; simpl.
  - eexists; reflexivity.
  - destruct (H x (or_introl eq_refl)) as (y & ->).
    destruct IH as (ys & ->); [intros z Hz; apply H; right; exact Hz|].
    eexists; reflexivity.
Qed.

Lemma mapR_inv {A B} (f : A -> result B) (l : list A) ys :
  mapR f l = Ok ys -> forall y, In y ys -> exists x, In x l /\ f x = Ok y.
Proof.
  revert ys; induction l as [|x l IH]; intros ys H y Hy; simpl in H.
  - inversion H; subst. destruct Hy.
  - destruct (f x) as [y0|e] eqn:E; [|discriminate].
    destruct (mapR f l) as [ys0|e]; [|discriminate].
    inversion H; subst ys. destruct Hy as [<-|Hy].
    + exists x; split; [left; reflexivity|exact E].
    + destruct (IH ys0 eq_refl y Hy) as (x' & Hx' & Hf).
      exists x'; split; [right; exact Hx'|exact Hf].
Qed.

Lemma rel_pattern_group (m : mtch) :
  is_match rel_pattern m -> exists t, group 2 (m_groups m) = Some t /\ word_run t.
Proof.
  intros Hm. apply (is_match_group _ _ 2 word_run Hm); [reflexivity|].
  cbn. repeat split; auto; try discriminate;
    match goal with H : matches (Plus word) _ _ _ |- _ =>
      apply (matches_Plus _ _ _ _ H) end.
Qed.

Lemma key_pattern_group (n : nat) (m : mtch) :
  In n [1; 2; 3; 4] -> is_match key_pattern m ->
  exists t, group n (m_groups m) = Some t /\ word_run t.
Proof.
  intros Hn Hm.
  destruct Hn as [<-|[<-|[<-|[<-|[]]]]];
    (apply (is_match_group _ _ _ word_run Hm); [reflexivity|];
     cbn; repeat split; auto; try discriminate;
     match goal with H : matches (Plus word) _ _ _ |- _ =>
       apply (matches_Plus _ _ _ _ H) end).
Qed.

Lemma join_pattern_group (m : mtch) :
  is_match join_pattern m -> exists t, group 2 (m_groups m) = Some t.
Proof.
  intros Hm.
  destruct (is_match_group _ _ 2 (fun _ => True) Hm) as (t & Ht & _);
    [reflexivity|cbn; tauto|exists t; exact Ht].
Qed.

Lemma detect_join_patterns_spec (code : str) :
  exists ji,
    detect_join_patterns code = Ok ji
    /\ uses_join ji = contains "joinEntities" code
    /\ (uses_join ji = false -> join_conditions ji = [] /\ joined_entities ji = [])
    /\ Forall word_run (joined_entities ji)
    /\ Forall join_condition_ok (join_conditions ji).
Proof.
  unfold detect_join_patterns.
  destruct (contains "joinEntities" code).
  2:{ eexists; split; [reflexivity|]. cbn. repeat split; auto. }
  destruct (search join_pattern code) as [m|] eqn:E.
  2:{ eexists; split; [reflexivity|]. cbn.
      repeat split; auto; discriminate. }
  destruct (join_pattern_group _ (search_sound _ _ _ E)) as (cond & Hc).
  rewrite (group_of_some _ _ _ Hc).
  destruct (mapR_ok (group_of 2) (finditer rel_pattern cond)) as (ents & He).
  { intros x Hx.
    destruct (rel_pattern_group _ (finditer_sound _ _ _ Hx)) as (t & Ht & _).
    exists t; apply group_of_some; exact Ht. }
  match goal with
  | |- context [mapR ?f (finditer key_pattern cond)] =>
      destruct (mapR_ok f (finditer key_pattern cond)) as (conds & Hk);
      [|pose proof (mapR_inv f _ _ Hk) as Hki]
  end.
  { intros x Hx. pose proof (finditer_sound _ _ _ Hx) as Hm.
    destruct (key_pattern_group 1 _ ltac:(simpl; tauto) Hm) as (a & Ha & _).
    destruct (key_pattern_group 2 _ ltac:(simpl; tauto) Hm) as (b & Hb & _).
    destruct (key_pattern_group 3 _ ltac:(simpl; tauto) Hm) as (c & Hc' & _).
    destruct (key_pattern_group 4 _ ltac:(simpl; tauto) Hm) as (d & Hd & _).
    rewrite (group_of_some _ _ _ Ha), (group_of_some _ _ _ Hb),
      (group_of_some _ _ _ Hc'), (group_of_some _ _ _ Hd).
    eexists; reflexivity. }
  rewrite He, Hk. eexists; split; [reflexivity|]. cbn.
  split; [reflexivity|]. split; [discriminate|]. split.
  - apply Forall_forall. intros e Hin.
    destruct (mapR_inv _ _ _ He e Hin) as (x & Hx & Hg).
    destruct (rel_pattern_group _ (finditer_sound _ _ _ Hx)) as (t & Ht & Hw).
    rewrite (group_of_some _ _ _ Ht) in Hg. inversion Hg; subst; exact Hw.
  - apply Forall_forall. intros c Hin.
    destruct (Hki c Hin) as (x & Hx & Hg).
    pose proof (finditer_sound _ _ _ Hx) as Hm.
    destruct (key_pattern_group 1 _ ltac:(simpl; tauto) Hm) as (a & Ha & Haw).
    destruct (key_pattern_group 2 _ ltac:(simpl; tauto) Hm) as (b & Hb & Hbw).
    destruct (key_pattern_group 3 _ ltac:(simpl; tauto) Hm) as (c' & Hc' & Hcw).
    destruct (key_pattern_group 4 _ ltac:(simpl; tauto) Hm) as (d & Hd & Hdw).
    rewrite (group_of_some _ _ _ Ha), (group_of_some _ _ _ Hb),
      (group_of_some _ _ _ Hc'), (group_of_some _ _ _ Hd) in Hg.
    inversion Hg; subst c.
    exists a, b, c', d. repeat split; auto; apply Haw || apply Hbw
                                       || apply Hcw || apply Hdw.
Qed.

End TypesAndJoins.

(** X3.  [extract_entity_types] returns on every text: the types it
    returns are distinct, each a non-empty run of word characters, and
    [self.entity_types] after the call holds what it held before and the
    types returned, nothing else; [self.results] is left as it was. *)
Theorem extract_entity_types_adds_its_result (code : str)
        (st : RADFieldAnalyzer.analyzer) :
  exists types st',
    RADFieldAnalyzer.extract_entity_types code st = Ok (types, st')
    /\ NoDup types
    /\ (forall t, In t types -> word_run t)
    /\ (forall t, In t (RADFieldAnalyzer.self_entity_types st')
                  <-> In t (RADFieldAnalyzer.self_entity_types st) \/ In t types)
    /\ RADFieldAnalyzer.self_results st' = RADFieldAnalyzer.self_results st.
Proof.
  destruct (extract_entity_types_ok code st) as (types & st' & H).
  exists types, st'. split; [exact H|].
  destruct (extract_entity_types_inv _ _ _ _ H) as (A & B & C).
  split; [exact A|]. split; [exact B|]. split; [exact C|].
  refine (keeps_extract_entity_types
            (fun s s' => RADFieldAnalyzer.self_results s'
                         = RADFieldAnalyzer.self_results s)
            _ _ _ code st types st' H).
  - reflexivity.
  - intros a b c H1 H2. congruence.
  - reflexivity.
Qed.

(** X4.  [detect_join_patterns] returns on every text.  [uses_join]
    says whether the text contains [joinEntities]; without it both lists
    are empty; every joined entity is a non-empty run of word characters
    and every join condition has the form [a.b] / [c.d] over such runs. *)
Theorem detect_join_patterns_well_formed (code : str) :
  exists ji,
    RADFieldAnalyzer.detect_join_patterns code = Ok ji
    /\ RADFieldAnalyzer.uses_join ji = contains "joinEntities" code
    /\ (RADFieldAnalyzer.uses_join ji = false ->
        RADFieldAnalyzer.join_conditions ji = []
        /\ RADFieldAnalyzer.joined_entities ji = [])
    /\ Forall word_run (RADFieldAnalyzer.joined_entities ji)
    /\ Forall join_condition_ok (RADFieldAnalyzer.join_conditions ji).
Proof. apply detect_join_patterns_spec. Qed.

(** ** A whole analysis *)

Section WholeAnalysis.
Import Re RADFieldAnalyzer.

Lemma results_kept {A} (m : M A) :
  (forall R : analyzer -> analyzer -> Prop,
      (forall st, R st st) ->
      (forall a b c, R a b -> R b c -> R a c) ->
      (forall st af et fv fbe,
          R st {| self_results := self_results st; self_all_fields := af;
                  self_entity_types := et; self_field_variations := fv;
                  self_field_by_entity := fbe |}) ->
      leaves R m) ->
  forall st a st', m st = Ok (a, st') -> self_results st' = self_results st.
Proof.
  intros H st a st' E.
  refine (H (fun s s' => self_results s' = self_results s) _ _ _ st a st' E).
  - reflexivity.
  - intros x y z H1 H2; congruence.
  - reflexivity.
Qed.

Lemma fold_set_add (xs acc : list str) :
  NoDup acc ->
  NoDup (fold_left (fun acc x => set_add x acc) xs acc)
  /\ (forall y, In y (fold_left (fun acc x => set_add x acc) xs acc)
                <-> In y acc \/ In y xs).
Proof.
  revert acc; induction xs as [|x xs IH]; intros acc Hnd; simpl.
  - split; [exact Hnd|]. intros y; tauto.
  - destruct (IH (set_add x acc) (set_add_NoDup x acc Hnd)) as [H1 H2].
    split; [exact H1|]. intros y. rewrite H2, set_add_In.
    split; intros H; intuition; subst; auto.
Qed.

Lemma fold_set_add_map {A} (f : A -> str) (l : list A) (acc : list str) :
  fold_left (fun acc x => set_add (f x) acc) l acc
  = fold_left (fun acc x => set_add x acc) (map f l) acc.
Proof.
  revert acc; induction l as [|x l IH]; intros acc; simpl; auto.
Qed.

Lemma analyze_synthesizer_spec (name0 code : str) (st : analyzer) :
  exists a st',
    analyze_synthesizer name0 code st = Ok (a, st')
    /\ self_results st' = self_results st ++ [a]
    /\ name a = name0
    /\ code_length a = length code
    /\ NoDup (all_fields a)
    /\ (forall x, In x (all_fields a)
                  <-> exists fa, In fa (field_accesses a) /\ normalized fa = x).
Proof.
  unfold analyze_synthesizer.
  destruct (extract_entity_pick_fields_ok code st) as (l1 & s1 & E1).
  destruct (extract_direct_property_access_ok code s1) as (l2 & s2 & E2).
  destruct (extract_destructuring_patterns_ok code s2) as (l3 & s3 & E3).
  destruct (extract_entity_types_ok code s3) as (ty & s4 & E4).
  destruct (detect_join_patterns_spec code) as (ji & E5 & _).
  erewrite bind_ok by exact E1. cbv beta.
  erewrite bind_ok by exact E2. cbv beta.
  erewrite bind_ok by exact E3. cbv beta. cbv zeta.
  erewrite bind_ok by exact E4. cbv beta.
  rewrite E5. erewrite bind_ok by apply lift_ok. cbv beta.
  unfold St.bind, append_results, St.modify, St.ret.
  eexists; eexists. split; [reflexivity|].
  cbn [self_results name code_length all_fields field_accesses].
  assert (Hr : self_results s4 = self_results st).
  { rewrite (results_kept _ (fun R a b c => keeps_extract_entity_types R a b c code)
               _ _ _ E4).
    rewrite (results_kept _ (fun R a b c =>
               keeps_extract_destructuring_patterns R a b c code) _ _ _ E3).
    rewrite (results_kept _ (fun R a b c =>
               keeps_extract_direct_property_access R a b c code) _ _ _ E2).
    apply (results_kept _ (fun R a b c =>
               keeps_extract_entity_pick_fields R a b c code) _ _ _ E1). }
  rewrite Hr. split; [reflexivity|]. split; [reflexivity|].
  split; [reflexivity|].
  rewrite fold_set_add_map.
  destruct (fold_set_add (map normalized (l1 ++ l2 ++ l3)) [] (NoDup_nil _))
    as [Hnd Hin].
  split; [exact Hnd|].
  intros x. rewrite Hin, in_map_iff. simpl. split.
  - intros [[]|(fa & E & Hfa)]. exists fa; auto.
  - intros (fa & Hfa & E). right. exists fa; auto.
Qed.

Lemma filter_map_length {A B} (f : A -> option B) (l : list A) :
  length (filter_map f l) <= length l.
Proof.
  induction l as [|x l IH]; simpl; [lia|].
  destruct (f x); simpl; lia.
Qed.

Lemma analyze_all (pairs : list (str * str)) :
  forall st, exists st',
    St.foldM (fun nc (_ : unit) =>
                St.bind (analyze_synthesizer (fst nc) (snd nc))
                        (fun _ => St.ret tt)) pairs tt st = Ok (tt, st')
    /\ map name (self_results st')
       = map name (self_results st) ++ map fst pairs.
Proof.
  induction pairs as [|[n c] pairs IH]; intros st; simpl.
  - exists st. rewrite app_nil_r. auto.
  - destruct (analyze_synthesizer_spec n c st) as (a & s1 & E & Hr & Hn & _).
    simpl fst; simpl snd. erewrite bind_ok.
    2:{ erewrite bind_ok by exact E. reflexivity. }
    destruct (IH s1) as (st' & E' & Hm).
    exists st'. split; [exact E'|].
    rewrite Hm, Hr, map_app. simpl. rewrite Hn, <- app_assoc. reflexivity.
Qed.

End WholeAnalysis.

(** X5.  [analyze_synthesizer] returns on every name and text, in every
    analyzer state.  The analysis it returns is appended to
    [self.results], which is otherwise left as it was; it carries the
    name given and the length of the text; its [all_fields] has no
    duplicate and holds exactly the normalized paths of its
    [field_accesses]. *)
Theorem analyze_synthesizer_appends_its_result (name code : str)
        (st : RADFieldAnalyzer.analyzer) :
  exists a st',
    RADFieldAnalyzer.analyze_synthesizer name code st = Ok (a, st')
    /\ RADFieldAnalyzer.self_results st' = RADFieldAnalyzer.self_results st ++ [a]
    /\ RADFieldAnalyzer.name a = name
    /\ RADFieldAnalyzer.code_length a = length code
    /\ NoDup (RADFieldAnalyzer.all_fields a)
    /\ (forall x, In x (RADFieldAnalyzer.all_fields a)
                  <-> exists fa, In fa (RADFieldAnalyzer.field_accesses a)
                                 /\ RADFieldAnalyzer.normalized fa = x).
Proof. apply analyze_synthesizer_spec. Qed.

(** X6.  The whole run (parse the document, analyze every section,
    build the report) returns on every document.  The report counts and
    lists one synthesizer per pair that [parse_rad_file] returned, under
    the names of the pairs and in their order, and never more
    synthesizers than the document has ["## "] markers. *)
Theorem run_main_never_raises (content : str) :
  exists r,
    RADFieldAnalyzer.run_main content = Ok r
    /\ RADFieldAnalyzer.total_synthesizers (RADFieldAnalyzer.summary r)
       = length (RADFieldAnalyzer.parse_rad_file content)
    /\ map RADFieldAnalyzer.name (RADFieldAnalyzer.synthesizer_details r)
       = map fst (RADFieldAnalyzer.parse_rad_file content)
    /\ RADFieldAnalyzer.total_synthesizers (RADFieldAnalyzer.summary r)
       <= count "## " content.
Proof.
  unfold RADFieldAnalyzer.run_main.
  destruct (analyze_all (RADFieldAnalyzer.parse_rad_file content)
                        RADFieldAnalyzer.init) as (st' & E & Hm).
  rewrite E. eexists. split; [reflexivity|].
  cbn [RADFieldAnalyzer.generate_comprehensive_report RADFieldAnalyzer.summary
       RADFieldAnalyzer.total_synthesizers RADFieldAnalyzer.synthesizer_details].
  simpl in Hm.
  assert (Hl : length (RADFieldAnalyzer.self_results st')
               = length (RADFieldAnalyzer.parse_rad_file content)).
  { rewrite <- (length_map RADFieldAnalyzer.name), Hm, length_map. reflexivity. }
  split; [exact Hl|]. split; [exact Hm|].
  rewrite Hl. unfold RADFieldAnalyzer.parse_rad_file.
  etransitivity; [apply filter_map_length|].
  rewrite tl_split_length. lia.
Qed.

(** ** Normalized paths are fixed points *)

Section PathFixedPoint.
Import RADFieldAnalyzer.

Lemma diverge_startswith (a b t : str) :
  diverge a b = true -> startswith a (b ++ t) = false.
Proof.
  revert b; induction a as [|x a IH]; intros [|y b]; simpl; try discriminate.
  destruct (Ascii.eqb x y); simpl; [apply IH|reflexivity].
Qed.

Lemma first_prefix_diverge (items : list (str * str)) (new t : str) :
  forallb (fun o => diverge (fst o) new) items = true ->
  first_prefix items (new ++ t) = None.
Proof.
  induction items as [|[o n] items IH]; simpl; [reflexivity|].
  intros H. apply andb_true_iff in H as [H1 H2].
  rewrite (diverge_startswith _ _ t H1). apply IH, H2.
Qed.

Lemma first_prefix_in (items : list (str * str)) (f old new : str) :
  first_prefix items f = Some (old, new) ->
  In (old, new) items /\ exists t, f = old ++ t.
Proof.
  induction items as [|[o n] items IH]; simpl; [discriminate|].
  destruct (startswith o f) eqn:E.
  - intros H; inversion H; subst. split; [left; reflexivity|].
    apply startswith_inv, E.
  - intros H. destruct (IH H) as [H1 H2]. split; [right; exact H1|exact H2].
Qed.

Lemma index_of_prefix (old t : str) : index_of old (old ++ t) = Some 0.
Proof.
  destruct (old ++ t) eqn:E; simpl; rewrite <- E, startswith_app; reflexivity.
Qed.

Lemma replace1_at_prefix (old new t : str) :
  replace1 old new (old ++ t) = new ++ t.
Proof.
  unfold replace1. rewrite index_of_prefix. simpl.
  rewrite skipn_app, skipn_all, Nat.sub_diag. reflexivity.
Qed.

(** What the table of [normalize_field_path] is checked for: every new
    prefix diverges from every old one, and neither starts nor ends with
    a quote character. *)
Lemma normalizations_apart :
  forallb (fun on =>
             forallb (fun o => diverge (fst o) (snd on)) normalizations
             && match snd on with
                | c :: _ => negb (mem_char quotes3 c)
                | [] => false
                end
             && match rev (snd on) with
                | c :: _ => negb (mem_char quotes3 c)
                | [] => false
                end)
          normalizations = true.
Proof. vm_compute; reflexivity. Qed.

Lemma ends_clear_prefix (p : ascii -> bool) (old new t : str) :
  ends_clear p (old ++ t) ->
  match new with c :: _ => p c = false | [] => False end ->
  match rev new with c :: _ => p c = false | [] => False end ->
  ends_clear p (new ++ t).
Proof.
  intros [_ H2] Hn Hr. split.
  - destruct new; [contradiction|exact Hn].
  - rewrite rev_app_distr in *.
    destruct (rev t) as [|c r]; simpl in *; [|exact H2].
    destruct (rev new); [contradiction|exact Hr].
Qed.

Lemma path_value_fixed (f : str) :
  strip (path_value f) = path_value f ->
  strip_chars quotes3 (strip (path_value f)) = path_value f
  /\ first_prefix normalizations (path_value f) = None.
Proof.
  intros Hs. rewrite Hs. unfold path_value in *.
  set (g := strip_chars quotes3 (strip f)) in *.
  assert (Hg : ends_clear (mem_char quotes3) g) by apply strip_by_ends.
  destruct (first_prefix normalizations g) as [[old new]|] eqn:E.
  - destruct (first_prefix_in _ _ _ _ E) as (Hin & t & Ht).
    rewrite Ht in *. rewrite replace1_at_prefix in *.
    pose proof normalizations_apart as Hall.
    rewrite forallb_forall in Hall. specialize (Hall _ Hin).
    cbv beta in Hall. cbn [snd] in Hall.
    apply andb_true_iff in Hall as [Hall H3].
    apply andb_true_iff in Hall as [H1 H2].
    split.
    + apply strip_by_fixed. apply (ends_clear_prefix _ old); [exact Hg| |].
      * destruct new; [discriminate|]. apply negb_true_iff, H2.
      * destruct (rev new); [discriminate|]. apply negb_true_iff, H3.
    + apply first_prefix_diverge, H1.
  - split; [|exact E]. apply strip_by_fixed, Hg.
Qed.

End PathFixedPoint.

(** X7.  A path that [normalize_field_path] returned, and that has no
    white space at its ends, is a fixed point: normalizing it again, in
    the state the first call left, returns it unchanged and leaves the
    analyzer as it is (no further variation is recorded). *)
Theorem normalize_field_path_fixed_point (f v : str)
        (st st1 : RADFieldAnalyzer.analyzer) :
  RADFieldAnalyzer.normalize_field_path f st = Ok (v, st1) ->
  strip v = v ->
  RADFieldAnalyzer.normalize_field_path v st1 = Ok (v, st1).
Proof.
  rewrite normalize_field_path_ok. intros H Hs.
  injection H as Hv Hst. subst v st1.
  destruct (path_value_fixed f Hs) as [Hq Hp].
  unfold RADFieldAnalyzer.normalize_field_path.
  rewrite Hq, Hp. reflexivity.
Qed.

Lemma normalize_field_path_fixed_point_witness :
  RADFieldAnalyzer.normalize_field_path
    "'vnextAccount.billing.termType'" RADFieldAnalyzer.init
  = Ok ("billing.termType" : str,
        path_state "'vnextAccount.billing.termType'" RADFieldAnalyzer.init)
  /\ RADFieldAnalyzer.normalize_field_path "billing.termType"
       (path_state "'vnextAccount.billing.termType'" RADFieldAnalyzer.init)
     = Ok ("billing.termType" : str,
           path_state "'vnextAccount.billing.termType'" RADFieldAnalyzer.init).
Proof.
  split; [reflexivity|].
  apply (normalize_field_path_fixed_point "'vnextAccount.billing.termType'"
           "billing.termType" RADFieldAnalyzer.init); reflexivity.
Defined.

(** ** Destructured names *)

Section Destructuring.
Import RADFieldAnalyzer.

Lemma strip_by_idem (p : ascii -> bool) (s : str) :
  strip_by p (strip_by p s) = strip_by p s.
Proof. apply strip_by_fixed, strip_by_ends. Qed.

Lemma strip_by_In (p : ascii -> bool) (s : str) (c : ascii) :
  In c (strip_by p s) -> In c s.
Proof.
  destruct (strip_by_split p s) as (a & b & E & _).
  intros H. rewrite E. apply in_or_app; right. apply in_or_app; left. exact H.
Qed.

Lemma split_go_char (c : ascii) (s cur : str) :
  ~ In c cur -> Forall (fun p => ~ In c p) (split_go [c] s 0 cur).
Proof.
  revert cur; induction s as [|d s IH]; intros cur Hcur; simpl.
  - constructor; [|constructor]. rewrite <- in_rev. exact Hcur.
  - destruct (Ascii.eqb c d) eqn:E; simpl.
    + constructor; [rewrite <- in_rev; exact Hcur|].
      apply IH. intros [].
    + apply IH. intros [H|H]; [|exact (Hcur H)].
      subst d. rewrite Ascii.eqb_refl in E. discriminate.
Qed.

Lemma split_char (c : ascii) (s : str) :
  Forall (fun p => ~ In c p) (split [c] s).
Proof. apply split_go_char. intros []. Qed.

Lemma split_go_sub (sep s : str) (skip : nat) (cur : str) :
  forall y, In y (split_go sep s skip cur) ->
  forall c, In c y -> In c cur \/ In c s.
Proof.
  revert skip cur; induction s as [|d s IH]; intros skip cur y Hy c Hc; simpl in Hy.
  - destruct Hy as [<-|[]]. left. apply in_rev, Hc.
  - destruct skip as [|n].
    + destruct (startswith sep (d :: s)).
      * destruct Hy as [<-|Hy]; [left; apply in_rev, Hc|].
        destruct (IH _ _ _ Hy _ Hc) as [[]|H]. right; right; exact H.
      * destruct (IH _ _ _ Hy _ Hc) as [[H|H]|H].
        -- right; left; exact H.
        -- left; exact H.
        -- right; right; exact H.
    + destruct (IH _ _ _ Hy _ Hc) as [H|H]; [left; exact H|right; right; exact H].
Qed.

Lemma split_sub (sep s : str) :
  forall y, In y (split sep s) -> forall c, In c y -> In c s.
Proof.
  intros y Hy c Hc. destruct (split_go_sub sep s 0 [] y Hy c Hc) as [[]|H].
  exact H.
Qed.

Lemma contains_char (c : ascii) (s : str) :
  contains [c] s = false -> ~ In c s.
Proof.
  unfold contains. induction s as [|d s IH]; simpl; [intros _ []|].
  destruct (Ascii.eqb c d) eqn:E; simpl; [discriminate|].
  destruct (index_of [c] s); simpl; [discriminate|].
  intros _ [H|H]; [|exact (IH eq_refl H)].
  subst d. rewrite Ascii.eqb_refl in E. discriminate.
Qed.

Lemma _parse_destructuring_go (parts acc : list str) :
  fold_left (fun fields part =>
    let part := strip part in
    let field_name :=
      if contains ":" part then strip (hd [] (split ":" part))
      else strip part in
    match field_name with
    | [] => fields
    | _ => if startswith "{" field_name then fields
           else fields ++ [field_name]
    end) parts acc
  = acc ++ filter kept_name (map part_name parts).
Proof.
  revert acc; induction parts as [|part parts IH]; intros acc;
    cbn [fold_left map filter].
  - rewrite app_nil_r. reflexivity.
  - rewrite IH. cbv zeta. fold (part_name part).
    unfold kept_name at 2.
    destruct (part_name part) as [|c x]; [reflexivity|].
    destruct (startswith "{" (c :: x)); cbn [negb]; [reflexivity|].
    rewrite <- app_assoc. reflexivity.
Qed.

Lemma _parse_destructuring_eq (s : str) :
  _parse_destructuring s = filter kept_name (map part_name (split "," s)).
Proof. apply _parse_destructuring_go. Qed.

Lemma part_name_plain (part : str) :
  ~ In ","%char part -> kept_name (part_name part) = true ->
  plain_name (part_name part).
Proof.
  intros Hc Hk. unfold plain_name. split; [|split; [|split; [|split]]].
  - intros E. rewrite E in Hk. discriminate.
  - unfold part_name. cbv zeta.
    destruct (contains ":" (strip part)); apply strip_by_idem.
  - unfold part_name. cbv zeta.
    destruct (contains ":" (strip part)) eqn:E; intros H.
    + apply strip_by_In in H.
      pose proof (split_nonempty ":" (strip part)) as (x & l & El).
      pose proof (split_char ","%char (strip part)) as _.
      assert (Hx : forall y, In y (split ":" (strip part)) ->
                             forall c, In c y -> In c (strip part)).
      { apply split_sub. }
      rewrite El in H; simpl in H.
      apply Hc. apply (strip_by_In is_space).
      apply (Hx x); [rewrite El; left; reflexivity|exact H].
    + apply Hc. apply (strip_by_In is_space), (strip_by_In is_space), H.
  - unfold part_name. cbv zeta.
    destruct (contains ":" (strip part)) eqn:E; intros H.
    + apply strip_by_In in H.
      pose proof (split_char ":"%char (strip part)) as Hs.
      pose proof (split_nonempty ":" (strip part)) as (x & l & El).
      change [":"%char] with (":" : str) in Hs.
      rewrite El in Hs, H. simpl in H. inversion Hs; subst. auto.
    + apply strip_by_In in H. exact (contains_char _ _ E H).
  - unfold kept_name in Hk. destruct (part_name part); [discriminate|].
    apply negb_true_iff, Hk.
Qed.

Lemma _parse_destructuring_plain (s : str) :
  Forall plain_name (_parse_destructuring s).
Proof.
  rewrite _parse_destructuring_eq. apply Forall_forall. intros x Hx.
  apply filter_In in Hx as [Hx Hk]. apply in_map_iff in Hx as (part & <- & Hp).
  apply part_name_plain; [|exact Hk].
  pose proof (split_char ","%char s) as Hs. rewrite Forall_forall in Hs.
  apply Hs, Hp.
Qed.

Lemma word_not_sep (c : ascii) :
  Re.word c = true ->
  is_space c = false /\ c <> ","%char /\ c <> ":"%char /\ c <> "{"%char.
Proof.
  destruct c as [[] [] [] [] [] [] [] []]; vm_compute; intros H;
    try discriminate H; repeat split; discriminate.
Qed.

Lemma not_In_contains (c : ascii) (s : str) :
  ~ In c s -> contains [c] s = false.
Proof.
  unfold contains. induction s as [|d s IH]; intros H; simpl; [reflexivity|].
  destruct (Ascii.eqb c d) eqn:E; simpl.
  - apply Ascii.eqb_eq in E. subst d. exfalso; apply H; left; reflexivity.
  - rewrite (fun H' => match index_of [c] s as o
                             return (match o with Some _ => true | None => false end
                                     = false -> match option_map S o with
                                                | Some _ => true | None => false end
                                                = false)
                       with Some _ => fun e => e | None => fun e => e end H').
    + reflexivity.
    + apply IH. intros H'. apply H; right; exact H'.
Qed.

Lemma In_contains (c : ascii) (a b : str) : contains [c] (a ++ c :: b) = true.
Proof.
  unfold contains.
  destruct (index_of_app [c] a b) as (i & Hi & _). simpl in Hi. rewrite Hi.
  reflexivity.
Qed.

Lemma split_go_last (c : ascii) (x cur : str) :
  ~ In c x -> split_go [c] x 0 cur = [rev cur ++ x].
Proof.
  revert cur; induction x as [|d x IH]; intros cur H; simpl.
  - rewrite app_nil_r. reflexivity.
  - destruct (Ascii.eqb c d) eqn:E; simpl.
    + apply Ascii.eqb_eq in E. subst d. exfalso; apply H; left; reflexivity.
    + rewrite IH by (intros H'; apply H; right; exact H').
      simpl. rewrite <- app_assoc. reflexivity.
Qed.

Lemma split_go_piece (c : ascii) (x t cur : str) :
  ~ In c x ->
  split_go [c] (x ++ c :: t) 0 cur = (rev cur ++ x) :: split [c] t.
Proof.
  revert cur; induction x as [|d x IH]; intros cur H; simpl.
  - rewrite Ascii.eqb_refl. simpl. rewrite app_nil_r. reflexivity.
  - destruct (Ascii.eqb c d) eqn:E; simpl.
    + apply Ascii.eqb_eq in E. subst d. exfalso; apply H; left; reflexivity.
    + rewrite IH by (intros H'; apply H; right; exact H').
      simpl. rewrite <- app_assoc. reflexivity.
Qed.

Lemma word_run_not_In (t : str) (c : ascii) :
  word_run t -> Re.word c = false -> ~ In c t.
Proof.
  intros [H _] Hc Hin. unfold is_word in H. rewrite forallb_forall in H.
  rewrite (H _ Hin) in Hc. discriminate.
Qed.

Lemma word_run_ends (t : str) :
  word_run t ->
  match t with c :: _ => Re.word c = true | [] => False end
  /\ match rev t with c :: _ => Re.word c = true | [] => False end.
Proof.
  intros [H Hne]. unfold is_word in H. rewrite forallb_forall in H. split.
  - destruct t as [|c t]; [congruence|]. apply H; left; reflexivity.
  - destruct (rev t) as [|c r] eqn:E.
    + apply (f_equal (@rev ascii)) in E. rewrite rev_involutive in E. auto.
    + apply H, in_rev. rewrite E. left; reflexivity.
Qed.

Lemma word_run_strip (t : str) : word_run t -> strip t = t.
Proof.
  intros H. destruct (word_run_ends t H) as [H1 H2].
  apply strip_by_fixed. split.
  - destruct t; [contradiction|]. apply word_not_sep, H1.
  - destruct (rev t); [contradiction|]. apply word_not_sep, H2.
Qed.

Lemma render_entry_strip (e : str * option str) :
  entry_ok e -> strip (render_entry e) = render_entry e.
Proof.
  destruct e as [n [a|]]; intros [Hn Ha]; unfold render_entry; simpl in *;
    [|apply word_run_strip, Hn].
  destruct (word_run_ends n Hn) as [H1 _].
  destruct (word_run_ends a Ha) as [_ H2].
  apply strip_by_fixed. split.
  - destruct n; [contradiction|]. apply word_not_sep, H1.
  - rewrite rev_app_distr. simpl.
    destruct (rev a); [contradiction|]. simpl. apply word_not_sep, H2.
Qed.

Lemma part_name_entry (e : str * option str) :
  entry_ok e -> part_name (render_entry e) = fst e.
Proof.
  intros He. unfold part_name. cbv zeta. rewrite (render_entry_strip e He).
  destruct e as [n [a|]]; destruct He as [Hn Ha]; unfold render_entry;
    simpl in *.
  - change (n ++ ":"%char :: " "%char :: a) with (n ++ ":"%char :: (" " ++ a)).
    rewrite In_contains. unfold split.
    rewrite split_go_piece by (apply word_run_not_In; [exact Hn|reflexivity]).
    simpl. apply word_run_strip, Hn.
  - rewrite not_In_contains
      by (apply word_run_not_In; [exact Hn|reflexivity]).
    apply word_run_strip, Hn.
Qed.

Lemma part_name_space (s : str) : part_name (" " ++ s) = part_name s.
Proof. reflexivity. Qed.

Lemma kept_name_word (t : str) : word_run t -> kept_name t = true.
Proof.
  intros H. destruct (word_run_ends t H) as [H1 _].
  destruct t as [|c t]; [contradiction|]. unfold kept_name.
  destruct (word_not_sep c H1) as (_ & _ & _ & Hb).
  cbn [startswith list_ascii_of_string].
  destruct (Ascii.eqb "{" c) eqn:E; [|reflexivity].
  apply Ascii.eqb_eq in E. congruence.
Qed.

Lemma render_entry_no_comma (e : str * option str) :
  entry_ok e -> ~ In ","%char (render_entry e).
Proof.
  destruct e as [n [a|]]; intros [Hn Ha]; unfold render_entry; simpl in *.
  - intros H. apply in_app_or in H as [H|[H|[H|H]]]; try discriminate H.
    + exact (word_run_not_In n ","%char Hn eq_refl H).
    + exact (word_run_not_In a ","%char Ha eq_refl H).
  - apply word_run_not_In; [exact Hn|reflexivity].
Qed.

Lemma split_go_push (c d : ascii) (s cur : str) :
  split_go [c] s 0 (cur ++ [d])
  = match split_go [c] s 0 cur with
    | h :: t => (d :: h) :: t
    | [] => []
    end.
Proof.
  revert cur; induction s as [|e s IH]; intros cur; simpl.
  - rewrite rev_unit. reflexivity.
  - destruct (Ascii.eqb c e); simpl.
    + rewrite rev_unit. reflexivity.
    + apply (IH (e :: cur)).
Qed.

Lemma split_comma_last (x : str) :
  ~ In ","%char x -> split "," x = [x].
Proof. intros H. apply (split_go_last ","%char x [] H). Qed.

Lemma split_comma_piece (x t : str) :
  ~ In ","%char x -> split "," (x ++ ", " ++ t) = x :: split "," (" " ++ t).
Proof. intros H. apply (split_go_piece ","%char x (" " ++ t) [] H). Qed.

Lemma split_comma_space (r : str) :
  map part_name (split "," (" " ++ r)) = map part_name (split "," r).
Proof.
  change (split "," (" " ++ r)) with (split_go [","%char] r 0 ([] ++ [" "%char])).
  rewrite split_go_push. change (split_go [","%char] r 0 []) with (split "," r).
  destruct (split "," r) as [|h t]; reflexivity.
Qed.

Lemma split_join_entries (es : list (str * option str)) :
  Forall entry_ok es ->
  map part_name (split "," (join ", " (map render_entry es)))
  = match es with [] => [[]] | _ => map fst es end.
Proof.
  induction 1 as [|e es He Hes IH]; [reflexivity|].
  destruct es as [|e' es].
  - cbn [map join]. rewrite split_comma_last by (apply render_entry_no_comma, He).
    cbn [map]. rewrite (part_name_entry e He). reflexivity.
  - change (join ", " (map render_entry (e :: e' :: es)))
      with (render_entry e ++ ", " ++ join ", " (map render_entry (e' :: es))).
    rewrite split_comma_piece by (apply render_entry_no_comma, He).
    cbn [map]. rewrite (part_name_entry e He). f_equal.
    rewrite split_comma_space. exact IH.
Qed.

Lemma filter_kept_names (es : list (str * option str)) :
  Forall entry_ok es -> filter kept_name (map fst es) = map fst es.
Proof.
  induction 1 as [|e es [He _] _ IH]; [reflexivity|].
  simpl. rewrite (kept_name_word _ He), IH. reflexivity.
Qed.

End Destructuring.

(** X8.  Every name that [_parse_destructuring] returns is non-empty,
    has no white space at its ends, holds no comma and no colon, and does
    not start with a brace; and there are never more names than the text
    has commas, plus one. *)
Theorem parse_destructuring_names_are_plain (s : str) :
  Forall plain_name (RADFieldAnalyzer._parse_destructuring s)
  /\ length (RADFieldAnalyzer._parse_destructuring s) <= S (count "," s).
Proof.
  split; [apply _parse_destructuring_plain|].
  rewrite _parse_destructuring_eq.
  etransitivity; [apply filter_length_le|].
  rewrite length_map, split_length. reflexivity.
Qed.

(** X9.  Round trip: a destructuring list written from entries [name] or
    [name: alias], separated by a comma and a space, where the names and
    aliases are non-empty runs of word characters, is parsed back to the
    names, in order, the aliases dropped. *)
Theorem parse_destructuring_round_trip (es : list (str * option str)) :
  Forall entry_ok es ->
  RADFieldAnalyzer._parse_destructuring (join ", " (map render_entry es))
  = map fst es.
Proof.
  intros H. rewrite _parse_destructuring_eq, (split_join_entries es H).
  destruct es as [|e es]; [reflexivity|]. apply filter_kept_names, H.
Qed.

Lemma parse_destructuring_round_trip_witness :
  RADFieldAnalyzer._parse_destructuring "accountId, features: f, type"
  = ["accountId" : str; "features" : str; "type" : str].
Proof.
  apply (parse_destructuring_round_trip
           [("accountId" : str, None); ("features" : str, Some ("f" : str));
            ("type" : str, None)]).
  repeat constructor; discriminate.
Defined.

(** ** Counters and rankings *)

Section Counters.

Lemma tally_app (k : str) (l1 l2 : list str) :
  tally k (l1 ++ l2) = tally k l1 + tally k l2.
Proof. unfold tally. rewrite filter_app, length_app. reflexivity. Qed.

Lemma tally_zero (k : str) (l : list str) : ~ In k l -> tally k l = 0.
Proof.
  unfold tally. induction l as [|x l IH]; intros H; simpl; [reflexivity|].
  destruct (eqb_str k x) eqn:E.
  - apply eqb_str_eq in E. subst x. exfalso; apply H; left; reflexivity.
  - apply IH. intros H'. apply H; right; exact H'.
Qed.

Lemma tally_pos (k : str) (l : list str) : In k l -> 1 <= tally k l.
Proof.
  unfold tally. induction l as [|x l IH]; intros H; simpl; [destruct H|].
  destruct (eqb_str k x) eqn:E; simpl; [lia|].
  destruct H as [H|H]; [|apply IH, H].
  subst x. rewrite eqb_str_refl in E. discriminate.
Qed.

Lemma counter_incr_total (x : str) (c : list (str * nat)) :
  total (counter_incr x c) = S (total c).
Proof.
  unfold total. induction c as [|[k n] c IH]; simpl; [reflexivity|].
  destruct (eqb_str x k); simpl; [reflexivity|]. rewrite IH. lia.
Qed.

Lemma counter_incr_keys (x : str) (c : list (str * nat)) :
  map fst (counter_incr x c) = set_add x (map fst c).
Proof.
  unfold set_add. induction c as [|[k n] c IH]; simpl; [reflexivity|].
  destruct (eqb_str x k); simpl; [reflexivity|].
  rewrite IH. unfold mem_str. destruct (existsb (eqb_str x) (map fst c));
    reflexivity.
Qed.

Lemma counter_incr_In (x : str) (c : list (str * nat)) (k : str) (n : nat) :
  NoDup (map fst c) ->
  In (k, n) (counter_incr x c) ->
  (k <> x /\ In (k, n) c)
  \/ (k = x /\ ((n = 1 /\ ~ In x (map fst c))
                \/ exists m, n = S m /\ In (x, m) c)).
Proof.
  induction c as [|[k' n'] c IH]; simpl; intros Hnd H.
  - destruct H as [H|[]]. inversion H; subst. right. split; [reflexivity|].
    left. split; [reflexivity|]. intros [].
  - inversion Hnd as [|? ? Hk' Hnd']; subst.
    destruct (eqb_str x k') eqn:E.
    + apply eqb_str_eq in E. subst k'.
      destruct H as [H|H].
      * inversion H; subst. right. split; [reflexivity|]. right.
        exists n'. split; [reflexivity|]. left; reflexivity.
      * left. split; [|right; exact H].
        intros ->. apply Hk'. apply (in_map fst) in H. exact H.
    + apply eqb_str_neq in E. destruct H as [H|H].
      * inversion H; subst. left. split; [congruence|left; reflexivity].
      * destruct (IH Hnd' H) as [[H1 H2]|[H1 [[H2 H3]|(m & H2 & H3)]]].
        -- left. split; [exact H1|right; exact H2].
        -- right. split; [exact H1|]. left. split; [exact H2|].
           intros [H4|H4]; [congruence|exact (H3 H4)].
        -- right. split; [exact H1|]. right. exists m.
           split; [exact H2|right; exact H3].
Qed.

Lemma counter_fold (l seen : list str) (c : list (str * nat)) :
  NoDup (map fst c) ->
  (forall k n, In (k, n) c -> n = tally k seen) ->
  (forall k, In k seen <-> In k (map fst c)) ->
  let c' := fold_left (fun c k => counter_incr k c) l c in
  NoDup (map fst c')
  /\ (forall k n, In (k, n) c' -> n = tally k (seen ++ l))
  /\ (forall k, In k (seen ++ l) <-> In k (map fst c'))
  /\ total c' = total c + length l.
Proof.
  revert seen c; induction l as [|x l IH]; intros seen c Hnd Hc Hk; simpl.
  - rewrite app_nil_r. repeat split; auto; apply Hk.
  - destruct (IH (seen ++ [x]) (counter_incr x c)) as (A & B & C & D).
    + rewrite counter_incr_keys. apply set_add_NoDup, Hnd.
    + intros k n H. rewrite tally_app.
      destruct (counter_incr_In _ _ _ _ Hnd H)
        as [[H1 H2]|[H1 [[H2 H3]|(m & H2 & H3)]]].
      * rewrite (Hc _ _ H2). unfold tally at 3. simpl.
        destruct (eqb_str k x) eqn:E; [|simpl; lia].
        apply eqb_str_eq in E. contradiction.
      * subst k n. rewrite tally_zero by (rewrite Hk; exact H3).
        unfold tally. simpl. rewrite eqb_str_refl. reflexivity.
      * subst k n. rewrite (Hc _ _ H3). unfold tally at 3. simpl.
        rewrite eqb_str_refl. simpl. lia.
    + intros k. rewrite counter_incr_keys, set_add_In, in_app_iff, Hk.
      simpl. intuition.
    + rewrite <- app_assoc in B, C. simpl in B, C.
      repeat split; auto; try apply C.
      rewrite D, counter_incr_total. lia.
Qed.

Lemma counter_map_spec {A} (f : A -> str) (l : list A) :
  let c := fold_left (fun c a => counter_incr (f a) c) l [] in
  NoDup (map fst c)
  /\ (forall k n, In (k, n) c -> n = tally k (map f l))
  /\ (forall k, In k (map f l) <-> In k (map fst c))
  /\ total c = length l.
Proof.
  assert (E : forall c,
    fold_left (fun c a => counter_incr (f a) c) l c
    = fold_left (fun c k => counter_incr k c) (map f l) c).
  { induction l as [|a l IH]; intros c; simpl; auto. }
  cbv zeta. rewrite E.
  destruct (counter_fold (map f l) [] []) as (H1 & H2 & H3 & H4).
  - constructor.
  - intros k n [].
  - intros k; reflexivity.
  - simpl in *. rewrite length_map in H4. auto.
Qed.

Lemma insert_desc_perm {A} (key : A -> nat) (x : A) (l : list A) :
  Permutation (insert_desc key x l) (x :: l).
Proof.
  induction l as [|y l IH]; simpl; [reflexivity|].
  destruct (key y <? key x); [reflexivity|].
  rewrite IH. apply perm_swap.
Qed.

Lemma sorted_desc_go_perm {A} (key : A -> nat) (l acc : list A) :
  Permutation (fold_left (fun acc x => insert_desc key x acc) l acc) (acc ++ l).
Proof.
  revert acc; induction l as [|x l IH]; intros acc; simpl.
  - rewrite app_nil_r. reflexivity.
  - rewrite IH, insert_desc_perm.
    change (x :: acc ++ l) with ((x :: acc) ++ l).
    apply Permutation_middle.
Qed.

Lemma sorted_desc_perm {A} (key : A -> nat) (l : list A) :
  Permutation (sorted_desc key l) l.
Proof. apply (sorted_desc_go_perm key l []). Qed.

Lemma insert_desc_sorted {A} (key : A -> nat) (x : A) (l : list A) :
  StronglySorted (fun a b => key b <= key a) l ->
  StronglySorted (fun a b => key b <= key a) (insert_desc key x l).
Proof.
  induction 1 as [|y l Hl IH Hy]; simpl.
  - constructor; constructor.
  - destruct (Nat.ltb_spec (key y) (key x)) as [Hlt|Hge].
    + constructor; [constructor; assumption|].
      constructor; [lia|].
      rewrite Forall_forall in *. intros z Hz. specialize (Hy z Hz). lia.
    + constructor; [exact IH|].
      rewrite Forall_forall in *. intros z Hz.
      apply (Permutation_in _ (insert_desc_perm key x l)) in Hz.
      destruct Hz as [<-|Hz]; [exact Hge|apply Hy, Hz].
Qed.

Lemma sorted_desc_sorted {A} (key : A -> nat) (l : list A) :
  StronglySorted (fun a b => key b <= key a) (sorted_desc key l).
Proof.
  unfold sorted_desc.
  assert (H : forall acc, StronglySorted (fun a b => key b <= key a) acc ->
    StronglySorted (fun a b => key b <= key a)
      (fold_left (fun acc x => insert_desc key x acc) l acc)).
  { induction l as [|x l IH]; intros acc Hacc; simpl; [exact Hacc|].
    apply IH, insert_desc_sorted, Hacc. }
  apply H. constructor.
Qed.

Lemma sorted_firstn {A} (R : A -> A -> Prop) (n : nat) (l : list A) :
  StronglySorted R l -> StronglySorted R (firstn n l).
Proof.
  intros H; revert n; induction H as [|x l Hl IH Hx]; intros [|n]; simpl;
    try constructor.
  - apply IH.
  - rewrite Forall_forall in *. intros y Hy. apply Hx.
    rewrite <- (firstn_skipn n l). apply in_or_app; left; exact Hy.
Qed.

Lemma sorted_app {A} (R : A -> A -> Prop) (a b : list A) :
  StronglySorted R (a ++ b) -> forall x y, In x a -> In y b -> R x y.
Proof.
  induction a as [|z a IH]; simpl; intros H x y Hx Hy; [destruct Hx|].
  inversion H as [|? ? Hs Hf]; subst. destruct Hx as [<-|Hx].
  - rewrite Forall_forall in Hf. apply Hf, in_or_app. right; exact Hy.
  - apply (IH Hs x y Hx Hy).
Qed.

Lemma NoDup_firstn {A} (n : nat) (l : list A) : NoDup l -> NoDup (firstn n l).
Proof.
  intros H; revert n; induction H as [|x l Hx Hl IH]; intros [|n]; simpl;
    try constructor.
  - intros Hin. apply Hx. rewrite <- (firstn_skipn n l).
    apply in_or_app; left; exact Hin.
  - apply IH.
Qed.

Lemma In_firstn {A} (n : nat) (l : list A) (x : A) :
  In x (firstn n l) -> In x l.
Proof.
  intros H. rewrite <- (firstn_skipn n l). apply in_or_app; left; exact H.
Qed.

(** [most_common n] of a counter with distinct keys. *)
Lemma most_common_spec (n : nat) (c : list (str * nat)) :
  NoDup (map fst c) ->
  let m := RADFieldAnalyzer.most_common n c in
  length m <= n
  /\ NoDup (map fst m)
  /\ StronglySorted (fun a b => snd b <= snd a) m
  /\ (forall kv, In kv m -> In kv c)
  /\ (forall kv, In kv c ->
        In kv m \/ (length m = n /\ Forall (fun top => snd kv <= snd top) m)).
Proof.
  intros Hnd. cbv zeta. unfold RADFieldAnalyzer.most_common.
  pose proof (sorted_desc_perm snd c) as Hp.
  pose proof (sorted_desc_sorted snd c) as Hs.
  set (s := sorted_desc snd c) in *.
  split; [apply firstn_le_length|].
  split.
  { rewrite <- firstn_map. apply NoDup_firstn.
    apply (Permutation_NoDup (l := map fst c)); [|exact Hnd].
    apply Permutation_map. symmetry. exact Hp. }
  split; [apply sorted_firstn, Hs|].
  split.
  { intros kv H. apply (Permutation_in _ Hp). apply (In_firstn n), H. }
  intros kv H. apply (Permutation_in _ (Permutation_sym Hp)) in H.
  rewrite <- (firstn_skipn n s) in H, Hs.
  apply in_app_or in H as [H|H]; [left; exact H|]. right. split.
  - apply firstn_length_le.
    destruct (Nat.le_gt_cases n (length s)) as [Hle|Hgt]; [exact Hle|].
    rewrite skipn_all2 in H by lia. destruct H.
  - apply Forall_forall. intros top Ht.
    apply (sorted_app _ _ _ Hs top kv Ht H).
Qed.

End Counters.

(** X10.  In the report of any analyzer state, the counts add up: the
    counts of [access_methods] to the number of field accesses of all
    results, and the counts of [complexity_distribution] and of
    [return_patterns] to [total_synthesizers]; and a method is a key of
    [access_methods] exactly when some access used it. *)
Theorem report_counts_add_up (self : RADFieldAnalyzer.analyzer) :
  let r := RADFieldAnalyzer.generate_comprehensive_report self in
  let accesses := RADFieldAnalyzer.all_accesses (RADFieldAnalyzer.self_results self) in
  total (RADFieldAnalyzer.access_methods (RADFieldAnalyzer.field_analysis r))
  = length accesses
  /\ (forall k,
        In k (map fst (RADFieldAnalyzer.access_methods
                         (RADFieldAnalyzer.field_analysis r)))
        <-> In k (map RADFieldAnalyzer.access_method accesses))
  /\ total (RADFieldAnalyzer.complexity_distribution (RADFieldAnalyzer.summary r))
     = RADFieldAnalyzer.total_synthesizers (RADFieldAnalyzer.summary r)
  /\ total (RADFieldAnalyzer.return_patterns (RADFieldAnalyzer.summary r))
     = RADFieldAnalyzer.total_synthesizers (RADFieldAnalyzer.summary r).
Proof.
  cbv zeta.
  cbn [RADFieldAnalyzer.generate_comprehensive_report
       RADFieldAnalyzer.field_analysis RADFieldAnalyzer.access_methods
       RADFieldAnalyzer.summary RADFieldAnalyzer.complexity_distribution
       RADFieldAnalyzer.return_patterns RADFieldAnalyzer.total_synthesizers].
  destruct (counter_map_spec RADFieldAnalyzer.access_method
              (RADFieldAnalyzer.all_accesses (RADFieldAnalyzer.self_results self)))
    as (_ & _ & Hk & Ht).
  split; [exact Ht|]. split; [intros k; symmetry; apply Hk|].
  unfold RADFieldAnalyzer._get_complexity_distribution,
    RADFieldAnalyzer._get_return_pattern_distribution,
    RADFieldAnalyzer.counter_of.
  split.
  - destruct (counter_fold
                (map (fun r => RADFieldAnalyzer.level (RADFieldAnalyzer.complexity r))
                     (RADFieldAnalyzer.self_results self)) [] [])
      as (_ & _ & _ & H); [constructor|intros ? ? []|reflexivity|].
    cbv zeta in H. rewrite H, length_map. reflexivity.
  - destruct (counter_fold
                (map (fun r => RADFieldAnalyzer.rp_type (RADFieldAnalyzer.return_pattern r))
                     (RADFieldAnalyzer.self_results self)) [] [])
      as (_ & _ & _ & H); [constructor|intros ? ? []|reflexivity|].
    cbv zeta in H. rewrite H, length_map. reflexivity.
Qed.

(** X11.  [most_used_fields] of the report is a ranking: at most twenty
    entries, no field twice, counts never increasing down the list, each
    count the number of accesses whose normalized path is that field (so
    at least one); and a field that was accessed but is not listed is
    used no more often than any listed one, the list being full. *)
Theorem most_used_fields_is_a_ranking (self : RADFieldAnalyzer.analyzer) :
  let m := RADFieldAnalyzer.most_used_fields
             (RADFieldAnalyzer.field_analysis
                (RADFieldAnalyzer.generate_comprehensive_report self)) in
  let used := map RADFieldAnalyzer.normalized
                  (RADFieldAnalyzer.all_accesses
                     (RADFieldAnalyzer.self_results self)) in
  length m <= 20
  /\ NoDup (map fst m)
  /\ StronglySorted (fun a b => snd b <= snd a) m
  /\ Forall (fun kv => snd kv = tally (fst kv) used /\ 1 <= snd kv) m
  /\ (forall k, In k used ->
        In k (map fst m)
        \/ (length m = 20 /\ Forall (fun top => tally k used <= snd top) m)).
Proof.
  cbv zeta.
  cbn [RADFieldAnalyzer.generate_comprehensive_report
       RADFieldAnalyzer.field_analysis RADFieldAnalyzer.most_used_fields].
  destruct (counter_map_spec RADFieldAnalyzer.normalized
              (RADFieldAnalyzer.all_accesses (RADFieldAnalyzer.self_results self)))
    as (Hnd & Hn & Hk & _).
  cbv zeta in Hnd, Hn, Hk.
  set (c := fold_left _ _ []) in *.
  destruct (most_common_spec 20 c Hnd) as (A & B & C & D & E).
  cbv zeta in A, B, C, D, E.
  split; [exact A|]. split; [exact B|]. split; [exact C|]. split.
  - apply Forall_forall. intros [k n] H. simpl.
    pose proof (Hn k n (D _ H)) as Hkn. split; [exact Hkn|].
    rewrite Hkn. apply tally_pos, Hk.
    change k with (fst (k, n)). apply in_map, D, H.
  - intros k Hin. apply Hk in Hin. apply in_map_iff in Hin as ([k' n] & Ek & Hc).
    simpl in Ek. subst k'.
    destruct (E _ Hc) as [H|[H1 H2]].
    + left. change k with (fst (k, n)). apply in_map, H.
    + right. split; [exact H1|]. rewrite <- (Hn k n Hc). exact H2.
Qed.

(** ** Complexity of an analysis *)

Section Complexity.
Import RADFieldAnalyzer.

Lemma analyze_synthesizer_inv (name0 code : str) (st st' : analyzer) (a : analysis) :
  analyze_synthesizer name0 code st = Ok (a, st') ->
  detect_join_patterns code = Ok (join_info a)
  /\ return_pattern a = analyze_return_pattern code
  /\ conditional_logic a = (contains "if" code || contains "?" code)
  /\ uses_spread a = contains "..." code
  /\ uses_optional_chaining a = contains "?." code
  /\ complexity a
     = calculate_complexity_score (join_info a) (all_fields a)
         (entity_types a) (code_length a) (conditional_logic a).
Proof.
  unfold analyze_synthesizer.
  destruct (extract_entity_pick_fields_ok code st) as (l1 & s1 & E1).
  destruct (extract_direct_property_access_ok code s1) as (l2 & s2 & E2).
  destruct (extract_destructuring_patterns_ok code s2) as (l3 & s3 & E3).
  destruct (extract_entity_types_ok code s3) as (ty & s4 & E4).
  destruct (detect_join_patterns_spec code) as (ji & E5 & _).
  erewrite bind_ok by exact E1. cbv beta.
  erewrite bind_ok by exact E2. cbv beta.
  erewrite bind_ok by exact E3. cbv beta. cbv zeta.
  erewrite bind_ok by exact E4. cbv beta.
  rewrite E5. erewrite bind_ok by apply lift_ok. cbv beta.
  unfold St.bind, append_results, St.modify, St.ret.
  intros H. injection H as Ha _. subst a.
  cbn [join_info return_pattern conditional_logic uses_spread
       uses_optional_chaining complexity all_fields entity_types code_length].
  repeat split; reflexivity.
Qed.

Lemma calculate_complexity_score_facts (ji : join_info_t)
      (af et : list str) (n : nat) (cond : bool) :
  let c := calculate_complexity_score ji af et n cond in
  score c <= 10
  /\ length (factors c) <= score c <= 3 * length (factors c)
  /\ (uses_join ji = true -> level c <> ("simple" : str))
  /\ (level c = ("simple" : str) -> length (factors c) <= 1)
  /\ (level c = ("complex" : str) -> 3 <= length (factors c))
  /\ (level c = ("complex" : str) -> uses_join ji = false ->
      10 < length af /\ 1 < length et /\ 1000 < n).
Proof.
  unfold calculate_complexity_score. cbv zeta.
  destruct (uses_join ji);
    destruct (Nat.ltb_spec 10 (length af));
    destruct (Nat.ltb_spec 1 (length et));
    destruct (Nat.ltb_spec 1000 n);
    destruct cond; cbn;
    repeat split; intros; try lia; try discriminate; try congruence.
Qed.

End Complexity.

(** X12.  The complexity that [analyze_synthesizer] gives: the score is
    at most 10 and lies between the number of factors and three times
    that number; a text that contains [joinEntities] is never rated
    simple; an analysis rated simple has at most one factor, one rated
    complex at least three; and a text without [joinEntities] is rated
    complex only with more than ten fields, more than one entity type and
    more than 1000 characters. *)
Theorem complexity_of_an_analysis (name code : str)
        (st : RADFieldAnalyzer.analyzer) :
  exists a st',
    RADFieldAnalyzer.analyze_synthesizer name code st = Ok (a, st')
    /\ let c := RADFieldAnalyzer.complexity a in
       RADFieldAnalyzer.score c <= 10
       /\ length (RADFieldAnalyzer.factors c) <= RADFieldAnalyzer.score c
          <= 3 * length (RADFieldAnalyzer.factors c)
       /\ (contains "joinEntities" code = true ->
           RADFieldAnalyzer.level c <> ("simple" : str))
       /\ (RADFieldAnalyzer.level c = ("simple" : str) ->
           length (RADFieldAnalyzer.factors c) <= 1)
       /\ (RADFieldAnalyzer.level c = ("complex" : str) ->
           3 <= length (RADFieldAnalyzer.factors c))
       /\ (RADFieldAnalyzer.level c = ("complex" : str) ->
           contains "joinEntities" code = false ->
           10 < length (RADFieldAnalyzer.all_fields a)
           /\ 1 < length (RADFieldAnalyzer.entity_types a)
           /\ 1000 < length code).
Proof.
  destruct (analyze_synthesizer_spec name code st)
    as (a & st' & E & _ & _ & Hlen & _).
  exists a, st'. split; [exact E|].
  destruct (analyze_synthesizer_inv _ _ _ _ _ E) as (Hj & _ & _ & _ & _ & Hc).
  destruct (detect_join_patterns_spec code) as (ji & Hji & Hu & _).
  rewrite Hji in Hj. injection Hj as Hj. subst ji.
  cbv zeta. rewrite Hc, <- Hlen, <- Hu.
  apply calculate_complexity_score_facts.
Qed.

(** ** The divisions of the visual summary *)

Section VisualSummary.
Import RADFieldAnalyzer DataSummary.

Lemma collect_field_usage (r : report) :
  field_usage (collect r)
  = fold_left (fun c fa => counter_incr (normalized fa) c)
              (all_accesses (synthesizer_details r)) [].
Proof.
  unfold collect.
  change (@nil (str * nat))
    with (field_usage {| field_usage := []; field_categories := [];
                         field_entity_map := [] |}) at 2.
  generalize {| field_usage := []; field_categories := [];
                field_entity_map := [] |}.
  induction (all_accesses (synthesizer_details r)) as [|fa l IH]; intros u;
    simpl; [reflexivity|].
  rewrite IH. reflexivity.
Qed.

Lemma fold_left_max_ge (l : list nat) (v : nat) : v <= fold_left Nat.max l v.
Proof.
  revert v; induction l as [|x l IH]; intros v; simpl; [lia|].
  specialize (IH (Nat.max v x)). lia.
Qed.

Lemma max_of_pos (l : list nat) :
  l <> [] -> Forall (fun n => 1 <= n) l ->
  exists m, max_of l = Ok m /\ 1 <= m.
Proof.
  destruct l as [|v l]; [congruence|]. intros _ H.
  inversion H; subst. eexists. split; [reflexivity|].
  pose proof (fold_left_max_ge l v). lia.
Qed.

Lemma concat_mapR_raise {A} (f : A -> result str) (l : list A) (e : exn) :
  concat_mapR f l = Raise e -> exists x, In x l /\ f x = Raise e.
Proof.
  induction l as [|x l IH]; simpl; [discriminate|].
  destruct (f x) as [s|e'] eqn:E; simpl.
  - destruct (concat_mapR f l) as [t|e'']; simpl; [discriminate|].
    intros H. destruct (IH H) as (y & Hy & Ey). exists y. auto.
  - intros H. exists x. split; [left; reflexivity|]. congruence.
Qed.

Lemma true_div_ok (a b : nat) :
  b <> 0 -> exists q, PyFloat.true_div a b = Ok q.
Proof.
  intros H. unfold PyFloat.true_div.
  destruct (Nat.eqb_spec b 0); [contradiction|]. eexists; reflexivity.
Qed.

Lemma int_not_zero_division (x : PrimFloat.float) :
  PyFloat.int x <> Raise ZeroDivisionError.
Proof.
  unfold PyFloat.int. destruct (PyFloat.exact x) as [[[s m] e]|]; discriminate.
Qed.

Lemma bar_line_not_zero_division (sc mc : nat) (fc : str * nat) :
  sc <> 0 -> mc <> 0 -> bar_line sc mc fc <> Raise ZeroDivisionError.
Proof.
  intros Hs Hm. unfold bar_line. destruct fc as [f c].
  destruct (true_div_ok c sc Hs) as (q & ->).
  destruct (true_div_ok c mc Hm) as (q' & ->).
  cbn [DataSummary.bind].
  pose proof (int_not_zero_division (PyFloat.mul_nat q' 40)) as H.
  destruct (PyFloat.int (PyFloat.mul_nat q' 40)); cbn [DataSummary.bind];
    congruence.
Qed.

Lemma category_section_not_zero_division (u : usage) (c : str * (nat * nat)) :
  category_section u c <> Raise ZeroDivisionError.
Proof.
  destruct c as [cat [fc tu]]. unfold category_section.
  destruct (Nat.ltb_spec 0 fc) as [H|H]; cbn [DataSummary.bind]; [|discriminate].
  destruct (true_div_ok tu fc) as (q & ->); [lia|].
  cbn [DataSummary.bind]. discriminate.
Qed.

Lemma field_usage_counts (r : report) :
  Forall (fun n => 1 <= n) (map snd (field_usage (collect r)))
  /\ (all_accesses (synthesizer_details r) <> [] ->
      map snd (field_usage (collect r)) <> []).
Proof.
  rewrite collect_field_usage.
  destruct (counter_map_spec normalized (all_accesses (synthesizer_details r)))
    as (_ & Hn & Hk & Ht).
  cbv zeta in Hn, Hk, Ht.
  set (c := fold_left _ _ []) in *. split.
  - apply Forall_forall. intros n Hin.
    apply in_map_iff in Hin as ([k n'] & E & Hin). simpl in E. subst n'.
    rewrite (Hn k n Hin). apply tally_pos, Hk.
    change k with (fst (k, n)). apply in_map, Hin.
  - intros Hne E. apply Hne. apply length_zero_iff_nil. rewrite <- Ht.
    apply map_eq_nil in E. rewrite E. reflexivity.
Qed.

Lemma visual_summary_divisions (r : report) :
  (all_accesses (synthesizer_details r) = [] ->
   create_visual_summary r = Raise ValueError)
  /\ create_visual_summary r <> Raise ZeroDivisionError.
Proof.
  assert (Hempty : all_accesses (synthesizer_details r) = [] ->
                   create_visual_summary r = Raise ValueError).
  { intros H. unfold create_visual_summary.
    rewrite collect_field_usage, H. reflexivity. }
  split; [exact Hempty|].
  destruct (all_accesses (synthesizer_details r)) as [|fa l] eqn:Ea.
  { rewrite Hempty by reflexivity. discriminate. }
  assert (Hsc : length (synthesizer_details r) <> 0).
  { intros H. apply length_zero_iff_nil in H. rewrite H in Ea. discriminate. }
  destruct (field_usage_counts r) as [Hpos Hne].
  destruct (max_of_pos _ (Hne ltac:(rewrite Ea; discriminate)) Hpos)
    as (mc & Hmax & Hmc).
  unfold create_visual_summary. cbv zeta. rewrite Hmax. cbn [DataSummary.bind].
  destruct (concat_mapR (bar_line _ mc) _) as [bars|e] eqn:Eb;
    cbn [DataSummary.bind].
  2:{ intros H. injection H as ->.
      destruct (concat_mapR_raise _ _ _ Eb) as (x & _ & Hx).
      revert Hx. apply bar_line_not_zero_division; [exact Hsc|lia]. }
  destruct (concat_mapR (category_section _) _) as [cats|e] eqn:Ec;
    cbn [DataSummary.bind].
  2:{ intros H. injection H as ->.
      destruct (concat_mapR_raise _ _ _ Ec) as (x & _ & Hx).
      revert Hx. apply category_section_not_zero_division. }
  match goal with
  | |- DataSummary.bind ?m _ <> _ => destruct m as [critical|e] eqn:Ecr
  end; cbn [DataSummary.bind]; [discriminate|].
  intros H. injection H as ->.
  destruct (map fst (filter _ _)) as [|cf cfs]; [discriminate|].
  match type of Ecr with
  | DataSummary.bind ?m _ = _ => destruct m as [lines|e] eqn:El
  end; cbn [DataSummary.bind] in Ecr; [discriminate|].
  injection Ecr as ->.
  destruct (concat_mapR_raise _ _ _ El) as (x & _ & Hx).
  destruct (true_div_ok (count_of x (field_usage (collect r)))
              (length (synthesizer_details r)) Hsc) as (q & Hq).
  rewrite Hq in Hx. discriminate.
Qed.

End VisualSummary.

(** X13.  The divisions of [create_visual_summary] never fail: on no
    report does it raise [ZeroDivisionError].  On a report without any
    field access, with or without synthesizers, it raises [ValueError]
    at [max(field_usage.values())], before the first division; on any
    other report the number of synthesizers and the largest count are
    both at least one when they divide. *)
Theorem visual_summary_never_divides_by_zero (r : RADFieldAnalyzer.report) :
  (RADFieldAnalyzer.all_accesses (RADFieldAnalyzer.synthesizer_details r) = [] ->
   DataSummary.create_visual_summary r = Raise ValueError)
  /\ DataSummary.create_visual_summary r <> Raise ZeroDivisionError.
Proof. apply visual_summary_divisions. Qed.

(** ** The index of unique data fields *)

Section UniqueIndex.
Import RADFieldAnalyzer UniqueDataAnalyzer.

Lemma analyze_report_uses (r : report) (d : list (str * info)) :
  analyze_report r d
  = fold_left (fun d u => record_access (fst u) (snd u) d) (uses_of r) d.
Proof.
  unfold analyze_report, uses_of.
  revert d; induction (synthesizer_details r) as [|a l IH]; intros d; simpl;
    [reflexivity|].
  rewrite fold_left_app, IH. f_equal.
  generalize d. induction (field_accesses a) as [|fa fas IH']; intros d0; simpl;
    [reflexivity|]. apply IH'.
Qed.

Lemma categorize_field_named (k : str) : fst (categorize_field k) <> [].
Proof.
  unfold categorize_field. cbv zeta.
  repeat match goal with
         | |- context [if ?b then _ else _] => destruct b
         end; discriminate.
Qed.

Lemma update_info_keys (k : str) (f : info -> info) (d : list (str * info)) :
  map fst (update_info k f d) = set_add k (map fst d).
Proof.
  unfold set_add. induction d as [|[k' i] d IH]; simpl; [reflexivity|].
  destruct (eqb_str k k'); simpl; [reflexivity|].
  rewrite IH. unfold mem_str. destruct (existsb (eqb_str k) (map fst d));
    reflexivity.
Qed.

Lemma update_info_In (k : str) (f : info -> info) (d : list (str * info))
      (k' : str) (i' : info) :
  NoDup (map fst d) ->
  In (k', i') (update_info k f d) ->
  (k' <> k /\ In (k', i') d)
  \/ (k' = k /\ ((i' = f default_info /\ ~ In k (map fst d))
                 \/ exists i, i' = f i /\ In (k, i) d)).
Proof.
  induction d as [|[k0 i0] d IH]; simpl; intros Hnd H.
  - destruct H as [H|[]]. inversion H; subst. right. split; [reflexivity|].
    left. split; [reflexivity|]. intros [].
  - inversion Hnd as [|? ? Hk0 Hnd']; subst.
    destruct (eqb_str k k0) eqn:E.
    + apply eqb_str_eq in E. subst k0.
      destruct H as [H|H].
      * inversion H; subst. right. split; [reflexivity|]. right.
        exists i0. split; [reflexivity|]. left; reflexivity.
      * left. split; [|right; exact H].
        intros ->. apply Hk0. apply (in_map fst) in H. exact H.
    + apply eqb_str_neq in E. destruct H as [H|H].
      * inversion H; subst. left. split; [congruence|left; reflexivity].
      * destruct (IH Hnd' H) as [[H1 H2]|[H1 [[H2 H3]|(m & H2 & H3)]]].
        -- left. split; [exact H1|right; exact H2].
        -- right. split; [exact H1|]. left. split; [exact H2|].
           intros [H4|H4]; [congruence|exact (H3 H4)].
        -- right. split; [exact H1|]. right. exists m.
           split; [exact H2|right; exact H3].
Qed.

Lemma index_ok_step (seen : list (str * field_access)) (d : list (str * info))
      (s : str) (fa : field_access) :
  index_ok seen d -> index_ok (seen ++ [(s, fa)]) (record_access s fa d).
Proof.
  intros (Hnd & Hent & Hkeys). unfold record_access. cbv zeta.
  fold (deep_key fa). set (k := deep_key fa).
  split; [rewrite update_info_keys; apply set_add_NoDup, Hnd|]. split.
  - intros k' i' Hin.
    destruct (update_info_In _ _ _ _ _ Hnd Hin)
      as [[H1 H2]|[H1 [[H2 H3]|(i & H2 & H3)]]].
    + destruct (Hent _ _ H2) as (A & B & C & D).
      split; [exact A|]. split; [exact B|]. split.
      * intros s'. rewrite C. split; intros (fa' & H & E).
        -- exists fa'. split; [apply in_or_app; left; exact H|exact E].
        -- exists fa'. split; [|exact E].
           apply in_app_or in H as [H|[H|[]]]; [exact H|].
           injection H as <- <-. exfalso. apply H1. symmetry. exact E.
      * intros v. rewrite D. split; intros (s' & fa' & H & E & F).
        -- exists s', fa'. split; [apply in_or_app; left; exact H|auto].
        -- exists s', fa'. split; [|auto].
           apply in_app_or in H as [H|[H|[]]]; [exact H|].
           injection H as <- <-. exfalso. apply H1. symmetry. exact E.
    + subst k' i'. cbn [category subcategory data_type description
                        synthesizers raw_variations default_info].
      assert (Hnone : forall s' fa', In (s', fa') seen -> deep_key fa' <> k).
      { intros s' fa' H E. apply H3. rewrite <- E. apply (Hkeys s' fa' H). }
      split; [repeat split; reflexivity|].
      split; [apply set_add_NoDup; constructor|]. split.
      * intros s'. rewrite set_add_In. split.
        -- intros [->|[]]. exists fa. split; [|reflexivity].
           apply in_or_app; right; left; reflexivity.
        -- intros (fa' & H & E). apply in_app_or in H as [H|[H|[]]].
           ++ exfalso. exact (Hnone _ _ H E).
           ++ injection H as <- _. left; reflexivity.
      * intros v. rewrite set_add_In. split.
        -- intros [->|[]]. exists s, fa. split; [|auto].
           apply in_or_app; right; left; reflexivity.
        -- intros (s' & fa' & H & E & F). apply in_app_or in H as [H|[H|[]]].
           ++ exfalso. exact (Hnone _ _ H E).
           ++ injection H as _ <-. left; symmetry; exact F.
    + subst k' i'. destruct (Hent _ _ H3) as ((A1 & A2 & A3 & A4) & B & C & D).
      cbn [category subcategory data_type description
           synthesizers raw_variations].
      pose proof (categorize_field_named k) as Hc. rewrite <- A1 in Hc.
      destruct (category i) as [|c0 cs] eqn:Ecat; [congruence|].
      split; [repeat split; assumption|].
      split; [apply set_add_NoDup, B|]. split.
      * intros s'. rewrite set_add_In, C. split.
        -- intros [->|(fa' & H & E)].
           ++ exists fa. split; [|reflexivity].
              apply in_or_app; right; left; reflexivity.
           ++ exists fa'. split; [apply in_or_app; left; exact H|exact E].
        -- intros (fa' & H & E). apply in_app_or in H as [H|[H|[]]].
           ++ right. exists fa'. auto.
           ++ injection H as <- _. left; reflexivity.
      * intros v. rewrite set_add_In, D. split.
        -- intros [->|(s' & fa' & H & E & F)].
           ++ exists s, fa. split; [|auto].
              apply in_or_app; right; left; reflexivity.
           ++ exists s', fa'. split; [apply in_or_app; left; exact H|auto].
        -- intros (s' & fa' & H & E & F). apply in_app_or in H as [H|[H|[]]].
           ++ right. exists s', fa'. auto.
           ++ injection H as _ <-. left; symmetry; exact F.
  - intros s' fa' H. rewrite update_info_keys, set_add_In.
    apply in_app_or in H as [H|[H|[]]].
    + right. apply (Hkeys _ _ H).
    + injection H as _ <-. left; reflexivity.
Qed.

Lemma index_ok_fold (l seen : list (str * field_access)) (d : list (str * info)) :
  index_ok seen d ->
  index_ok (seen ++ l)
           (fold_left (fun d u => record_access (fst u) (snd u) d) l d).
Proof.
  revert seen d; induction l as [|[s fa] l IH]; intros seen d H; simpl.
  - rewrite app_nil_r. exact H.
  - change (seen ++ (s, fa) :: l) with (seen ++ [(s, fa)] ++ l).
    rewrite app_assoc. apply IH, index_ok_step, H.
Qed.

Lemma index_ok_init : index_ok [] init.
Proof.
  split; [constructor|]. split; [intros k i []|intros s fa []].
Qed.

End UniqueIndex.

(** X14.  The index that [analyze_report] builds from an empty analyzer
    has one entry for each key: every field access of the report is
    filed under its deeply normalized path; no key occurs twice; the
    category, subcategory, type and description of an entry are those of
    its key; and the synthesizers and raw variations of an entry are,
    without duplicates, exactly those of the accesses filed under it. *)
Theorem analyze_report_builds_an_index (r : RADFieldAnalyzer.report) :
  let d := UniqueDataAnalyzer.analyze_report r UniqueDataAnalyzer.init in
  NoDup (map fst d)
  /\ (forall s fa, In (s, fa) (uses_of r) -> In (deep_key fa) (map fst d))
  /\ (forall k i, In (k, i) d ->
        entry_describes k i
        /\ NoDup (UniqueDataAnalyzer.synthesizers i)
        /\ (forall s, In s (UniqueDataAnalyzer.synthesizers i)
                      <-> exists fa, In (s, fa) (uses_of r) /\ deep_key fa = k)
        /\ (forall v, In v (UniqueDataAnalyzer.raw_variations i)
                      <-> exists s fa, In (s, fa) (uses_of r) /\ deep_key fa = k
                                       /\ RADFieldAnalyzer.field fa = v)).
Proof.
  cbv zeta. rewrite analyze_report_uses.
  destruct (index_ok_fold (uses_of r) [] UniqueDataAnalyzer.init index_ok_init)
    as (A & B & C).
  simpl in B, C. split; [exact A|]. split; [exact C|exact B].
Qed.

(** ** From the simple format back to the sections *)

Section RoundTrip.
Import RADFieldAnalyzer.

Lemma simple_format_go_written (rows : list Convert.row) (index : nat) (acc : str) :
  Convert.simple_format_go index rows acc
  = acc ++ concat (map (fun e => "## " ++ section_body e) (written index rows)).
Proof.
  revert index acc; induction rows as [|row rows IH]; intros index acc;
    cbn [Convert.simple_format_go written].
  - simpl. rewrite app_nil_r. reflexivity.
  - cbv zeta. rewrite IH. unfold written_row. cbv zeta.
    destruct (Convert.truthy (Convert.get (Convert.query_cell row) None));
      [|reflexivity].
    destruct (Mermaid.extract_pure_graphql _) as [[|c code]|];
      cbn [Convert.truthy]; try reflexivity.
    cbn [map concat]. unfold section_body. cbn [fst snd Convert.fmt].
    destruct (Convert.truthy (Convert.get (Convert.rad_id_cell row) (Some [])));
      cbn [Convert.fmt]; rewrite <- !app_assoc; reflexivity.
Qed.

Lemma startswith_past (sub x rest : str) (c : ascii) :
  ~ In c sub -> startswith sub (x ++ c :: rest) = true -> startswith sub x = true.
Proof.
  revert x; induction sub as [|a sub IH]; intros x Hc H; [reflexivity|].
  destruct x as [|y x]; simpl in *.
  - apply andb_true_iff in H as [H _]. apply Ascii.eqb_eq in H.
    exfalso. apply Hc. left. exact H.
  - apply andb_true_iff in H as [H1 H2]. rewrite H1. simpl.
    apply IH; [|exact H2]. intros H. apply Hc. right; exact H.
Qed.

Lemma index_of_None_inv (sub : str) (y : ascii) (x : str) :
  index_of sub (y :: x) = None ->
  startswith sub (y :: x) = false /\ index_of sub x = None.
Proof.
  cbn [index_of]. destruct (startswith sub (y :: x)); [discriminate|].
  destruct (index_of sub x); [discriminate|]. auto.
Qed.

Lemma index_of_past (sub x rest : str) (c : ascii) :
  ~ In c sub -> index_of sub x = None ->
  index_of sub (x ++ c :: rest)
  = option_map (fun i => S (length x) + i) (index_of sub rest).
Proof.
  intros Hc. induction x as [|y x IH]; intros H.
  - assert (Hs : startswith sub (c :: rest) = false).
    { destruct sub as [|a sub]; [discriminate H|]. simpl.
      destruct (Ascii.eqb a c) eqn:E; [|reflexivity].
      apply Ascii.eqb_eq in E. exfalso. apply Hc. left; exact E. }
    cbn [app index_of length]. rewrite Hs.
    destruct (index_of sub rest); reflexivity.
  - destruct (index_of_None_inv _ _ _ H) as [H1 H2].
    cbn [app index_of length].
    destruct (startswith sub (y :: x ++ c :: rest)) eqn:E.
    + apply (startswith_past sub (y :: x) rest c Hc) in E. congruence.
    + rewrite (IH H2). destruct (index_of sub rest); reflexivity.
Qed.

Lemma contains_None (sub x : str) :
  contains sub x = false <-> index_of sub x = None.
Proof.
  unfold contains. destruct (index_of sub x); split; congruence.
Qed.

Lemma contains_past (sub x y : str) (c : ascii) :
  ~ In c sub -> contains sub x = false -> contains sub y = false ->
  contains sub (x ++ c :: y) = false.
Proof.
  rewrite !contains_None. intros Hc Hx Hy.
  rewrite (index_of_past sub x y c Hc Hx), Hy. reflexivity.
Qed.

Lemma contains_end (sub x : str) (c : ascii) :
  ~ In c sub -> contains sub x = false -> contains sub (x ++ [c]) = false.
Proof.
  intros Hc Hx. apply contains_past; [exact Hc|exact Hx|].
  apply contains_None. destruct sub; [|reflexivity].
  apply contains_None in Hx. destruct x; discriminate Hx.
Qed.

Lemma split_go_clear (sep x cur : str) :
  index_of sep x = None -> split_go sep x 0 cur = [rev cur ++ x].
Proof.
  revert cur; induction x as [|y x IH]; intros cur H.
  - simpl. rewrite app_nil_r. reflexivity.
  - destruct (index_of_None_inv _ _ _ H) as [H1 H2].
    cbn [split_go]. rewrite H1, (IH _ H2). simpl.
    rewrite <- app_assoc. reflexivity.
Qed.

Lemma split_go_skip (sep a rest cur : str) :
  split_go sep (a ++ rest) (length a) cur = split_go sep rest 0 cur.
Proof.
  induction a as [|z a IH]; [reflexivity|]. simpl. exact IH.
Qed.

Lemma split_go_past (sep x rest cur : str) (c : ascii) :
  ~ In c sep -> index_of sep x = None ->
  split_go sep (x ++ c :: sep ++ rest) 0 cur
  = (rev cur ++ x ++ [c]) :: split sep rest.
Proof.
  intros Hc. revert cur; induction x as [|y x IH]; intros cur H.
  - destruct sep as [|a sep]; [discriminate H|].
    assert (Hs : startswith (a :: sep) (c :: a :: sep ++ rest) = false).
    { simpl. destruct (Ascii.eqb a c) eqn:E; [|reflexivity].
      apply Ascii.eqb_eq in E. exfalso. apply Hc. left; exact E. }
    pose proof (startswith_app (a :: sep) rest) as Hp.
    pose proof (split_go_skip (a :: sep) sep rest []) as Hk.
    cbn [app] in *. cbn [split_go]. rewrite Hs. cbn [split_go]. rewrite Hp.
    replace (length (a :: sep) - 1) with (length sep) by (simpl; lia).
    rewrite Hk. reflexivity.
  - destruct (index_of_None_inv _ _ _ H) as [H1 H2].
    cbn [app split_go].
    destruct (startswith sep (y :: x ++ c :: sep ++ rest)) eqn:E.
    + apply (startswith_past sep (y :: x) _ c Hc) in E. congruence.
    + rewrite (IH _ H2). simpl. rewrite <- app_assoc. reflexivity.
Qed.

Lemma not_In_mem (c : ascii) (s : str) : mem_char s c = false -> ~ In c s.
Proof.
  unfold mem_char. intros H Hin.
  assert (E : existsb (Ascii.eqb c) s = true).
  { apply existsb_exists. exists c. split; [exact Hin|apply Ascii.eqb_refl]. }
  congruence.
Qed.

Lemma slice_mid (a b c : str) :
  slice (a ++ b ++ c) (Z.of_nat (length a)) (Z.of_nat (length a + length b)) = b.
Proof.
  unfold slice, clip.
  destruct (Z.ltb_spec (Z.of_nat (length a)) 0); [lia|].
  destruct (Z.ltb_spec (Z.of_nat (length a + length b)) 0); [lia|].
  rewrite !Nat2Z.id, !length_app.
  rewrite !Nat.min_l by lia.
  replace (length a + length b - length a) with (length b) by lia.
  rewrite skipn_app, skipn_all, Nat.sub_diag. simpl.
  rewrite firstn_app, firstn_all, Nat.sub_diag. simpl.
  apply app_nil_r.
Qed.

Lemma skipn_exact (n : nat) (a b : str) : length a = n -> skipn n (a ++ b) = b.
Proof.
  intros <-. rewrite skipn_app, skipn_all, Nat.sub_diag. reflexivity.
Qed.

Lemma takewhile_stop_char (q : ascii -> bool) (x : str) (c : ascii) (rest : str) :
  forallb q x = true -> q c = false -> takewhile q (x ++ c :: rest) = x.
Proof.
  intros Hx Hc. induction x as [|y x IH]; simpl in *.
  - rewrite Hc. reflexivity.
  - apply andb_true_iff in Hx as [H1 H2]. rewrite H1, (IH H2). reflexivity.
Qed.

Lemma first_line_title (t rest : str) :
  ~ In "010"%char t -> first_line (t ++ "010"%char :: rest) = t.
Proof.
  intros H. apply takewhile_stop_char; [|reflexivity].
  apply forallb_forall. intros c Hc. unfold not_newline.
  destruct (Ascii.eqb_spec c "010"%char) as [->|Hn]; [contradiction|].
  apply negb_true_iff.
  destruct c as [[] [] [] [] [] [] [] []]; try reflexivity. congruence.
Qed.

Lemma section_body_shape (t c : str) :
  section_body (t, c)
  = (t ++ "010"%char :: "010"%char :: fence_open)
      ++ ("010"%char :: c ++ ["010"%char])
      ++ (fence ++ ["010"%char; "010"%char]).
Proof.
  unfold section_body. cbn [fst snd]. unfold nl.
  rewrite <- !app_assoc. cbn [app]. rewrite <- !app_assoc. reflexivity.
Qed.

Lemma index_of_cons (sub rest : str) (c : ascii) :
  ~ In c sub -> index_of sub [] = None ->
  index_of sub (c :: rest) = option_map S (index_of sub rest).
Proof. intros Hc H. apply (index_of_past sub [] rest c Hc H). Qed.

Lemma find_fence_open (t rest : str) :
  contains fence_open t = false ->
  find fence_open (t ++ "010"%char :: "010"%char :: fence_open ++ rest) 0
  = Z.of_nat (length t + 2).
Proof.
  intros Ht. apply contains_None in Ht.
  assert (Hn : ~ In "010"%char fence_open) by (apply not_In_mem; reflexivity).
  replace (length t + 2) with (0 + (length t + 2)) by lia.
  apply (find_from fence_open _ 0 (length t + 2)); [lia|].
  cbn [skipn].
  rewrite (index_of_past fence_open t _ "010"%char Hn Ht).
  rewrite (index_of_cons fence_open _ "010"%char Hn eq_refl).
  rewrite index_of_prefix. simpl. f_equal. lia.
Qed.

Lemma find_fence (a c rest : str) :
  contains fence c = false ->
  find fence (a ++ fence_open ++ "010"%char :: c ++ "010"%char :: fence ++ rest)
       (Z.of_nat (length a) + 1)
  = Z.of_nat (length a + 13 + 1 + length c + 1).
Proof.
  intros Hc. apply contains_None in Hc.
  assert (Hn : ~ In "010"%char fence) by (apply not_In_mem; reflexivity).
  replace (Z.of_nat (length a) + 1)%Z with (Z.of_nat (length a + 1)) by lia.
  replace (length a + 13 + 1 + length c + 1)
    with ((length a + 1) + (12 + 1 + length c + 1)) by lia.
  apply find_from.
  { rewrite !length_app. change (length fence_open) with 13. lia. }
  change fence_open with ("`"%char :: ("``javascript" : str)).
  change (a ++ ("`"%char :: ("``javascript" : str)) ++ ?r)
    with (a ++ ["`"%char] ++ (("``javascript" : str) ++ r)).
  rewrite app_assoc. rewrite skipn_exact by (rewrite length_app; reflexivity).
  rewrite (index_of_past fence ("``javascript" : str) _ "010"%char Hn eq_refl).
  rewrite (index_of_past fence c _ "010"%char Hn Hc).
  rewrite index_of_prefix. simpl. f_equal. lia.
Qed.

Lemma parse_section_body (e : str * str) :
  reads_back e ->
  parse_section (section_body e) = Some (strip (fst e), strip (snd e)).
Proof.
  destruct e as [t c]. intros (Hnl & Hsp & _ & Hfo & _ & Hfe). cbn [fst snd] in *.
  assert (Hname : section_name (section_body (t, c)) = strip t).
  { rewrite section_name_header_line.
    - unfold section_body. cbn [fst snd]. unfold nl at 1. cbn [app].
      rewrite (first_line_title t _ Hnl). reflexivity.
    - unfold section_body. cbn [fst snd]. unfold nl at 1. cbn [app].
      rewrite (first_line_title t _ Hnl). exact Hsp. }
  unfold parse_section. unfold section_name in Hname.
  destruct (split_nonempty nl (strip (section_body (t, c)))) as (x & l & El).
  rewrite El in *. cbn [hd] in Hname. rewrite Hname.
  assert (Hcs : find fence_open (section_body (t, c)) 0
                = Z.of_nat (length t + 2)).
  { rewrite section_body_shape. rewrite <- !app_assoc. cbn [app].
    apply find_fence_open, Hfo. }
  assert (Hce : find fence (section_body (t, c)) (Z.of_nat (length t + 2) + 1)
                = Z.of_nat (length t + 2 + 13 + 1 + length c + 1)).
  { pose proof (find_fence (t ++ ["010"%char; "010"%char]) c
                  ["010"%char; "010"%char] Hfe) as H.
    rewrite length_app in H. cbn [length] in H.
    rewrite <- H. f_equal.
    rewrite section_body_shape. rewrite <- !app_assoc. cbn [app].
    rewrite <- !app_assoc. reflexivity. }
  rewrite Hcs, Hce.
  replace (Z.of_nat (length t + 2) =? -1)%Z with false
    by (symmetry; apply Z.eqb_neq; lia).
  replace (Z.of_nat (length t + 2 + 13 + 1 + length c + 1) =? -1)%Z with false
    by (symmetry; apply Z.eqb_neq; lia).
  cbn [negb andb]. f_equal. f_equal.
  rewrite section_body_shape.
  set (a := t ++ "010"%char :: "010"%char :: fence_open).
  set (b := "010"%char :: c ++ ["010"%char]).
  assert (Ha : length a = length t + 2 + 13).
  { unfold a. rewrite length_app. cbn [length]. change (length fence_open) with 13.
    lia. }
  assert (Hb : length b = 1 + length c + 1).
  { unfold b. cbn [length]. rewrite length_app. cbn [length]. lia. }
  replace (Z.of_nat (length t + 2) + 13)%Z with (Z.of_nat (length a)) by lia.
  replace (length t + 2 + 13 + 1 + length c + 1) with (length a + length b) by lia.
  rewrite slice_mid. unfold b.
  change ("010"%char :: c ++ ["010"%char]) with (["010"%char] ++ c ++ ["010"%char]).
  apply strip_by_pad; reflexivity.
Qed.

Lemma section_body_clear (e : str * str) :
  reads_back e ->
  exists core, section_body e = core ++ nl /\ index_of "## " core = None.
Proof.
  destruct e as [t c]. intros (_ & _ & Ht & _ & Hc & _). cbn [fst snd] in *.
  exists (t ++ "010"%char :: "010"%char :: fence_open
            ++ "010"%char :: c ++ "010"%char :: fence ++ ["010"%char]).
  split.
  - unfold section_body, nl. cbn [fst snd]. rewrite <- !app_assoc. cbn [app].
    rewrite <- !app_assoc. cbn [app]. rewrite <- !app_assoc. reflexivity.
  - assert (Hn : ~ In "010"%char ("## " : str)) by (apply not_In_mem; reflexivity).
    apply contains_None.
    apply contains_past; [exact Hn|exact Ht|].
    apply (contains_past "## " [] _ "010"%char Hn eq_refl).
    apply (contains_past "## " fence_open _ "010"%char Hn eq_refl).
    apply contains_past; [exact Hn|exact Hc|].
    apply (contains_end "## " fence "010"%char Hn eq_refl).
Qed.

Lemma split_sections (es : list (str * str)) (x : str) :
  index_of "## " x = None -> Forall reads_back es ->
  split "## " ((x ++ nl)
               ++ concat (map (fun e => "## " ++ section_body e) es))
  = (x ++ nl) :: map section_body es.
Proof.
  assert (Hn : ~ In "010"%char ("## " : str)) by (apply not_In_mem; reflexivity).
  intros Hx Hes. revert x Hx.
  induction Hes as [|e es He Hes IH]; intros x Hx.
  - cbn [map concat]. rewrite app_nil_r. unfold split.
    rewrite split_go_clear; [reflexivity|].
    apply contains_None, contains_end; [exact Hn|apply contains_None, Hx].
  - cbn [map concat].
    destruct (section_body_clear e He) as (core & Ec & Hc).
    rewrite Ec.
    replace ((x ++ nl) ++ ("## " ++ core ++ nl) ++ concat
               (map (fun e0 => "## " ++ section_body e0) es))
      with (x ++ "010"%char :: "## "
              ++ ((core ++ nl) ++ concat
                    (map (fun e0 => "## " ++ section_body e0) es)))
      by (unfold nl; rewrite <- !app_assoc; reflexivity).
    unfold split at 1. rewrite (split_go_past "## " x _ [] "010"%char Hn Hx).
    cbn [rev app]. f_equal. apply IH, Hc.
Qed.

Lemma parse_sections (es : list (str * str)) :
  Forall reads_back es ->
  filter_map parse_section (map section_body es)
  = map (fun e => (strip (fst e), strip (snd e))) es.
Proof.
  induction 1 as [|e es He Hes IH]; [reflexivity|].
  cbn [map filter_map]. rewrite (parse_section_body e He), IH. reflexivity.
Qed.

Lemma written_stripped (rows : list Convert.row) (index : nat) :
  Forall (fun e => strip (snd e) = snd e) (written index rows).
Proof.
  revert index; induction rows as [|row rows IH]; intros index;
    cbn [written]; [constructor|].
  destruct (written_row index row) as [e|] eqn:E; [|apply IH].
  constructor; [|apply IH].
  unfold written_row in E. cbv zeta in E.
  destruct (Convert.truthy _); [|discriminate].
  destruct (Convert.get (Convert.query_cell row) None) as [[|q0 q]|];
    cbn [Mermaid.extract_pure_graphql] in E; try discriminate.
  destruct (strip (strip_chars quotes2 (strip (q0 :: q)))) as [|c code] eqn:Es;
    [discriminate|].
  injection E as <-. cbn [snd]. rewrite <- Es. apply strip_by_idem.
Qed.

Lemma simple_format_sections (rows : list Convert.row) :
  Forall reads_back (written 0 rows) ->
  parse_rad_file (Convert.simple_format rows)
  = map (fun e => (strip (fst e), snd e)) (written 0 rows).
Proof.
  intros H. unfold parse_rad_file, Convert.simple_format.
  rewrite simple_format_go_written.
  change (("# RAD Queries" : str) ++ nl ++ nl)
    with ((("# RAD Queries" : str) ++ nl) ++ nl).
  rewrite (split_sections (written 0 rows) (("# RAD Queries" : str) ++ nl)
             eq_refl H). cbn [tl].
  rewrite (parse_sections _ H).
  pose proof (written_stripped rows 0) as Hs.
  induction Hs as [|e es He Hes IH]; [reflexivity|].
  inversion H; subst. cbn [map]. rewrite He, IH by assumption. reflexivity.
Qed.

End RoundTrip.

(** X15.  Round trip between the two scripts: the simple format that
    [convert_to_mermaid] writes is read back by [parse_rad_file] as one
    pair for each row that has a query, in the order of the rows, with
    the title of the row (stripped) and its cleaned query, provided every
    title is one line with a character that is not white space, and no
    title or query holds a section marker or the fence that would end
    its part early.  The whole analysis then reports one synthesizer for
    each of those rows, under its title. *)
Theorem simple_format_round_trip (rows : list Convert.row) :
  Forall reads_back (written 0 rows) ->
  RADFieldAnalyzer.parse_rad_file (Convert.simple_format rows)
  = map (fun e => (strip (fst e), snd e)) (written 0 rows)
  /\ exists r,
       RADFieldAnalyzer.run_main (Convert.simple_format rows) = Ok r
       /\ map RADFieldAnalyzer.name (RADFieldAnalyzer.synthesizer_details r)
          = map (fun e => strip (fst e)) (written 0 rows).
Proof.
  intros H. pose proof (simple_format_sections rows H) as E.
  split; [exact E|].
  unfold RADFieldAnalyzer.run_main.
  destruct (analyze_all (RADFieldAnalyzer.parse_rad_file (Convert.simple_format rows))
                        RADFieldAnalyzer.init) as (st' & Ea & Hm).
  rewrite Ea. eexists. split; [reflexivity|].
  cbn [RADFieldAnalyzer.generate_comprehensive_report
       RADFieldAnalyzer.synthesizer_details].
  rewrite Hm, E, map_map. reflexivity.
Qed.

Lemma simple_format_round_trip_witness :
  RADFieldAnalyzer.parse_rad_file (Convert.simple_format sample_rows)
  = [("Task-AddGEMSubscribers-gHLTYfjQb" : str,
      "profile => entityPick(entity, ['accountId'])" : str);
     ("Query_3" : str, "profile => { return []; }" : str)].
Proof.
  refine (eq_trans (proj1 (simple_format_round_trip sample_rows _)) _).
  - repeat constructor; try reflexivity; apply not_In_mem; reflexivity.
  - reflexivity.
Defined.

(** ** The text of a Mermaid node *)

Section MermaidNode.

Lemma sub_spaces_chars (s : str) (b : bool) (c : ascii) :
  In c (Convert.sub_spaces s b) -> is_space c = true -> c = " "%char.
Proof.
  revert b; induction s as [|d s IH]; intros b; simpl; [intros []|].
  destruct (is_space d) eqn:E.
  - destruct b; [apply IH|]. intros [<-|H]; [reflexivity|apply (IH _ H)].
  - intros [<-|H] Hc; [congruence|apply (IH _ H Hc)].
Qed.

Lemma sub_spaces_run (s : str) :
  match Convert.sub_spaces s true with
  | c :: _ => is_space c = false
  | [] => True
  end.
Proof.
  induction s as [|d s IH]; simpl; [exact I|].
  destruct (is_space d) eqn:E; [exact IH|exact E].
Qed.

Lemma two_spaces_not (x : ascii) (r : str) :
  match r with c :: _ => is_space c = false | [] => True end ->
  startswith "  " (x :: r) = false.
Proof.
  destruct r as [|c r]; intros H.
  - cbn [startswith list_ascii_of_string]. apply andb_false_r.
  - cbn [startswith list_ascii_of_string].
    destruct (Ascii.eqb_spec " "%char c) as [<-|]; [discriminate H|].
    apply andb_false_r.
Qed.

Lemma two_spaces_not_first (x : ascii) (r : str) :
  is_space x = false -> startswith "  " (x :: r) = false.
Proof.
  intros H. cbn [startswith list_ascii_of_string].
  destruct (Ascii.eqb_spec " "%char x) as [<-|]; [discriminate H|reflexivity].
Qed.

Lemma sub_spaces_single (s : str) (b : bool) :
  index_of "  " (Convert.sub_spaces s b) = None.
Proof.
  revert b; induction s as [|d s IH]; intros b; [reflexivity|].
  cbn [Convert.sub_spaces]. destruct (is_space d) eqn:E.
  - destruct b; [apply IH|].
    cbn [index_of]. rewrite (IH true).
    rewrite (two_spaces_not _ _ (sub_spaces_run s)). reflexivity.
  - cbn [index_of]. rewrite (IH false).
    rewrite (two_spaces_not_first _ _ E). reflexivity.
Qed.

Lemma index_of_Some_inv (sub s : str) (i : nat) :
  index_of sub s = Some i -> exists a b, s = a ++ sub ++ b.
Proof.
  revert i; induction s as [|c s IH]; intros i; cbn [index_of].
  - destruct (startswith sub []) eqn:E; [|discriminate].
    intros _. destruct (startswith_inv _ _ E) as (t & Et). exists [], t. exact Et.
  - destruct (startswith sub (c :: s)) eqn:E.
    + intros _. destruct (startswith_inv _ _ E) as (t & Et). exists [], t. exact Et.
    + destruct (index_of sub s) as [j|]; [|discriminate].
      intros _. destruct (IH j eq_refl) as (a & b & ->).
      exists (c :: a), b. reflexivity.
Qed.

Lemma contains_infix (sub a x b : str) :
  contains sub x = true -> contains sub (a ++ x ++ b) = true.
Proof.
  unfold contains. destruct (index_of sub x) as [i|] eqn:E; [|discriminate].
  intros _. destruct (index_of_Some_inv _ _ _ E) as (x1 & x2 & ->).
  replace (a ++ (x1 ++ sub ++ x2) ++ b) with ((a ++ x1) ++ sub ++ (x2 ++ b))
    by (rewrite <- !app_assoc; reflexivity).
  destruct (index_of_app sub (a ++ x1) (x2 ++ b)) as (j & -> & _). reflexivity.
Qed.

Lemma replace_char (c : ascii) (new s : str) :
  replace [c] new s = flat_map (fun x => if Ascii.eqb c x then new else [x]) s.
Proof.
  unfold replace. induction s as [|x s IH]; [reflexivity|].
  cbn [replace_go flat_map startswith length Nat.sub].
  destruct (Ascii.eqb c x); cbn [andb]; rewrite IH; reflexivity.
Qed.

Lemma sub_spaces_word (a w rest : str) (b : bool) :
  w <> [] -> forallb (fun c => negb (is_space c)) w = true ->
  exists a', Convert.sub_spaces (a ++ w ++ rest) b
             = a' ++ w ++ Convert.sub_spaces rest false.
Proof.
  intros Hne Hw. revert b; induction a as [|d a IH]; intros b.
  - exists []. cbn [app].
    revert b; induction w as [|c w IHw]; intros b; [congruence|].
    cbn [forallb] in Hw. apply andb_true_iff in Hw as [Hc Hw].
    apply negb_true_iff in Hc. cbn [app Convert.sub_spaces]. rewrite Hc. f_equal.
    destruct w as [|c' w']; [reflexivity|].
    apply IHw; [discriminate|exact Hw].
  - cbn [app Convert.sub_spaces]. destruct (is_space d).
    + destruct b.
      * apply IH.
      * destruct (IH true) as (a' & ->). exists (" "%char :: a'). reflexivity.
    + destruct (IH false) as (a' & ->). exists (d :: a'). reflexivity.
Qed.

Lemma strip_by_word (p : ascii -> bool) (a w b : str) :
  w <> [] -> forallb (fun c => negb (p c)) w = true ->
  exists a' b', strip_by p (a ++ w ++ b) = a' ++ w ++ b'.
Proof.
  intros Hne Hw.
  assert (Hfw : forallb p w = false).
  { destruct w as [|c w]; [congruence|]. simpl in *.
    apply andb_true_iff in Hw as [Hc _]. apply negb_true_iff in Hc.
    rewrite Hc. reflexivity. }
  assert (Hlw : dropwhile p (w ++ b) = w ++ b).
  { apply dropwhile_fixed. destruct w as [|c w]; [congruence|]. simpl in *.
    apply andb_true_iff in Hw as [Hc _]. apply negb_true_iff, Hc. }
  assert (Hrw : rstrip_by p w = w).
  { unfold rstrip_by. rewrite dropwhile_fixed; [apply rev_involutive|].
    destruct (rev w) as [|c r] eqn:E; [exact I|].
    rewrite forallb_forall in Hw. apply negb_true_iff, Hw, in_rev.
    rewrite E. left; reflexivity. }
  assert (Hl : exists a', dropwhile p (a ++ w ++ b) = a' ++ w ++ b).
  { rewrite dropwhile_app. destruct (forallb p a).
    - exists []. exact Hlw.
    - exists (dropwhile p a). reflexivity. }
  destruct Hl as (a' & Hl). unfold strip_by, lstrip_by. rewrite Hl.
  replace (a' ++ w ++ b) with ((a' ++ w) ++ b) by (rewrite <- app_assoc; reflexivity).
  rewrite rstrip_by_app. destruct (forallb p b).
  - rewrite rstrip_by_app, Hfw, Hrw. exists a', []. rewrite app_nil_r. reflexivity.
  - exists a', (rstrip_by p b). rewrite <- app_assoc. reflexivity.
Qed.

Lemma format_graphql_breaks (g : str) :
  In "010"%char g ->
  contains "<br/>" (Convert.format_graphql_for_mermaid (Some g)) = true.
Proof.
  intros Hin. destruct g as [|c0 g0]; [destruct Hin|].
  unfold Convert.format_graphql_for_mermaid. cbv zeta.
  set (g := c0 :: g0) in *.
  assert (H1 : In "010"%char (replace [dquote] ["\"%char; dquote] g)).
  { rewrite replace_char. apply in_flat_map. exists "010"%char.
    split; [exact Hin|]. left; reflexivity. }
  apply in_split in H1 as (t1 & t2 & E1). rewrite E1.
  unfold nl. rewrite replace_char, flat_map_app. cbn [flat_map].
  rewrite Ascii.eqb_refl.
  set (A := flat_map _ t1). set (B := flat_map _ t2).
  destruct (sub_spaces_word A "<br/>" B false) as (A' & EA);
    [discriminate|reflexivity|].
  rewrite EA.
  destruct (strip_by_word is_space A' "<br/>" (Convert.sub_spaces B false))
    as (a' & b' & Es); [discriminate|reflexivity|].
  unfold strip. rewrite Es.
  apply (contains_infix "<br/>" a' "<br/>" b'). reflexivity.
Qed.

End MermaidNode.

(** X16.  The text that [format_graphql_for_mermaid] returns is one
    line: its only white space characters are single spaces, never two
    in a row and none at its ends, so it holds no line break; and when
    the query has a line break, the text has the mark [<br/>]. *)
Theorem format_graphql_is_one_line (g : option str) :
  let f := Convert.format_graphql_for_mermaid g in
  (forall c, In c f -> is_space c = true -> c = " "%char)
  /\ ~ In "010"%char f
  /\ contains "  " f = false
  /\ strip f = f
  /\ (forall s, g = Some s -> In "010"%char s -> contains "<br/>" f = true).
Proof.
  cbv zeta.
  assert (Hsp : forall c, In c (Convert.format_graphql_for_mermaid g) ->
                          is_space c = true -> c = " "%char).
  { destruct g as [[|c0 g]|]; try (intros c []).
    unfold Convert.format_graphql_for_mermaid. cbv zeta.
    intros c Hc. apply strip_by_In in Hc. revert Hc. apply sub_spaces_chars. }
  split; [exact Hsp|]. split.
  { intros H. specialize (Hsp _ H eq_refl). discriminate Hsp. }
  split; [|split].
  - destruct g as [[|c0 g]|]; try reflexivity.
    unfold Convert.format_graphql_for_mermaid. cbv zeta.
    set (t := Convert.sub_spaces _ false).
    destruct (contains "  " (strip t)) eqn:E; [|reflexivity].
    destruct (strip_by_split is_space t) as (a & b & Et & _).
    pose proof (contains_infix "  " a (strip t) b E) as H.
    unfold strip in H. rewrite <- Et in H.
    unfold t in H. apply not_false_iff_true in H. exfalso. apply H.
    apply contains_None, sub_spaces_single.
  - destruct g as [[|c0 g]|]; try reflexivity.
    unfold Convert.format_graphql_for_mermaid. cbv zeta. apply strip_by_idem.
  - intros s -> Hin. apply format_graphql_breaks, Hin.
Qed.

(** ** The two dialects on the same text *)

Section Dialects.
Import Re.
Variable ok : ascii -> bool.
Variable rho : nat -> option nat.

Lemma star_greedy_similar R1 R2 (F : R1 -> R2) (p q : ascii -> bool)
      (k1 : str -> option R1) (k2 : str -> option R2) (s : str) :
  (forall c, ok c = true -> p c = q c) ->
  forallb ok s = true ->
  (forall s', forallb ok s' = true -> option_map F (k1 s') = k2 s') ->
  option_map F (star_greedy p k1 s) = star_greedy q k2 s.
Proof.
  intros Hpq Hs Hk. induction s as [|c s IH]; simpl.
  - apply Hk. reflexivity.
  - simpl in Hs. apply andb_true_iff in Hs as [Hc Hs'].
    rewrite <- (Hpq c Hc). destruct (p c).
    + specialize (IH Hs'). destruct (star_greedy p k1 s) as [r|].
      * simpl in IH. rewrite <- IH. reflexivity.
      * simpl in IH. rewrite <- IH. apply Hk. simpl. rewrite Hc, Hs'. reflexivity.
    + apply Hk. simpl. rewrite Hc, Hs'. reflexivity.
Qed.

Lemma star_lazy_similar R1 R2 (F : R1 -> R2) (p q : ascii -> bool)
      (k1 : str -> option R1) (k2 : str -> option R2) (s : str) :
  (forall c, ok c = true -> p c = q c) ->
  forallb ok s = true ->
  (forall s', forallb ok s' = true -> option_map F (k1 s') = k2 s') ->
  option_map F (star_lazy p k1 s) = star_lazy q k2 s.
Proof.
  intros Hpq Hs Hk. induction s as [|c s IH].
  - simpl. rewrite <- (Hk [] eq_refl). destruct (k1 []); reflexivity.
  - cbn [star_lazy]. rewrite <- (Hk (c :: s) Hs).
    simpl in Hs. apply andb_true_iff in Hs as [Hc Hs'].
    destruct (k1 (c :: s)); [reflexivity|]. simpl.
    rewrite <- (Hpq c Hc). destruct (p c); [apply IH, Hs'|reflexivity].
Qed.

Lemma run_similar R1 R2 (F : R1 -> R2) (r1 r2 : regex) :
  similar ok rho r1 r2 ->
  forall s g (k1 : str -> captures -> option R1)
         (k2 : str -> captures -> option R2),
    forallb ok s = true ->
    (forall s' g', forallb ok s' = true ->
                   option_map F (k1 s' g') = k2 s' (rename_caps rho g')) ->
    option_map F (run r1 s g k1) = run r2 s (rename_caps rho g) k2.
Proof.
  induction 1 as [|c|p q Hpq|p q Hpq|p q Hpq|a b a' b' Ha IHa Hb IHb
                  |a b a' b' Ha IHa Hb IHb|n m a a' Hn Ha IHa|n a a' Hn Ha IHa];
    intros s g k1 k2 Hs Hk; cbn [run].
  - apply Hk, Hs.
  - destruct s as [|x s]; [reflexivity|].
    simpl in Hs. apply andb_true_iff in Hs as [_ Hs].
    destruct (Ascii.eqb x c); [apply Hk, Hs|reflexivity].
  - destruct s as [|x s]; [reflexivity|].
    simpl in Hs. apply andb_true_iff in Hs as [Hx Hs].
    rewrite <- (Hpq x Hx). destruct (p x); [apply Hk, Hs|reflexivity].
  - apply star_greedy_similar; auto.
  - apply star_lazy_similar; auto.
  - apply IHa; [exact Hs|]. intros s' g' Hs'. apply IHb; assumption.
  - specialize (IHa s g k1 k2 Hs Hk).
    destruct (run a s g k1) as [r|]; simpl in IHa; rewrite <- IHa.
    + reflexivity.
    + apply IHb; assumption.
  - apply IHa; [exact Hs|]. intros s' g' Hs'.
    rewrite (Hk s' _ Hs'). cbn [rename_caps]. rewrite Hn. reflexivity.
  - apply IHa; [exact Hs|]. intros s' g' Hs'.
    rewrite (Hk s' _ Hs'). cbn [rename_caps]. rewrite Hn. reflexivity.
Qed.

Lemma match_at_similar (r1 r2 : regex) (s : str) :
  similar ok rho r1 r2 -> forallb ok s = true ->
  match_at r2 s = option_map (rename_match rho) (match_at r1 s).
Proof.
  intros Hr Hs. unfold match_at. symmetry.
  apply (run_similar _ _ (rename_match rho) r1 r2 Hr s [] _ _ Hs).
  intros s' g' _. reflexivity.
Qed.

Lemma finditer_go_similar (r1 r2 : regex) (s : str) :
  similar ok rho r1 r2 -> forallb ok s = true ->
  forall skip,
    finditer_go r2 s skip = map (rename_match rho) (finditer_go r1 s skip).
Proof.
  intros Hr. induction s as [|c s IH]; intros Hs skip.
  - cbn [finditer_go]. destruct skip; [|reflexivity].
    rewrite (match_at_similar r1 r2 [] Hr eq_refl).
    destruct (match_at r1 []); reflexivity.
  - cbn [finditer_go]. destruct skip as [|n].
    + rewrite (match_at_similar r1 r2 (c :: s) Hr Hs).
      simpl in Hs. apply andb_true_iff in Hs as [_ Hs].
      destruct (match_at r1 (c :: s)) as [m|]; simpl.
      * rewrite (IH Hs). reflexivity.
      * apply IH, Hs.
    + simpl in Hs. apply andb_true_iff in Hs as [_ Hs]. apply IH, Hs.
Qed.

Lemma similar_Lit (t : str) : similar ok rho (Lit t) (Lit t).
Proof. induction t as [|c t IH]; simpl; constructor; [constructor|exact IH]. Qed.

End Dialects.

Section PickFields.
Import Re RADFieldAnalyzer.

Lemma same_class_space (c : ascii) :
  same_class c = true -> space c = RADAnalyzer.js_space c.
Proof.
  unfold same_class. intros H. apply andb_true_iff in H as [H _].
  apply eqb_prop, H.
Qed.

Lemma same_class_word (c : ascii) :
  same_class c = true -> word c = RADAnalyzer.js_word c.
Proof.
  unfold same_class. intros H. apply andb_true_iff in H as [_ H].
  apply eqb_prop, H.
Qed.

Lemma pick_patterns_similar :
  similar same_class pick_rho entity_pick_pattern RADAnalyzer.entityPickRegex.
Proof.
  unfold entity_pick_pattern, RADAnalyzer.entityPickRegex. cbn [seq].
  repeat first
    [ apply similar_Lit
    | apply Sim_Eps
    | apply Sim_Chr
    | apply Sim_Seq
    | apply Sim_Star; exact same_class_space
    | apply Sim_Drop; [reflexivity|]
    | apply Sim_Group; [reflexivity|]
    | apply Sim_Cls; exact same_class_word
    | apply Sim_Star; exact same_class_word
    | apply Sim_StarLazy; reflexivity ].
Qed.

Lemma pick_rho_group (g : captures) :
  group 1 (rename_caps pick_rho g) = group 2 g.
Proof.
  induction g as [|[n t] g IH]; [reflexivity|].
  cbn [rename_caps].
  destruct n as [|[|[|n]]]; cbn [pick_rho group Nat.eqb]; auto.
Qed.

Lemma matches_Seq_inv a b w g g2 :
  matches (Seq a b) w g g2 ->
  exists w1 w2 g1, w = w1 ++ w2 /\ matches a w1 g g1 /\ matches b w2 g1 g2.
Proof. intros H. inversion H; subst. eauto 6. Qed.

Lemma matches_Cls_inv (p : ascii -> bool) w g g' :
  matches (Cls p) w g g' -> exists c, w = [c] /\ p c = true /\ g' = g.
Proof. intros H. inversion H; subst. eauto. Qed.

Lemma matches_Star_inv (p : ascii -> bool) w g g' :
  matches (Star p) w g g' -> forallb p w = true /\ g' = g.
Proof. intros H. inversion H; subst. auto. Qed.

Lemma matches_Group_inv n a w g g' :
  matches (Group n a) w g g' -> exists g1, matches a w g g1 /\ g' = (n, w) :: g1.
Proof. intros H. inversion H; subst. eauto. Qed.

Lemma matches_Eps_inv w g g' : matches Eps w g g' -> w = [] /\ g' = g.
Proof. intros H. inversion H; subst. auto. Qed.

(** A match of the pattern for one quoted field. *)
Lemma field_match_shape (m : mtch) :
  is_match field_pattern m ->
  exists q1 t q2,
    m_text m = q1 :: t ++ [q2]
    /\ quote q1 = true /\ quote q2 = true
    /\ forallb (none_of quotes3) t = true
    /\ group 1 (m_groups m) = Some t.
Proof.
  unfold is_match, field_pattern. cbn [seq]. intros H.
  apply matches_Seq_inv in H as (w1 & w2 & g1 & E1 & A & H).
  apply matches_Cls_inv in A as (q1 & -> & Hq1 & ->).
  apply matches_Seq_inv in H as (w3 & w4 & g2 & -> & B & H).
  apply matches_Group_inv in B as (g3 & B & ->).
  apply matches_Seq_inv in H as (w5 & w6 & g4 & -> & C & H).
  apply matches_Cls_inv in C as (q2 & -> & Hq2 & ->).
  apply matches_Eps_inv in H as [-> E2].
  unfold Plus in B.
  apply matches_Seq_inv in B as (w7 & w8 & g5 & -> & B1 & B2).
  apply matches_Cls_inv in B1 as (c & -> & Hc & ->).
  apply matches_Star_inv in B2 as [Hw ->].
  exists q1, ([c] ++ w8), q2. rewrite E1, E2. cbn [group Nat.eqb].
  repeat split; auto.
  simpl. rewrite Hc, Hw. reflexivity.
Qed.

Lemma filter_all {A} (p : A -> bool) (l : list A) :
  forallb p l = true -> filter p l = l.
Proof.
  induction l as [|x l IH]; simpl; [reflexivity|].
  intros H. apply andb_true_iff in H as [Hx Hl]. rewrite Hx, (IH Hl). reflexivity.
Qed.

Lemma cleanField_match (m : mtch) :
  is_match field_pattern m ->
  group_of 1 m = Ok (RADAnalyzer.cleanField (m_text m)).
Proof.
  intros H. destruct (field_match_shape m H) as (q1 & t & q2 & Et & H1 & H2 & Ht & Hg).
  rewrite (group_of_some _ _ _ Hg). f_equal.
  unfold RADAnalyzer.cleanField. rewrite Et. cbn [filter].
  unfold quote, one_of in H1, H2. unfold none_of at 1. rewrite H1. cbn [negb].
  rewrite filter_app, (filter_all _ _ Ht). cbn [filter].
  unfold none_of at 1. rewrite H2. cbn [negb]. rewrite app_nil_r. reflexivity.
Qed.

Lemma groups1_clean (ms : list mtch) :
  (forall m, In m ms -> is_match field_pattern m) ->
  groups1 ms = Ok (map (fun fm => RADAnalyzer.cleanField (m_text fm)) ms).
Proof.
  induction ms as [|m ms IH]; intros H; [reflexivity|].
  cbn [groups1 map]. rewrite (cleanField_match m (H m (or_introl eq_refl))).
  rewrite IH by (intros m' Hm'; apply H; right; exact Hm'). reflexivity.
Qed.

Lemma findall1_clean (fs : str) :
  findall1 field_pattern fs
  = Ok (map (fun fm => RADAnalyzer.cleanField (m_text fm))
            (finditer RADAnalyzer.fieldRegex fs)).
Proof.
  unfold findall1. change RADAnalyzer.fieldRegex with field_pattern.
  apply groups1_clean. intros m Hm. apply (finditer_sound _ _ _ Hm).
Qed.

Lemma foldM_flat S A B C (h : B -> list C) (phi : A -> list C)
      (body : A -> B -> St.M S B) (l : list A) :
  (forall x acc st acc' st',
      In x l -> body x acc st = Ok (acc', st') -> h acc' = h acc ++ phi x) ->
  forall acc st acc' st',
    St.foldM body l acc st = Ok (acc', st') -> h acc' = h acc ++ flat_map phi l.
Proof.
  induction l as [|x l IH]; intros Hb acc st acc' st' H; simpl in H.
  - inversion H; subst. simpl. rewrite app_nil_r. reflexivity.
  - unfold St.bind in H.
    destruct (body x acc st) as [[acc1 st1]|e] eqn:E; [|discriminate].
    rewrite (IH (fun y a s a' s' Hy => Hb y a s a' s' (or_intror Hy))
                _ _ _ _ H).
    rewrite (Hb x acc st acc1 st1 (or_introl eq_refl) E).
    simpl. rewrite <- app_assoc. reflexivity.
Qed.

Lemma flat_map_single {A} (l : list A) : flat_map (fun x => [x]) l = l.
Proof. induction l as [|x l IH]; simpl; [reflexivity|]. rewrite IH. reflexivity. Qed.

(** The fields that the Python analyzer reads in one match. *)
Lemma python_pick_fields (code : str) (st st' : analyzer) (l : list field_access) :
  extract_entity_pick_fields code st = Ok (l, st') ->
  map field l
  = flat_map (fun m =>
      match group 2 (m_groups m) with
      | Some fs => map (fun fm => RADAnalyzer.cleanField (m_text fm))
                       (finditer RADAnalyzer.fieldRegex fs)
      | None => []
      end) (finditer entity_pick_pattern code).
Proof.
  unfold extract_entity_pick_fields. intros H.
  apply (foldM_flat analyzer mtch (list field_access) str (map field)
           (fun m => match group 2 (m_groups m) with
                     | Some fs => map (fun fm => RADAnalyzer.cleanField (m_text fm))
                                      (finditer RADAnalyzer.fieldRegex fs)
                     | None => []
                     end)) in H; [exact H|].
  clear H. intros m acc s acc' s' Hm H.
  apply bind_inv in H as (v & s1 & Hv & H). apply lift_inv in Hv as [Hv ->].
  apply bind_inv in H as (fs & s1 & Hfs & H). apply lift_inv in Hfs as [Hfs ->].
  apply bind_inv in H as (fields & s1 & Hfields & H).
  apply lift_inv in Hfields as [Hfields ->].
  apply bind_inv in H as (t & s1 & Ht & H). apply lift_inv in Ht as [Ht ->].
  destruct (_infer_entity_type_word _ _ _
              (entity_pick_var_word _ _ (finditer_sound _ _ _ Hm) Hv) Ht)
    as [_ Htn].
  rewrite (group_of_inv _ _ _ Hfs).
  rewrite findall1_clean in Hfields. injection Hfields as <-.
  apply (foldM_flat analyzer str (list field_access) str (map field)
           (fun f => [f])) in H.
  - rewrite H, flat_map_single. reflexivity.
  - intros f a s2 a' s2' _ Hstep.
    destruct (pick_inner_step _ _ _ _ _ _ Htn Hstep) as (-> & _).
    rewrite map_app. reflexivity.
Qed.

(** The fields that the JavaScript analyzer returns. *)
Lemma js_pick_fields (code : str) (allFields : list str) :
  fst (RADAnalyzer.extractEntityPickFields code allFields)
  = flat_map (fun m =>
      match group 1 (m_groups m) with
      | Some fs => map (fun fm => RADAnalyzer.cleanField (m_text fm))
                       (finditer RADAnalyzer.fieldRegex fs)
      | None => []
      end) (finditer RADAnalyzer.entityPickRegex code).
Proof.
  unfold RADAnalyzer.extractEntityPickFields.
  assert (Hin : forall fms (acc : list str * list str),
    fst (fold_left (fun acc fm =>
           let clean := RADAnalyzer.cleanField (m_text fm) in
           (fst acc ++ [clean], set_add clean (snd acc))) fms acc)
    = fst acc ++ map (fun fm => RADAnalyzer.cleanField (m_text fm)) fms).
  { induction fms as [|fm fms IH]; intros acc; simpl.
    - rewrite app_nil_r. reflexivity.
    - rewrite IH. simpl. rewrite <- app_assoc. reflexivity. }
  assert (Hout : forall ms (acc : list str * list str),
    fst (fold_left (fun acc m =>
           match group 1 (m_groups m) with
           | Some fieldsStr =>
               fold_left (fun acc fm =>
                 let clean := RADAnalyzer.cleanField (m_text fm) in
                 (fst acc ++ [clean], set_add clean (snd acc)))
                 (finditer RADAnalyzer.fieldRegex fieldsStr) acc
           | None => acc
           end) ms acc)
    = fst acc ++ flat_map (fun m =>
        match group 1 (m_groups m) with
        | Some fs => map (fun fm => RADAnalyzer.cleanField (m_text fm))
                         (finditer RADAnalyzer.fieldRegex fs)
        | None => []
        end) ms).
  { induction ms as [|m ms IH]; intros acc; simpl.
    - rewrite app_nil_r. reflexivity.
    - rewrite IH. destruct (group 1 (m_groups m)) as [fs|].
      + rewrite Hin, <- app_assoc. reflexivity.
      + reflexivity. }
  apply (Hout _ ([], allFields)).
Qed.

End PickFields.

(** X17.  The JavaScript analyzer and the Python analyzer read the same
    fields from [entityPick] calls: on a text whose characters the two
    dialects put in the same classes [\s] and [\w] (all of ASCII but the
    four separators 28 to 31), [extractEntityPickFields] returns, in the
    same order, the [field] of every record that
    [extract_entity_pick_fields] returns. *)
Theorem js_and_python_pick_the_same_fields (code : str) (allFields : list str)
        (st : RADFieldAnalyzer.analyzer) :
  forallb same_class code = true ->
  exists l st',
    RADFieldAnalyzer.extract_entity_pick_fields code st = Ok (l, st')
    /\ fst (RADAnalyzer.extractEntityPickFields code allFields)
       = map RADFieldAnalyzer.field l.
Proof.
  intros Hok.
  destruct (extract_entity_pick_fields_ok code st) as (l & st' & E).
  exists l, st'. split; [exact E|].
  rewrite (python_pick_fields _ _ _ _ E), js_pick_fields.
  change (Re.finditer RADAnalyzer.entityPickRegex code)
    with (Re.finditer_go RADAnalyzer.entityPickRegex code 0).
  rewrite (finditer_go_similar same_class pick_rho _ _ code
             pick_patterns_similar Hok 0).
  fold (Re.finditer RADFieldAnalyzer.entity_pick_pattern code).
  induction (Re.finditer RADFieldAnalyzer.entity_pick_pattern code)
    as [|m ms IH]; [reflexivity|].
  cbn [map flat_map]. rewrite IH. f_equal.
  unfold rename_match. cbn [Re.m_groups]. rewrite pick_rho_group. reflexivity.
Qed.

Lemma js_and_python_pick_the_same_fields_witness :
  exists l st',
    RADFieldAnalyzer.extract_entity_pick_fields
      "entityPick(entity, ['accountId', 'gem.hasSent'])" RADFieldAnalyzer.init
    = Ok (l, st')
    /\ fst (RADAnalyzer.extractEntityPickFields
              "entityPick(entity, ['accountId', 'gem.hasSent'])" [])
       = map RADFieldAnalyzer.field l.
Proof.
  apply (js_and_python_pick_the_same_fields
           "entityPick(entity, ['accountId', 'gem.hasSent'])" []
           RADFieldAnalyzer.init).
  reflexivity.
Defined.

(** ** What [parse_rad_file] returns *)

Section ParsedPairs.
Import RADFieldAnalyzer.

Lemma index_of_exact (sub s : str) (i : nat) :
  index_of sub s = Some i ->
  exists a b, s = a ++ sub ++ b /\ length a = i.
Proof.
  revert i; induction s as [|c s IH]; intros i; cbn [index_of].
  - destruct (startswith sub []) eqn:E; [|discriminate].
    intros H. injection H as <-.
    destruct (startswith_inv _ _ E) as (t & Et). exists [], t. auto.
  - destruct (startswith sub (c :: s)) eqn:E.
    + intros H. injection H as <-.
      destruct (startswith_inv _ _ E) as (t & Et). exists [], t. auto.
    + destruct (index_of sub s) as [j|]; [|discriminate].
      intros H. injection H as <-.
      destruct (IH j eq_refl) as (a & b & -> & <-).
      exists (c :: a), b. auto.
Qed.

Lemma startswith_mono (sub x t : str) :
  startswith sub x = true -> startswith sub (x ++ t) = true.
Proof.
  intros H. destruct (startswith_inv _ _ H) as (r & ->).
  rewrite <- app_assoc. apply startswith_app.
Qed.

Lemma index_of_least (sub b t : str) (i : nat) :
  sub <> [] -> index_of sub (b ++ t) = Some i -> length b <= i ->
  index_of sub b = None.
Proof.
  intros Hne. revert i; induction b as [|y b IH]; intros i H Hle.
  - destruct sub; [congruence|reflexivity].
  - cbn [app index_of] in H.
    destruct (startswith sub (y :: b ++ t)) eqn:E.
    { injection H as <-. simpl in Hle. lia. }
    destruct (index_of sub (b ++ t)) as [j|] eqn:Ej; [|discriminate].
    injection H as <-. simpl in Hle.
    cbn [index_of]. rewrite (IH j eq_refl) by lia.
    destruct (startswith sub (y :: b)) eqn:E'; [|reflexivity].
    apply (startswith_mono _ _ t) in E'. simpl in E'. congruence.
Qed.

Lemma index_of_word (sub w rest : str) :
  index_of sub [] = None -> forallb (fun c => negb (mem_char sub c)) w = true ->
  index_of sub (w ++ rest) = option_map (fun i => length w + i) (index_of sub rest).
Proof.
  intros Hne. induction w as [|c w IH]; intros Hw.
  - simpl. destruct (index_of sub rest); reflexivity.
  - simpl in Hw. apply andb_true_iff in Hw as [Hc Hw].
    apply negb_true_iff in Hc.
    cbn [app]. rewrite (index_of_cons sub _ c (not_In_mem _ _ Hc) Hne).
    rewrite (IH Hw). destruct (index_of sub rest); reflexivity.
Qed.

Lemma find_inv (sub s : str) (n : nat) (j : Z) :
  find sub s (Z.of_nat n) = j -> j <> (-1)%Z ->
  exists i, index_of sub (skipn n s) = Some i /\ j = Z.of_nat (n + i)
            /\ n <= length s.
Proof.
  unfold find.
  destruct (Z.ltb_spec (Z.of_nat n) 0); [lia|].
  destruct (Z.ltb_spec (Z.of_nat (length s)) (Z.of_nat n)); [congruence|].
  rewrite Nat2Z.id.
  destruct (index_of sub (skipn n s)) as [i|]; [|congruence].
  intros <- _. exists i. repeat split; lia.
Qed.

(** What a section is made of when [parse_section] finds its two
    fences. *)
Lemma parse_section_inv (section name0 code : str) :
  parse_section section = Some (name0, code) ->
  exists a b c,
    section = a ++ fence_open ++ b ++ fence ++ c
    /\ index_of fence b = None
    /\ code = strip b
    /\ name0 = section_name section.
Proof.
  unfold parse_section, section_name.
  destruct (split_nonempty nl (strip section)) as (line0 & l & El).
  rewrite El. cbn [hd].
  remember (find fence_open section 0) as cs eqn:Ecs.
  remember (find fence section (cs + 1)) as ce eqn:Ece.
  destruct (Z.eqb_spec cs (-1)) as [|Hcs]; [discriminate|].
  destruct (Z.eqb_spec ce (-1)) as [|Hce]; [discriminate|].
  cbn [negb andb]. intros H. injection H as <- <-.
  symmetry in Ecs, Ece.
  destruct (find_inv fence_open section 0 cs Ecs Hcs) as (i & Hi & -> & _).
  cbn [skipn Nat.add] in Hi.
  destruct (index_of_exact _ _ _ Hi) as (a & rest1 & Es & Ha).
  replace (Z.of_nat (0 + i) + 1)%Z with (Z.of_nat (S i)) in Ece by lia.
  destruct (find_inv fence section (S i) ce Ece Hce) as (i2 & Hi2 & -> & _).
  assert (Hskip : skipn (S i) section = ("``javascript" : str) ++ rest1).
  { rewrite Es. change fence_open with ("`"%char :: ("``javascript" : str)).
    change (a ++ ("`"%char :: ("``javascript" : str)) ++ rest1)
      with (a ++ ["`"%char] ++ (("``javascript" : str) ++ rest1)).
    rewrite app_assoc. apply skipn_exact. rewrite length_app. simpl. lia. }
  rewrite Hskip in Hi2.
  change (("``javascript" : str) ++ rest1)
    with (("``" : str) ++ "j"%char :: (("avascript" : str) ++ rest1)) in Hi2.
  rewrite (index_of_past fence ("``" : str) _ "j"%char) in Hi2;
    [|apply not_In_mem; reflexivity|reflexivity].
  rewrite (index_of_word fence ("avascript" : str) rest1 eq_refl eq_refl) in Hi2.
  destruct (index_of fence rest1) as [i3|] eqn:Hi3; [|discriminate].
  cbn [option_map length list_ascii_of_string] in Hi2.
  injection Hi2 as Hi2.
  destruct (index_of_exact _ _ _ Hi3) as (b & c & Er & Hb).
  exists a, b, c. split; [rewrite Es, Er; reflexivity|]. split.
  { apply (index_of_least fence b (fence ++ c) i3); [discriminate| |lia].
    rewrite <- Er. exact Hi3. }
  split; [|reflexivity].
  f_equal. rewrite Es, Er.
  replace (a ++ fence_open ++ b ++ fence ++ c)
    with ((a ++ fence_open) ++ b ++ (fence ++ c))
    by (rewrite <- !app_assoc; reflexivity).
  replace (Z.of_nat (0 + i) + 13)%Z with (Z.of_nat (length (a ++ fence_open)))
    by (rewrite length_app; change (length fence_open) with 13; lia).
  replace (Z.of_nat (S i + i2))
    with (Z.of_nat (length (a ++ fence_open) + length b))
    by (rewrite length_app; change (length fence_open) with 13; lia).
  apply slice_mid.
Qed.

Lemma no_start_index (sep t : str) :
  sep <> [] ->
  (forall j, j < length t -> startswith sep (skipn j t) = false) ->
  index_of sep t = None.
Proof.
  intros Hne. induction t as [|c t IH]; intros H.
  - destruct sep; [congruence|reflexivity].
  - cbn [index_of]. pose proof (H 0 ltac:(simpl; lia)) as H0.
    cbn [skipn] in H0. rewrite H0.
    rewrite IH; [reflexivity|].
    intros j Hj. apply (H (S j)). simpl. lia.
Qed.

Lemma no_start_prefix (sep a s : str) :
  (forall j, j < length a -> startswith sep (skipn j (a ++ s)) = false) ->
  forall j, j < length a -> startswith sep (skipn j a) = false.
Proof.
  intros H j Hj. specialize (H j Hj).
  rewrite skipn_app in H. replace (j - length a) with 0 in H by lia.
  cbn [skipn] in H.
  destruct (startswith sep (skipn j a)) eqn:E; [|reflexivity].
  apply (startswith_mono _ _ s) in E. congruence.
Qed.

Lemma split_go_pieces (sep s : str) :
  sep <> [] ->
  forall skip cur,
    (skip = 0 -> forall j, j < length cur ->
                 startswith sep (skipn j (rev cur ++ s)) = false) ->
    (skip <> 0 -> cur = []) ->
    Forall (fun p => index_of sep p = None) (split_go sep s skip cur).
Proof.
  intros Hne. induction s as [|c s IH]; intros skip cur H0 H1.
  - cbn [split_go]. constructor; [|constructor].
    destruct skip as [|n].
    + apply no_start_index; [exact Hne|].
      rewrite length_rev. intros j Hj. specialize (H0 eq_refl j Hj).
      rewrite app_nil_r in H0. exact H0.
    + rewrite (H1 ltac:(discriminate)). destruct sep; [congruence|reflexivity].
  - cbn [split_go]. destruct skip as [|n].
    + specialize (H0 eq_refl).
      destruct (startswith sep (c :: s)) eqn:E.
      * constructor.
        -- apply no_start_index; [exact Hne|].
           apply (no_start_prefix sep (rev cur) (c :: s)).
           rewrite length_rev. exact H0.
        -- apply IH; [|intros _; reflexivity]. intros _ j Hj. simpl in Hj. lia.
      * apply IH; [|intros Hz; exfalso; apply Hz; reflexivity]. intros _ j Hj. cbn [rev length] in *.
        rewrite <- app_assoc. cbn [app].
        destruct (Nat.eq_dec j (length cur)) as [->|Hn].
        -- rewrite skipn_app, skipn_all2 by (rewrite length_rev; lia).
           rewrite length_rev, Nat.sub_diag. exact E.
        -- apply H0. lia.
    + rewrite (H1 ltac:(discriminate)).
      apply IH; [|intros _; reflexivity]. intros _ j Hj. simpl in Hj. lia.
Qed.

Lemma split_pieces (sep s : str) :
  sep <> [] -> Forall (fun p => index_of sep p = None) (split sep s).
Proof.
  intros Hne. apply split_go_pieces; [exact Hne| |intros _; reflexivity].
  intros _ j Hj. simpl in Hj. lia.
Qed.

Lemma contains_infix_false (sub a x b : str) :
  contains sub (a ++ x ++ b) = false -> contains sub x = false.
Proof.
  intros H. destruct (contains sub x) eqn:E; [|reflexivity].
  rewrite (contains_infix sub a x b E) in H. discriminate.
Qed.

Lemma contains_strip (sub x : str) :
  contains sub x = false -> contains sub (strip x) = false.
Proof.
  intros H. destruct (strip_by_split is_space x) as (a & b & E & _).
  rewrite E in H. apply (contains_infix_false sub a _ b H).
Qed.

Lemma contains_first_line (sub x : str) :
  contains sub x = false -> contains sub (first_line x) = false.
Proof.
  intros H. rewrite (takewhile_dropwhile not_newline x) in H.
  apply (contains_infix_false sub [] (first_line x) (dropwhile not_newline x)).
  exact H.
Qed.

Lemma filter_map_In {A B} (f : A -> option B) (l : list A) (y : B) :
  In y (filter_map f l) -> exists x, In x l /\ f x = Some y.
Proof.
  induction l as [|x l IH]; simpl; [intros []|].
  destruct (f x) as [z|] eqn:E.
  - intros [<-|H]; [exists x; auto|].
    destruct (IH H) as (x' & Hx' & E'). exists x'. auto.
  - intros H. destruct (IH H) as (x' & Hx' & E'). exists x'. auto.
Qed.

Lemma parse_section_pair (section name0 code : str) :
  contains "## " section = false ->
  parse_section section = Some (name0, code) ->
  pair_ok (name0, code) /\ has_fence section.
Proof.
  intros Hs H. destruct (parse_section_inv _ _ _ H) as (a & b & c & E & Hb & -> & ->).
  split; [|exists a, b, c; exact E].
  unfold pair_ok. cbn [fst snd]. unfold section_name. rewrite hd_split_nl.
  split; [apply strip_by_idem|]. split.
  { intros Hin. apply strip_by_In in Hin.
    pose proof (takewhile_all not_newline (strip section)) as Hall.
    rewrite forallb_forall in Hall. specialize (Hall _ Hin). discriminate Hall. }
  split; [apply contains_strip, contains_first_line, contains_strip, Hs|].
  split; [apply strip_by_idem|].
  split; [apply contains_strip, contains_None, Hb|].
  apply contains_strip.
  rewrite E in Hs.
  replace (a ++ fence_open ++ b ++ fence ++ c)
    with ((a ++ fence_open) ++ b ++ (fence ++ c)) in Hs
    by (rewrite <- !app_assoc; reflexivity).
  apply (contains_infix_false _ _ _ _ Hs).
Qed.

End ParsedPairs.

(** X18.  What [parse_rad_file] returns, on any document: every name is
    one line without white space at its ends, every code is stripped and
    holds no code fence, and neither holds the section marker; and a
    section gives a pair exactly when it holds a [```javascript] fence
    and a closing fence after it, so that no section with a code block
    is skipped and no pair is made without one. *)
Theorem parse_rad_file_pairs_are_clean (content : str) :
  Forall pair_ok (RADFieldAnalyzer.parse_rad_file content)
  /\ (forall section, In section (tl (split "## " content)) ->
        (RADFieldAnalyzer.parse_section section <> None <-> has_fence section)).
Proof.
  assert (Hclear : forall section, In section (tl (split "## " content)) ->
                                   contains "## " section = false).
  { intros section Hin. apply contains_None.
    pose proof (split_pieces "## " content ltac:(discriminate)) as H.
    rewrite Forall_forall in H. apply H.
    destruct (split "## " content); [destruct Hin|right; exact Hin]. }
  split.
  - apply Forall_forall. intros [name code] Hin.
    unfold RADFieldAnalyzer.parse_rad_file in Hin.
    apply filter_map_In in Hin as (section & Hs & E).
    apply (parse_section_pair section name code (Hclear _ Hs) E).
  - intros section Hs. split.
    + destruct (RADFieldAnalyzer.parse_section section) as [[name code]|] eqn:E;
        [|congruence].
      intros _. apply (parse_section_pair section name code (Hclear _ Hs) E).
    + intros Hf. destruct (parse_section_fenced _ Hf) as (code & ->). discriminate.
Qed.

(** ** Every recorded access *)

Section Accesses.
Import Re RADFieldAnalyzer.

Lemma pick_record_access (st : analyzer) (fa : field_access) :
  pick_record_ok st fa -> access_ok fa.
Proof.
  intros (Hm & Hf & _ & Hn & Hw & Hne & _).
  unfold access_ok. rewrite Hm. repeat split; auto. left; reflexivity.
Qed.

Lemma normalize_field_path_inv (f v : str) (st st' : analyzer) :
  normalize_field_path f st = Ok (v, st') -> v = path_value f.
Proof. rewrite normalize_field_path_ok. intros H. injection H as <- _. reflexivity. Qed.

Lemma replace_go_nonempty (old new s : str) :
  new <> [] -> s <> [] -> replace_go old new s 0 <> [].
Proof.
  intros Hn Hs. destruct s as [|c s]; [congruence|]. cbn [replace_go].
  destruct (startswith old (c :: s)); [|discriminate].
  destruct new; [congruence|discriminate].
Qed.

Lemma query_path_value (t : str) :
  word_run t -> path_value ("request.query." ++ t) = "request.query." ++ t.
Proof.
  intros Ht. unfold path_value.
  destruct (word_run_ends t Ht) as [_ Hlast].
  assert (Hs : strip ("request.query." ++ t) = "request.query." ++ t).
  { apply strip_by_fixed. split; [reflexivity|].
    rewrite rev_app_distr. destruct (rev t) as [|c r]; [contradiction|].
    simpl. apply word_not_sep, Hlast. }
  rewrite Hs.
  assert (Hq : strip_chars quotes3 ("request.query." ++ t) = "request.query." ++ t).
  { apply strip_by_fixed. split; [reflexivity|].
    rewrite rev_app_distr. destruct (rev t) as [|c r]; [contradiction|].
    simpl. destruct c as [[] [] [] [] [] [] [] []]; try reflexivity;
      discriminate Hlast. }
  rewrite Hq.
  rewrite (first_prefix_diverge normalizations "request.query." t eq_refl).
  reflexivity.
Qed.

Lemma query_groups_word (m : mtch) (t : str) :
  is_match query_pattern m -> group 1 (m_groups m) = Some t -> word_run t.
Proof.
  intros Hm Ht.
  refine (is_match_group_text _ _ 1 word_run t Hm _ Ht).
  cbn. repeat split; auto; try discriminate;
    intros;
    match goal with
    | H : matches (Plus _) _ _ _ |- _ =>
        destruct (matches_Plus _ _ _ _ H) as [? ?]
    end; first [assumption | congruence].
Qed.

Lemma prop_groups_nonempty (m : mtch) (p : str) :
  is_match prop_pattern m -> group 2 (m_groups m) = Some p -> p <> [].
Proof.
  intros Hm Hp.
  refine (is_match_group_text _ _ 2 (fun t => t <> []) p Hm _ Hp).
  cbn. repeat split; auto; try discriminate;
    intros;
    match goal with
    | H : matches (Plus _) _ _ _ |- _ =>
        destruct (matches_Plus _ _ _ _ H) as [? ?]
    end; first [assumption | congruence].
Qed.

Lemma extract_direct_property_access_records (code : str) (st st' : analyzer)
      (l : list field_access) :
  extract_direct_property_access code st = Ok (l, st') ->
  Forall (fun fa => access_ok fa /\ access_method fa = ("direct" : str)) l.
Proof.
  unfold extract_direct_property_access. intros H.
  apply bind_inv in H as (acc1 & st1 & H1 & H2).
  assert (A1 : Forall (fun fa => access_ok fa /\ access_method fa = ("direct" : str))
                      acc1).
  { revert H1.
    apply (foldM_inv analyzer mtch (list field_access)
             (fun acc _ => Forall (fun fa => access_ok fa
                                   /\ access_method fa = ("direct" : str)) acc));
      [|constructor].
    intros m acc s acc' s' Hm Hacc H.
    apply bind_inv in H as (g1 & s1 & Hg & H). apply lift_inv in Hg as [Hg ->].
    unfold St.ret in H. injection H as <- <-.
    apply Forall_app. split; [exact Hacc|]. constructor; [|constructor].
    pose proof (query_groups_word m g1 (finditer_sound _ _ _ Hm)
                  (group_of_inv _ _ _ Hg)) as Hw.
    unfold access_ok. cbn [field normalized entity_type access_method].
    split; [|reflexivity].
    split; [symmetry; apply query_path_value, Hw|].
    split; [discriminate|]. split; [split; [reflexivity|discriminate]|].
    right; left; reflexivity. }
  revert H2.
  apply (foldM_inv analyzer mtch (list field_access)
           (fun acc _ => Forall (fun fa => access_ok fa
                                 /\ access_method fa = ("direct" : str)) acc));
    [|exact A1].
  intros m acc s acc' s' Hm Hacc H.
  apply bind_inv in H as (v & s1 & Hv & H). apply lift_inv in Hv as [Hv ->].
  apply bind_inv in H as (g2 & s1 & Hg & H). apply lift_inv in Hg as [Hg ->].
  cbv zeta in H.
  destruct (mem_str v not_entity_vars).
  { unfold St.ret in H. injection H as <- <-. exact Hacc. }
  apply bind_inv in H as (t & s1 & Ht & H). apply lift_inv in Ht as [Ht ->].
  apply bind_inv in H as (n & s1 & Hn & H).
  apply normalize_field_path_inv in Hn.
  apply bind_inv in H as (u & s2 & _ & H).
  unfold St.ret in H. injection H as <- <-.
  apply Forall_app. split; [exact Hacc|]. constructor; [|constructor].
  unfold access_ok. cbn [field normalized entity_type access_method].
  split; [|reflexivity].
  split; [exact Hn|]. split.
  { apply replace_go_nonempty; [discriminate|].
    apply (prop_groups_nonempty m g2 (finditer_sound _ _ _ Hm)
             (group_of_inv _ _ _ Hg)). }
  split; [apply (_infer_entity_type_word _ _ _
                  (prop_var_word _ _ (finditer_sound _ _ _ Hm) Hv) Ht)|].
  right; left; reflexivity.
Qed.

Lemma extract_destructuring_patterns_records (code : str) (st st' : analyzer)
      (l : list field_access) :
  extract_destructuring_patterns code st = Ok (l, st') ->
  Forall (fun fa => access_ok fa /\ access_method fa = ("destructuring" : str)
                    /\ plain_name (field fa)) l.
Proof.
  unfold extract_destructuring_patterns.
  apply (foldM_inv analyzer mtch (list field_access)
           (fun acc _ => Forall (fun fa => access_ok fa
                                 /\ access_method fa = ("destructuring" : str)
                                 /\ plain_name (field fa)) acc));
    [|constructor].
  intros m acc s acc' s' Hm Hacc H.
  apply bind_inv in H as (fs & s1 & Hfs & H). apply lift_inv in Hfs as [Hfs ->].
  apply bind_inv in H as (v & s1 & Hv & H). apply lift_inv in Hv as [Hv ->].
  cbv zeta in H.
  apply bind_inv in H as (t & s1 & Ht & H). apply lift_inv in Ht as [Ht ->].
  pose proof (_parse_destructuring_plain fs) as Hplain.
  rewrite Forall_forall in Hplain.
  revert H.
  apply (foldM_inv analyzer str (list field_access)
           (fun acc _ => Forall (fun fa => access_ok fa
                                 /\ access_method fa = ("destructuring" : str)
                                 /\ plain_name (field fa)) acc));
    [|exact Hacc].
  intros f a s2 a' s2' Hf Ha H.
  apply bind_inv in H as (n & s3 & Hn & H).
  apply normalize_field_path_inv in Hn.
  apply bind_inv in H as (u & s4 & _ & H).
  unfold St.ret in H. injection H as <- <-.
  apply Forall_app. split; [exact Ha|]. constructor; [|constructor].
  unfold access_ok. cbn [field normalized entity_type access_method].
  split; [|split; [reflexivity|apply Hplain, Hf]].
  split; [exact Hn|]. split; [apply (Hplain f Hf)|].
  split; [apply (_infer_entity_type_word _ _ _
                  (destruct_var_word _ _ (finditer_sound _ _ _ Hm) Hv) Ht)|].
  right; right; left; reflexivity.
Qed.

Lemma analyze_synthesizer_accesses (name0 code : str) (st st' : analyzer)
      (a : analysis) :
  analyze_synthesizer name0 code st = Ok (a, st') ->
  Forall access_ok (field_accesses a).
Proof.
  unfold analyze_synthesizer. intros H.
  apply bind_inv in H as (l1 & s1 & E1 & H).
  apply bind_inv in H as (l2 & s2 & E2 & H).
  apply bind_inv in H as (l3 & s3 & E3 & H).
  cbv zeta in H.
  apply bind_inv in H as (ty & s4 & E4 & H).
  apply bind_inv in H as (ji & s5 & E5 & H).
  apply bind_inv in H as (u & s6 & _ & H).
  unfold St.ret in H. injection H as <- _. cbn [field_accesses].
  apply Forall_app. split.
  - eapply Forall_impl; [|apply (extract_entity_pick_fields_records _ _ _ _ E1)].
    intros fa. apply pick_record_access.
  - apply Forall_app. split.
    + eapply Forall_impl;
        [|apply (extract_direct_property_access_records _ _ _ _ E2)].
      intros fa [Hfa _]. exact Hfa.
    + eapply Forall_impl;
        [|apply (extract_destructuring_patterns_records _ _ _ _ E3)].
      intros fa [Hfa _]. exact Hfa.
Qed.

Lemma analyze_all_accesses (pairs : list (str * str)) (st st' : analyzer) :
  Forall (fun a => Forall access_ok (field_accesses a)) (self_results st) ->
  St.foldM (fun nc (_ : unit) =>
              St.bind (analyze_synthesizer (fst nc) (snd nc))
                      (fun _ => St.ret tt)) pairs tt st = Ok (tt, st') ->
  Forall (fun a => Forall access_ok (field_accesses a)) (self_results st').
Proof.
  intros H0 H. revert H.
  apply (foldM_inv analyzer (str * str) unit
           (fun _ s => Forall (fun a => Forall access_ok (field_accesses a))
                              (self_results s))); [|exact H0].
  intros [n c] acc s acc' s' _ Hs H.
  apply bind_inv in H as (a & s1 & Ha & H).
  unfold St.ret in H. injection H as _ <-. cbn [fst snd] in Ha.
  destruct (analyze_synthesizer_spec n c s) as (a' & s1' & Ea & Hr & _).
  rewrite Ea in Ha. injection Ha as <- <-.
  rewrite Hr. apply Forall_app. split; [exact Hs|].
  constructor; [|constructor].
  apply (analyze_synthesizer_accesses _ _ _ _ _ Ea).
Qed.

End Accesses.

(** X19.  Every field access in the report of a whole run is well
    formed: its normalized path is the value of [normalize_field_path]
    on its field, its field is not empty, its entity type is a
    non-empty run of word characters, and its access method is one of
    [entityPick], [direct] and [destructuring]; so these three are the
    only keys that [access_methods] can have. *)
Theorem report_accesses_are_well_formed (content : str) :
  exists r,
    RADFieldAnalyzer.run_main content = Ok r
    /\ Forall access_ok
         (RADFieldAnalyzer.all_accesses (RADFieldAnalyzer.synthesizer_details r))
    /\ (forall k,
          In k (map fst (RADFieldAnalyzer.access_methods
                           (RADFieldAnalyzer.field_analysis r))) ->
          In k ["entityPick" : str; "direct" : str; "destructuring" : str]).
Proof.
  unfold RADFieldAnalyzer.run_main.
  destruct (analyze_all (RADFieldAnalyzer.parse_rad_file content)
                        RADFieldAnalyzer.init) as (st' & E & _).
  rewrite E. eexists. split; [reflexivity|].
  cbn [RADFieldAnalyzer.generate_comprehensive_report
       RADFieldAnalyzer.synthesizer_details RADFieldAnalyzer.field_analysis
       RADFieldAnalyzer.access_methods].
  pose proof (analyze_all_accesses _ RADFieldAnalyzer.init st' (Forall_nil _) E) as H.
  assert (Hall : Forall access_ok
                   (RADFieldAnalyzer.all_accesses
                      (RADFieldAnalyzer.self_results st'))).
  { unfold RADFieldAnalyzer.all_accesses.
    induction H as [|a l Ha _ IH]; [constructor|].
    simpl. apply Forall_app. split; assumption. }
  split; [exact Hall|].
  intros k Hk.
  destruct (counter_map_spec RADFieldAnalyzer.access_method
              (RADFieldAnalyzer.all_accesses (RADFieldAnalyzer.self_results st')))
    as (_ & _ & Hkeys & _).
  apply Hkeys in Hk. apply in_map_iff in Hk as (fa & <- & Hfa).
  rewrite Forall_forall in Hall. apply (Hall fa Hfa).
Qed.

(** ** The total of the visualizer *)

Section VisualizerTotal.
Import RADFieldAnalyzer.

Lemma fold_left_total (l : list (str * nat)) (n : nat) :
  fold_left (fun total fc => total + snd fc) l n = n + total l.
Proof.
  unfold total. revert n; induction l as [|x l IH]; intros n; simpl; [lia|].
  rewrite IH. lia.
Qed.

Lemma total_app (a b : list (str * nat)) : total (a ++ b) = total a + total b.
Proof. unfold total. rewrite map_app, list_sum_app. reflexivity. Qed.

Lemma total_perm (a b : list (str * nat)) :
  Permutation a b -> total a = total b.
Proof.
  unfold total. induction 1; simpl; try lia.
Qed.

Lemma total_pos (l : list (str * nat)) :
  Forall (fun kv => 1 <= snd kv) l -> length l <= total l.
Proof.
  unfold total. induction 1 as [|x l Hx _ IH]; simpl; lia.
Qed.

Lemma counter_keys_fold {A} (f : A -> str) (l : list A) (c : list (str * nat)) :
  map fst (fold_left (fun c a => counter_incr (f a) c) l c)
  = fold_left (fun acc x => set_add x acc) (map f l) (map fst c).
Proof.
  revert c; induction l as [|a l IH]; intros c; simpl; [reflexivity|].
  rewrite IH, counter_incr_keys. reflexivity.
Qed.

Lemma counter_keys_distinct {A} (f : A -> str) (l : list A) :
  map fst (fold_left (fun c a => counter_incr (f a) c) l [])
  = distinct (map f l).
Proof. apply (counter_keys_fold f l []). Qed.

End VisualizerTotal.

(** X20.  The total that the visualizer prints as "Total Field
    Accesses" adds up the twenty entries of [most_used_fields] only: on
    the report of any analyzer state it is never more than the number of
    field accesses, and it is that number exactly when there are at most
    twenty distinct normalized fields; with more, the total is short. *)
Theorem total_field_accesses_counts_the_top_twenty
        (self : RADFieldAnalyzer.analyzer) :
  let r := RADFieldAnalyzer.generate_comprehensive_report self in
  let accesses := RADFieldAnalyzer.all_accesses (RADFieldAnalyzer.self_results self) in
  RADPatternVisualizer.get_total_field_accesses r <= length accesses
  /\ (RADPatternVisualizer.get_total_field_accesses r = length accesses
      <-> length (distinct (map RADFieldAnalyzer.normalized accesses)) <= 20).
Proof.
  cbv zeta. unfold RADPatternVisualizer.get_total_field_accesses.
  cbn [RADFieldAnalyzer.generate_comprehensive_report
       RADFieldAnalyzer.field_analysis RADFieldAnalyzer.most_used_fields].
  rewrite fold_left_total. cbn [Nat.add].
  rewrite <- (counter_keys_distinct RADFieldAnalyzer.normalized).
  destruct (counter_map_spec RADFieldAnalyzer.normalized
              (RADFieldAnalyzer.all_accesses (RADFieldAnalyzer.self_results self)))
    as (Hnd & Hn & Hk & Ht).
  cbv zeta in Hnd, Hn, Hk, Ht.
  set (c := fold_left _ _ []) in *.
  rewrite length_map, <- Ht.
  unfold RADFieldAnalyzer.most_common.
  pose proof (sorted_desc_perm snd c) as Hp.
  set (s := sorted_desc snd c) in *.
  rewrite <- (total_perm _ _ Hp), <- (Permutation_length Hp).
  assert (Hpos : Forall (fun kv => 1 <= snd kv) s).
  { apply Forall_forall. intros [k n] Hin.
    apply (Permutation_in _ Hp) in Hin. simpl.
    rewrite (Hn k n Hin). apply tally_pos, Hk.
    change k with (fst (k, n)). apply in_map, Hin. }
  rewrite <- (firstn_skipn 20 s) at 2 4.
  rewrite total_app. split; [lia|].
  assert (Hrest : length (skipn 20 s) <= total (skipn 20 s)).
  { apply total_pos. rewrite <- (firstn_skipn 20 s) in Hpos.
    apply Forall_app in Hpos. apply Hpos. }
  rewrite length_skipn in Hrest. split.
  - intros H. lia.
  - intros H. rewrite (skipn_all2 s) by lia. unfold total. simpl. lia.
Qed.

(** ** The categories of the consolidated list *)

(** X21.  In the consolidated list the subcategory ["Other Identity"]
    is never given: a field of the first category always falls under
    account ids, entity ids or entity types, because the test that puts
    it in the category is the union of the tests for these three.  The
    branch that would give the name cannot be reached. *)
Theorem consolidated_list_no_other_identity (field : str) :
  snd (ConsolidatedList.categorize field) <> ("Other Identity" : str)
  /\ (fst (ConsolidatedList.categorize field)
      = ("1. Core Identity & References" : str) ->
      In (snd (ConsolidatedList.categorize field))
         ["Account IDs" : str; "Entity IDs" : str; "Entity Types" : str]).
Proof.
  unfold ConsolidatedList.categorize.
  destruct (contains "accountId" field) eqn:Ea.
  { rewrite orb_true_r. cbn [orb fst snd]. split; [discriminate|].
    intros _. left; reflexivity. }
  destruct (contains ".id" field) eqn:Ed.
  { rewrite orb_true_r. cbn [orb fst snd]. rewrite orb_true_r.
    split; [discriminate|]. intros _. right; left; reflexivity. }
  destruct (eqb_str field "id") eqn:Ei.
  { apply eqb_str_eq in Ei. subst field. cbn. split; [discriminate|].
    intros _. right; left; reflexivity. }
  destruct (contains ".type" field) eqn:Et.
  { rewrite orb_true_r. cbn [orb fst snd]. rewrite orb_true_r.
    split; [discriminate|]. intros _. right; right; left; reflexivity. }
  destruct (eqb_str field "type") eqn:Ety.
  { apply eqb_str_eq in Ety. subst field. cbn. split; [discriminate|].
    intros _. right; right; left; reflexivity. }
  assert (Em : mem_str field ["accountId" : str; "id" : str; "type" : str] = false).
  { unfold mem_str. cbn [existsb]. rewrite Ei, Ety. cbn [orb].
    rewrite orb_false_r. apply eqb_str_neq. intros ->. discriminate Ea. }
  rewrite Em. cbn [orb].
  repeat match goal with
         | |- context [if ?b then _ else _] => destruct b
         end; cbn [fst snd]; split; discriminate.
Qed.

(** ** The data dictionary *)

Section Dictionary.
Import RADFieldAnalyzer DictionaryBuilder.

Lemma build_dictionary_uses (r : report) :
  build_dictionary r
  = fold_left (fun d u => record_access (fst u) (snd u) d) (uses_of r) [].
Proof.
  unfold build_dictionary, uses_of. generalize (@nil (str * entry)).
  induction (synthesizer_details r) as [|a l IH]; intros d; simpl;
    [reflexivity|].
  rewrite fold_left_app, IH. f_equal.
  generalize d. induction (field_accesses a) as [|fa fas IH']; intros d0; simpl;
    [reflexivity|]. apply IH'.
Qed.

Lemma _categorize_field_named (k : str) :
  DataDictionaryGenerator._categorize_field k <> [].
Proof.
  unfold DataDictionaryGenerator._categorize_field. cbv zeta.
  repeat match goal with
         | |- context [if ?b then _ else _] => destruct b
         end; discriminate.
Qed.

Lemma descriptions_named :
  forallb (fun kd => match snd kd with [] => false | _ => true end)
          descriptions = true.
Proof. vm_compute; reflexivity. Qed.

Lemma lookup_In {A} (k : str) (d : list (str * A)) (v : A) :
  lookup k d = Some v -> In (k, v) d.
Proof.
  induction d as [|[k' v'] d IH]; simpl; [discriminate|].
  destruct (eqb_str k k') eqn:E.
  - apply eqb_str_eq in E. subst k'. intros H; injection H as ->. left; reflexivity.
  - intros H. right. apply IH, H.
Qed.

Lemma _describe_field_named (k : str) : _describe_field k <> [].
Proof.
  unfold _describe_field. destruct (lookup k descriptions) as [d|] eqn:E.
  - apply lookup_In in E. pose proof descriptions_named as H.
    rewrite forallb_forall in H. specialize (H _ E). cbn [snd] in H.
    destruct d; [discriminate|discriminate].
  - discriminate.
Qed.

Lemma update_entry_keys (k : str) (f : entry -> entry) (d : list (str * entry)) :
  map fst (update_entry k f d) = set_add k (map fst d).
Proof.
  unfold set_add. induction d as [|[k' i] d IH]; simpl; [reflexivity|].
  destruct (eqb_str k k'); simpl; [reflexivity|].
  rewrite IH. unfold mem_str. destruct (existsb (eqb_str k) (map fst d));
    reflexivity.
Qed.

Lemma update_entry_In (k : str) (f : entry -> entry) (d : list (str * entry))
      (k' : str) (e' : entry) :
  NoDup (map fst d) ->
  In (k', e') (update_entry k f d) ->
  (k' <> k /\ In (k', e') d)
  \/ (k' = k /\ ((e' = f default_entry /\ ~ In k (map fst d))
                 \/ exists e, e' = f e /\ In (k, e) d)).
Proof.
  induction d as [|[k0 e0] d IH]; simpl; intros Hnd H.
  - destruct H as [H|[]]. inversion H; subst. right. split; [reflexivity|].
    left. split; [reflexivity|]. intros [].
  - inversion Hnd as [|? ? Hk0 Hnd']; subst.
    destruct (eqb_str k k0) eqn:E.
    + apply eqb_str_eq in E. subst k0.
      destruct H as [H|H].
      * inversion H; subst. right. split; [reflexivity|]. right.
        exists e0. split; [reflexivity|]. left; reflexivity.
      * left. split; [|right; exact H].
        intros ->. apply Hk0. apply (in_map fst) in H. exact H.
    + apply eqb_str_neq in E. destruct H as [H|H].
      * inversion H; subst. left. split; [congruence|left; reflexivity].
      * destruct (IH Hnd' H) as [[H1 H2]|[H1 [[H2 H3]|(m & H2 & H3)]]].
        -- left. split; [exact H1|right; exact H2].
        -- right. split; [exact H1|]. left. split; [exact H2|].
           intros [H4|H4]; [congruence|exact (H3 H4)].
        -- right. split; [exact H1|]. right. exists m.
           split; [exact H2|right; exact H3].
Qed.

Lemma readers_app (k : str) (a b : list (str * field_access)) :
  readers k (a ++ b) = readers k a ++ readers k b.
Proof. unfold readers. rewrite filter_app, map_app. reflexivity. Qed.

Lemma readers_none (k : str) (seen : list (str * field_access)) :
  (forall s fa, In (s, fa) seen -> normalized fa <> k) -> readers k seen = [].
Proof.
  unfold readers. induction seen as [|[s fa] seen IH]; intros H; [reflexivity|].
  cbn [filter snd].
  destruct (eqb_str (normalized fa) k) eqn:E.
  - apply eqb_str_eq in E. exfalso. apply (H s fa); [left; reflexivity|exact E].
  - apply IH. intros s' fa' Hin. apply (H s' fa'). right; exact Hin.
Qed.

Lemma dictionary_ok_step (seen : list (str * field_access))
      (d : list (str * entry)) (s : str) (fa : field_access) :
  dictionary_ok seen d ->
  dictionary_ok (seen ++ [(s, fa)]) (record_access s fa d).
Proof.
  intros (Hnd & Hent & Hkeys). unfold record_access. cbv zeta.
  set (k := normalized fa).
  split; [rewrite update_entry_keys; apply set_add_NoDup, Hnd|]. split.
  - intros k' e' Hin. rewrite readers_app.
    destruct (update_entry_In _ _ _ _ _ Hnd Hin)
      as [[H1 H2]|[H1 [[H2 H3]|(e & H2 & H3)]]].
    + destruct (Hent _ _ H2) as (A & B & C).
      split; [|split; assumption].
      rewrite A. unfold readers at 3. cbn [filter snd]. fold k.
      destruct (eqb_str k k') eqn:E.
      * apply eqb_str_eq in E. congruence.
      * rewrite app_nil_r. reflexivity.
    + subst k' e'. cbn [used_by_synthesizers category description default_entry].
      split; [|split; reflexivity].
      rewrite readers_none.
      * unfold readers. cbn [filter snd]. fold k. rewrite eqb_str_refl.
        reflexivity.
      * intros s' fa' H E. apply H3. rewrite <- E. apply (Hkeys s' fa' H).
    + subst k' e'. destruct (Hent _ _ H3) as (A & B & C).
      cbn [used_by_synthesizers category description].
      split.
      * rewrite A. unfold readers at 3. cbn [filter snd]. fold k.
        rewrite eqb_str_refl. reflexivity.
      * pose proof (_categorize_field_named k) as Hc. rewrite <- B in Hc.
        pose proof (_describe_field_named k) as Hd. rewrite <- C in Hd.
        destruct (category e); [congruence|].
        destruct (description e); [congruence|].
        split; assumption.
  - intros s' fa' H. rewrite update_entry_keys, set_add_In.
    apply in_app_or in H as [H|[H|[]]].
    + right. apply (Hkeys _ _ H).
    + injection H as _ <-. left; reflexivity.
Qed.

Lemma dictionary_ok_fold (l seen : list (str * field_access))
      (d : list (str * entry)) :
  dictionary_ok seen d ->
  dictionary_ok (seen ++ l)
    (fold_left (fun d u => record_access (fst u) (snd u) d) l d).
Proof.
  revert seen d; induction l as [|[s fa] l IH]; intros seen d H; simpl.
  - rewrite app_nil_r. exact H.
  - change (seen ++ (s, fa) :: l) with (seen ++ [(s, fa)] ++ l).
    rewrite app_assoc. apply IH, dictionary_ok_step, H.
Qed.

Lemma eqb_str_sym (a b : str) : eqb_str a b = eqb_str b a.
Proof.
  destruct (eqb_str a b) eqn:E1; destruct (eqb_str b a) eqn:E2; try reflexivity.
  - apply eqb_str_eq in E1. subst b. rewrite eqb_str_refl in E2. discriminate.
  - apply eqb_str_eq in E2. subst b. rewrite eqb_str_refl in E1. discriminate.
Qed.

Lemma readers_length (k : str) (seen : list (str * field_access)) :
  length (readers k seen) = tally k (map (fun u => normalized (snd u)) seen).
Proof.
  unfold readers, tally. rewrite length_map.
  induction seen as [|[s fa] seen IH]; [reflexivity|].
  cbn [filter map snd].
  rewrite (eqb_str_sym k (normalized fa)).
  destruct (eqb_str (normalized fa) k); simpl; rewrite IH; reflexivity.
Qed.

End Dictionary.

(** X22.  The data dictionary that [build_dictionary] makes has one
    entry for each normalized path that is accessed; its category and
    its description are those computed from the path; and its list
    [used_by_synthesizers] holds the name of the synthesizer once for
    every access of the path, in order, so that the length of the list
    is the number of accesses: a synthesizer that reads the field twice
    is in it twice. *)
Theorem build_dictionary_counts_accesses (r : RADFieldAnalyzer.report) :
  let d := DictionaryBuilder.build_dictionary r in
  NoDup (map fst d)
  /\ (forall s fa, In (s, fa) (uses_of r) ->
        In (RADFieldAnalyzer.normalized fa) (map fst d))
  /\ (forall k e, In (k, e) d ->
        DictionaryBuilder.used_by_synthesizers e = readers k (uses_of r)
        /\ length (DictionaryBuilder.used_by_synthesizers e)
           = tally k (map RADFieldAnalyzer.normalized
                          (RADFieldAnalyzer.all_accesses
                             (RADFieldAnalyzer.synthesizer_details r)))
        /\ DictionaryBuilder.category e
           = DataDictionaryGenerator._categorize_field k
        /\ DictionaryBuilder.description e
           = DictionaryBuilder._describe_field k).
Proof.
  cbv zeta. rewrite build_dictionary_uses.
  destruct (dictionary_ok_fold (uses_of r) [] []) as (A & B & C).
  { split; [constructor|]. split; [intros k e []|intros s fa []]. }
  simpl in B, C. split; [exact A|]. split; [exact C|].
  intros k e Hin. destruct (B k e Hin) as (B1 & B2 & B3).
  split; [exact B1|]. split; [|split; assumption].
  rewrite B1, readers_length. f_equal.
  unfold uses_of, RADFieldAnalyzer.all_accesses.
  induction (RADFieldAnalyzer.synthesizer_details r) as [|a l IH];
    [reflexivity|].
  simpl. rewrite !map_app, IH, map_map. reflexivity.
Qed.

(** ** The table of variations *)

Section Variations.
Import Re RADFieldAnalyzer.

Lemma dd_add_inv (k v : str) (d : list (str * list str)) (k' : str)
      (s' : list str) :
  In (k', s') (dd_add k v d) ->
  In (k', s') d
  \/ (k' = k /\ exists s, (s = [] \/ In (k, s) d) /\ s' = set_add v s).
Proof.
  induction d as [|[k0 s0] d IH]; simpl.
  - intros [H|[]]. injection H as <- <-. right. split; [reflexivity|].
    exists []. split; [left; reflexivity|reflexivity].
  - destruct (eqb_str k k0) eqn:E.
    + apply eqb_str_eq in E. subst k0. intros [H|H].
      * injection H as <- <-. right. split; [reflexivity|].
        exists s0. split; [right; left; reflexivity|reflexivity].
      * left. right. exact H.
    + intros [H|H].
      * left. left. exact H.
      * destruct (IH H) as [H1|(-> & s & [->|Hs] & ->)].
        -- left. right. exact H1.
        -- right. split; [reflexivity|]. exists []. auto.
        -- right. split; [reflexivity|]. exists s. auto.
Qed.

Lemma path_state_variations (f : str) (st : analyzer) :
  variations_kept st (path_state f st).
Proof.
  unfold variations_kept, path_state.
  set (g := strip_chars quotes3 (strip f)).
  destruct (first_prefix normalizations g) as [[old new]|] eqn:E; [|auto].
  cbn [self_field_variations]. intros H k vs Hin.
  destruct (first_prefix_in _ _ _ _ E) as (Ht & t & Eg).
  destruct (dd_add_inv _ _ _ _ _ Hin) as [H1|(-> & s & Hs & ->)].
  - apply (H k vs H1).
  - split.
    + change new with (snd (old, new)). apply in_map, Ht.
    + intros v Hv. apply set_add_In in Hv as [->|Hv].
      * exists old. split; [exact Ht|]. rewrite Eg. apply startswith_app.
      * destruct Hs as [->|Hs]; [destruct Hv|].
        apply (H new s Hs), Hv.
Qed.

Lemma variations_refl (st : analyzer) : variations_kept st st.
Proof. intros H. exact H. Qed.

Lemma variations_trans (a b c : analyzer) :
  variations_kept a b -> variations_kept b c -> variations_kept a c.
Proof. intros H1 H2 H. apply H2, H1, H. Qed.

Lemma variations_normalize (f : str) :
  leaves variations_kept (normalize_field_path f).
Proof.
  intros st v st' H. rewrite normalize_field_path_ok in H.
  injection H as _ <-. apply path_state_variations.
Qed.

Lemma variations_add_all_fields (x : str) :
  leaves variations_kept (add_all_fields x).
Proof. intros st a st' H. inversion H; subst. intros Hv. exact Hv. Qed.

Lemma variations_add_entity_types (x : str) :
  leaves variations_kept (add_entity_types x).
Proof. intros st a st' H. inversion H; subst. intros Hv. exact Hv. Qed.

Lemma variations_add_field_by_entity (k v : str) :
  leaves variations_kept (add_field_by_entity k v).
Proof. intros st a st' H. inversion H; subst. intros Hv. exact Hv. Qed.

Lemma variations_append_results (a : analysis) :
  leaves variations_kept (append_results a).
Proof. intros st u st' H. inversion H; subst. intros Hv. exact Hv. Qed.

Ltac vbind :=
  apply (keeps_bind variations_kept variations_trans).
Ltac vret := apply (keeps_ret variations_kept variations_refl).
Ltac vlift := apply (keeps_lift variations_kept variations_refl).
Ltac vfold :=
  apply (keeps_foldM variations_kept variations_refl variations_trans).

Lemma variations_extract_entity_pick_fields code :
  leaves variations_kept (extract_entity_pick_fields code).
Proof.
  unfold extract_entity_pick_fields.
  vfold. intros m acc.
  repeat (vbind; [vlift|intros ?]).
  vfold. intros f acc1.
  vbind; [apply variations_normalize|intros n].
  vbind; [apply variations_add_all_fields|intros _].
  vbind; [|intros _; vret].
  destruct a2; [vret|apply variations_add_field_by_entity].
Qed.

Lemma variations_extract_direct_property_access code :
  leaves variations_kept (extract_direct_property_access code).
Proof.
  unfold extract_direct_property_access.
  vbind.
  - vfold. intros m acc. vbind; [vlift|intros ?; vret].
  - intros acc0. vfold. intros m acc.
    repeat (vbind; [vlift|intros ?]).
    apply keeps_if; [vret|].
    vbind; [vlift|intros t].
    vbind; [apply variations_normalize|intros n].
    vbind; [|intros _; vret].
    apply keeps_if; [apply variations_add_field_by_entity|vret].
Qed.

Lemma variations_extract_destructuring_patterns code :
  leaves variations_kept (extract_destructuring_patterns code).
Proof.
  unfold extract_destructuring_patterns.
  vfold. intros m acc.
  repeat (vbind; [vlift|intros ?]).
  vfold. intros f acc1.
  vbind; [apply variations_normalize|intros n].
  vbind; [|intros _; vret].
  apply keeps_if; [apply variations_add_field_by_entity|vret].
Qed.

Lemma variations_extract_entity_types code :
  leaves variations_kept (extract_entity_types code).
Proof.
  unfold extract_entity_types.
  vfold. intros p types. vfold. intros m types'.
  vbind; [vlift|intros t].
  vbind; [apply variations_add_entity_types|intros _; vret].
Qed.

Lemma variations_analyze_synthesizer name0 code :
  leaves variations_kept (analyze_synthesizer name0 code).
Proof.
  unfold analyze_synthesizer.
  vbind; [apply variations_extract_entity_pick_fields|intros l1].
  vbind; [apply variations_extract_direct_property_access|intros l2].
  vbind; [apply variations_extract_destructuring_patterns|intros l3].
  cbv zeta.
  vbind; [apply variations_extract_entity_types|intros ty].
  vbind; [vlift|intros ji].
  vbind; [apply variations_append_results|intros _; vret].
Qed.

End Variations.

(** X23.  The table [field_variations] in the report of a whole run is
    filled by [normalize_field_path] alone: each of its keys is a new
    prefix of the table of normalizations (not a whole normalized path),
    and every field listed under a key starts with an old prefix that
    the table maps to that key. *)
Theorem report_variations_come_from_the_table (content : str) :
  exists r,
    RADFieldAnalyzer.run_main content = Ok r
    /\ table_variations
         (RADFieldAnalyzer.field_variations (RADFieldAnalyzer.field_analysis r)).
Proof.
  unfold RADFieldAnalyzer.run_main.
  destruct (analyze_all (RADFieldAnalyzer.parse_rad_file content)
                        RADFieldAnalyzer.init) as (st' & E & _).
  rewrite E. eexists. split; [reflexivity|].
  cbn [RADFieldAnalyzer.generate_comprehensive_report
       RADFieldAnalyzer.field_analysis RADFieldAnalyzer.field_variations].
  refine (keeps_foldM variations_kept variations_refl variations_trans
            _ _ _ _ _ tt RADFieldAnalyzer.init tt st' E _).
  - intros nc acc.
    apply (keeps_bind variations_kept variations_trans);
      [apply variations_analyze_synthesizer|].
    intros _. apply (keeps_ret variations_kept variations_refl).
  - intros k vs [].
Qed.

(** ** The two normalizations in a row *)

Section Pipeline.
Import UniqueDataAnalyzer.

Lemma pipeline_table :
  forallb (fun k =>
             if mem_str k shadowed_keys
             then eqb_str (normalize_field_deeply (path_value k)) (path_value k)
                  && negb (eqb_str (path_value k) (normalize_field_deeply k))
             else eqb_str (normalize_field_deeply (path_value k))
                          (normalize_field_deeply k))
          (map fst deep_mappings) = true.
Proof. vm_compute; reflexivity. Qed.

End Pipeline.

(** X24.  [analyze_report] gives [normalize_field_deeply] the path that
    [normalize_field_path] has already normalized, not the field as it
    is written.  For a field that is a key of the deep table the result
    is the value of the table all the same, but for nine keys: there the
    first normalization gives a path that the deep table does not know,
    the path is kept as it is, and the name of the table is never
    reached. *)
Theorem deep_names_lost_after_path_normalization (k : str) :
  In k (map fst UniqueDataAnalyzer.deep_mappings) ->
  (~ In k shadowed_keys
   /\ UniqueDataAnalyzer.normalize_field_deeply (path_value k)
      = UniqueDataAnalyzer.normalize_field_deeply k)
  \/ (In k shadowed_keys
      /\ UniqueDataAnalyzer.normalize_field_deeply (path_value k) = path_value k
      /\ path_value k <> UniqueDataAnalyzer.normalize_field_deeply k).
Proof.
  intros Hk. pose proof pipeline_table as H.
  rewrite forallb_forall in H. specialize (H k Hk). cbv beta in H.
  destruct (mem_str k shadowed_keys) eqn:E.
  - right. apply andb_true_iff in H as [H1 H2].
    split; [apply mem_str_In, E|]. split; [apply eqb_str_eq, H1|].
    apply eqb_str_neq, negb_true_iff, H2.
  - left. split; [|apply eqb_str_eq, H].
    intros Hin. apply mem_str_In in Hin. congruence.
Qed.

Lemma deep_names_lost_after_path_normalization_witness :
  UniqueDataAnalyzer.normalize_field_deeply (path_value "gem.hasSent")
  = ("email.hasSent" : str)
  /\ UniqueDataAnalyzer.normalize_field_deeply "gem.hasSent"
     = ("email.hasSentCampaign" : str).
Proof.
  destruct (deep_names_lost_after_path_normalization "gem.hasSent")
    as [[Hn _]|(_ & H1 & _)].
  - vm_compute. do 31 right. left. reflexivity.
  - exfalso. apply Hn. vm_compute. do 7 right. left. reflexivity.
  - split; [exact H1|reflexivity].
Defined.

(** ** The relationships of the report *)

Section Relationships.
Import RADFieldAnalyzer.

Lemma analyze_all_joins (pairs : list (str * str)) (st st' : analyzer) :
  Forall (fun a => Forall word_run (joined_entities (join_info a))
                   /\ Forall join_condition_ok (join_conditions (join_info a)))
         (self_results st) ->
  St.foldM (fun nc (_ : unit) =>
              St.bind (analyze_synthesizer (fst nc) (snd nc))
                      (fun _ => St.ret tt)) pairs tt st = Ok (tt, st') ->
  Forall (fun a => Forall word_run (joined_entities (join_info a))
                   /\ Forall join_condition_ok (join_conditions (join_info a)))
         (self_results st').
Proof.
  intros H0 H. revert H.
  apply (foldM_inv analyzer (str * str) unit
           (fun _ s =>
              Forall (fun a => Forall word_run (joined_entities (join_info a))
                               /\ Forall join_condition_ok
                                         (join_conditions (join_info a)))
                     (self_results s))); [|exact H0].
  intros [n c] acc s acc' s' _ Hs H.
  apply bind_inv in H as (a & s1 & Ha & H).
  unfold St.ret in H. injection H as _ <-. cbn [fst snd] in Ha.
  destruct (analyze_synthesizer_spec n c s) as (a' & s1' & Ea & Hr & _).
  rewrite Ea in Ha. injection Ha as <- <-.
  rewrite Hr. apply Forall_app. split; [exact Hs|].
  constructor; [|constructor].
  destruct (analyze_synthesizer_inv _ _ _ _ _ Ea) as (Hj & _).
  destruct (detect_join_patterns_spec c) as (ji & Hji & _ & _ & H1 & H2).
  rewrite Hji in Hj. injection Hj as <-. split; assumption.
Qed.

End Relationships.

(** X25.  Every relationship listed in the report of a whole run comes
    from a section of the document, under the name of that section; its
    condition is a pair [a.b], [c.d] of non-empty runs of word
    characters, and its entities are such runs. *)
Theorem report_relationships_are_well_formed (content : str) :
  exists r,
    RADFieldAnalyzer.run_main content = Ok r
    /\ Forall (fun rel =>
                 In (RADFieldAnalyzer.synthesizer rel)
                    (map fst (RADFieldAnalyzer.parse_rad_file content))
                 /\ join_condition_ok (RADFieldAnalyzer.relationship rel)
                 /\ Forall word_run (RADFieldAnalyzer.entities rel))
              (RADFieldAnalyzer.entity_relationships r).
Proof.
  unfold RADFieldAnalyzer.run_main.
  destruct (analyze_all (RADFieldAnalyzer.parse_rad_file content)
                        RADFieldAnalyzer.init) as (st' & E & Hn).
  rewrite E. eexists. split; [reflexivity|].
  cbn [RADFieldAnalyzer.generate_comprehensive_report
       RADFieldAnalyzer.entity_relationships].
  pose proof (analyze_all_joins _ RADFieldAnalyzer.init st' (Forall_nil _) E) as H.
  simpl in Hn. rewrite <- Hn. clear Hn E.
  unfold RADFieldAnalyzer._analyze_entity_relationships.
  induction H as [|a l [Ha1 Ha2] _ IH]; [constructor|].
  cbn [flat_map map]. apply Forall_app. split.
  - destruct (RADFieldAnalyzer.uses_join (RADFieldAnalyzer.join_info a));
      [|constructor].
    apply Forall_forall. intros rel Hrel.
    apply in_map_iff in Hrel as (c & <- & Hc).
    cbn [RADFieldAnalyzer.synthesizer RADFieldAnalyzer.relationship
         RADFieldAnalyzer.entities].
    split; [left; reflexivity|]. split; [|exact Ha1].
    rewrite Forall_forall in Ha2. apply Ha2, Hc.
  - eapply Forall_impl; [|exact IH].
    intros rel (H1 & H2 & H3). split; [right; exact H1|]. split; assumption.
Qed.

(** The characters that the two dialects classify alike include all of
    ASCII but the separators 28 to 31. *)
Lemma same_class_ascii (c : ascii) :
  (code c <? 128) && negb (between 28 31 c) = true -> same_class c = true.
Proof.
  destruct c as [[] [] [] [] [] [] [] []]; vm_compute; intros H;
    try reflexivity; discriminate H.
Qed.
